(** * The table validator module of vxe-table

    A shallow embedding of [packages/table/module/validator/hook.ts]:
    the rule evaluator ([validRuleValue], [checkRuleStatus]), the error
    map store ([handleErrMsgMode], [clearValidate], [showValidTooltip]),
    the cell validation coordinator ([validCellRules]) and the validation
    session ([beginValidate] and the public methods built on it).

    The module works on the reactive data of the table and on a variable
    of its closure, and it can throw: its functions are computations in a
    monad of state and exceptions.  A method that returns a promise is
    embedded in two parts: what it does before it returns, which ends
    with a description of the promise ([Started]), and what the chain on
    that promise does when the checks it waits for have settled
    ([settle]).  A promise that a custom validator returns is given by
    how it ends and by the turn in which it ends.

    Left out: an exception thrown by a custom validator, a callback that
    calls back into the module, a column given as a string where the
    declared type is a column, and the [cell] that the failure path
    stores on [firstErrParams]. *)

From Stdlib Require Import List String Ascii Bool Arith ZArith QArith Lia.
From Stdlib Require Import DecimalString Permutation.
Import ListNotations.
Close Scope Q_scope.
Open Scope string_scope.
Set Warnings "-register-all".

(** ** JavaScript values *)

Module JS.

(** A JavaScript number: the finite doubles are rationals, and the
    comparisons the validator makes are exact on them. *)
Inductive JSNum : Type :=
| NaN
| NegInf
| PosInf
| Fin (q : Q).

Inductive Value : Type :=
| VUndefined
| VNull
| VBool (b : bool)
| VNum (n : JSNum)
| VStr (s : string)
| VArr (items : list Value)
| VObj (props : list (string * Value)).

(** What a statement of the module can throw. *)
Inductive Exn : Type :=
| SyntaxError (source : string)   (* new RegExp(source) *)
| TypeError (what : string).      (* property read on null *)

Inductive Result (A : Type) : Type :=
| Ok (a : A)
| Throw (e : Exn).
Arguments Ok {A} a.
Arguments Throw {A} e.

Definition isNaN (n : JSNum) : bool :=
  match n with NaN => true | _ => false end.

Definition isFinite (n : JSNum) : bool :=
  match n with Fin _ => true | _ => false end.

(** [a < b] on numbers; every comparison with NaN is false. *)
Definition num_lt (a b : JSNum) : bool :=
  match a, b with
  | NaN, _ | _, NaN => false
  | _, NegInf => false
  | NegInf, _ => true
  | PosInf, _ => false
  | Fin _, PosInf => true
  | Fin p, Fin q => negb (Qle_bool q p)
  end.

Definition num_gt (a b : JSNum) : bool := num_lt b a.

Definition num_of_nat (n : nat) : JSNum := Fin (inject_Z (Z.of_nat n)).

(** [min] and [max] of a rule: [string | number]; [undefined] and [null]
    are the [None] of an [option Bound]. *)
Inductive Bound : Type :=
| BNum (n : JSNum)
| BStr (s : string).

(** The parts of the language and of xe-utils the module relies on and
    that are not modelled here: printing and parsing of numbers, the path
    lookup [XEUtils.get] and the regular expression engine.  [RegExp_new]
    is [None] where [new RegExp(source)] throws a SyntaxError; a RegExp
    object is its [test] function. *)
Record Engine : Type := {
  NumberToString : Q -> string;
  StringToNumber : string -> JSNum;
  XEUtils_toNumber : Bound -> JSNum;
  XEUtils_get : Value -> string -> Value;
  RegExp_new : string -> option (string -> bool)
}.

Fixpoint join (sep : string) (l : list string) : string :=
  match l with
  | [] => ""
  | [s] => s
  | s :: rest => s ++ sep ++ join sep rest
  end.

Section WithEngine.
Variable E : Engine.

(** The template literal [`${val}`]. *)
Fixpoint toStr (v : Value) : string :=
  match v with
  | VUndefined => "undefined"
  | VNull => "null"
  | VBool true => "true"
  | VBool false => "false"
  | VNum NaN => "NaN"
  | VNum PosInf => "Infinity"
  | VNum NegInf => "-Infinity"
  | VNum (Fin q) => NumberToString E q
  | VStr s => s
  | VArr items =>
      join ","
        ((fix elems (l : list Value) : list string :=
            match l with
            | [] => []
            | VUndefined :: l' => "" :: elems l'
            | VNull :: l' => "" :: elems l'
            | x :: l' => toStr x :: elems l'
            end) items)
  | VObj _ => "[object Object]"
  end.

(** [Number(val)]. *)
Definition Number (v : Value) : JSNum :=
  match v with
  | VUndefined => NaN
  | VNull => Fin 0%Q
  | VBool true => Fin 1%Q
  | VBool false => Fin 0%Q
  | VNum n => n
  | VStr s => StringToNumber E s
  | VArr _ | VObj _ => StringToNumber E (toStr v)
  end.

End WithEngine.

Definition isArray (v : Value) : bool :=
  match v with VArr _ => true | _ => false end.

Definition isString (v : Value) : bool :=
  match v with VStr _ => true | _ => false end.

(** [val.length] of an array or a string, as a count. *)
Definition arr_length (v : Value) : nat :=
  match v with VArr items => List.length items | _ => 0 end.

(** Truthiness of an optional string ([undefined], [null] and [''] are
    falsy). *)
Definition truthy_str (s : option string) : bool :=
  match s with
  | Some s' => negb (String.eqb s' "")
  | None => false
  end.

(** [a || b] on optional strings. *)
Definition or_str (a b : option string) : option string :=
  if truthy_str a then a else b.

End JS.

Import JS.

(** ** Rule evaluator *)

Module RuleEval.

(** [rule.pattern]: [string | RegExp]. *)
Inductive Pattern : Type :=
| PatString (source : string)
| PatRegExp (test : string -> bool).

(** [rule.validator]: the name of a validator of the global registry, or
    a function of the configuration, referred to by a key into the
    functions the host supplies. *)
Inductive Validator : Type :=
| VNamed (name : string)
| VInline (fn : string).

(** A rule of [editRules] ([VxeTableDefines.ValidatorRule]).  [required]
    is the truthiness of [rule.required]. *)
Record ValidatorRule : Type := {
  required : bool;
  min : option Bound;
  max : option Bound;
  type : option string;
  pattern : option Pattern;
  validator : option Validator;
  trigger : option string;
  content : option string;
  message : option string
}.

(** Modelled from the spec: [eqEmptyValue] of [ui/src/utils], the
    semantic empty-value predicate (null, undefined, or the empty
    string). *)
Definition eqEmptyValue (v : Value) : bool :=
  match v with
  | VNull | VUndefined => true
  | VStr s => String.eqb s ""
  | _ => false
  end.

Section WithEngine.
Variable E : Engine.

Definition validREValue (pattern : option Pattern) (val : string) : Result bool :=
  match pattern with
  | None => Ok true
  | Some (PatRegExp test) => Ok (test val)
  | Some (PatString source) =>
      if String.eqb source "" then Ok true
      else match RegExp_new E source with
           | Some test => Ok (test val)
           | None => Throw (SyntaxError source)
           end
  end.

Definition validMaxValue (max : option Bound) (num : JSNum) : bool :=
  match max with
  | Some m => if num_gt num (XEUtils_toNumber E m) then false else true
  | None => true
  end.

Definition validMinValue (min : option Bound) (num : JSNum) : bool :=
  match min with
  | Some m => if num_lt num (XEUtils_toNumber E m) then false else true
  | None => true
  end.

Definition type_is (rule : ValidatorRule) (t : string) : bool :=
  match type rule with
  | Some t' => String.eqb t' t
  | None => false
  end.

Definition validRuleValue (rule : ValidatorRule) (val : Value) (required : bool) : Result bool :=
  let isArrType := type_is rule "array" in
  let isNumType := type_is rule "number" in
  let isStrType := type_is rule "string" in
  let strVal := toStr E val in
  match validREValue (pattern rule) strVal with
  | Throw e => Throw e
  | Ok false => Ok false
  | Ok true =>
      if isArrType then
        if negb (isArray val) then Ok false
        else if required && (arr_length val =? 0)%nat then Ok false
        else if negb (validMinValue (min rule) (num_of_nat (arr_length val))) then Ok false
        else if negb (validMaxValue (max rule) (num_of_nat (arr_length val))) then Ok false
        else Ok true
      else if isNumType then
        let numVal := Number E val in
        if isNaN numVal then Ok false
        else if negb (validMinValue (min rule) numVal) then Ok false
        else if negb (validMaxValue (max rule) numVal) then Ok false
        else Ok true
      else
        if isStrType && negb (isString val) then Ok false
        else if required && String.eqb strVal "" then Ok false
        else if negb (validMinValue (min rule) (num_of_nat (String.length strVal))) then Ok false
        else if negb (validMaxValue (max rule) (num_of_nat (String.length strVal))) then Ok false
        else Ok true
  end.

Definition isEmptyVal (val : Value) : bool :=
  if isArray val then (arr_length val =? 0)%nat else eqEmptyValue val.

Definition checkRuleStatus (rule : ValidatorRule) (val : Value) : Result bool :=
  if required rule then
    if isEmptyVal val then Ok false
    else match validRuleValue rule val (required rule) with
         | Throw e => Throw e
         | Ok false => Ok false
         | Ok true => Ok true
         end
  else
    if negb (isEmptyVal val) then
      match validRuleValue rule val (required rule) with
      | Throw e => Throw e
      | Ok false => Ok false
      | Ok true => Ok true
      end
    else Ok true.

End WithEngine.

End RuleEval.

(** ** Plain objects used as maps *)

Module Obj.

(** An object with string keys: the own properties in the order they were
    created.  [set] keeps the place of a key that exists, as an assignment
    [o[k] = v] does. *)
Definition t (V : Type) : Type := list (string * V).

Definition empty {V : Type} : t V := [].

Fixpoint get {V : Type} (o : t V) (k : string) : option V :=
  match o with
  | [] => None
  | (k', v) :: o' => if String.eqb k' k then Some v else get o' k
  end.

Fixpoint set {V : Type} (o : t V) (k : string) (v : V) : t V :=
  match o with
  | [] => [(k, v)]
  | (k', v') :: o' =>
      if String.eqb k' k then (k', v) :: o' else (k', v') :: set o' k v
  end.

Fixpoint delete {V : Type} (o : t V) (k : string) : t V :=
  match o with
  | [] => []
  | (k', v') :: o' =>
      if String.eqb k' k then delete o' k else (k', v') :: delete o' k
  end.

Definition is_digit (c : ascii) : bool :=
  let n := nat_of_ascii c in (48 <=? n)%nat && (n <=? 57)%nat.

Fixpoint digits_value (s : string) (acc : N) : option N :=
  match s with
  | EmptyString => Some acc
  | String c s' =>
      if is_digit c
      then digits_value s' (acc * 10 + N.of_nat (nat_of_ascii c - 48))%N
      else None
  end.

(** The array index a key denotes, if it is one: a canonical decimal
    numeral below 2^32 - 1.  Such keys are enumerated before the others,
    in ascending order. *)
Definition array_index (k : string) : option N :=
  match k with
  | EmptyString => None
  | String c rest =>
      if Ascii.eqb c "0" && negb (String.eqb rest "") then None
      else match digits_value k 0%N with
           | Some n => if (n <? 4294967295)%N then Some n else None
           | None => None
           end
  end.

Fixpoint insert_index {V : Type} (n : N) (kv : string * V)
  (l : list (N * (string * V))) : list (N * (string * V)) :=
  match l with
  | [] => [(n, kv)]
  | (m, kv') :: l' =>
      if (n <? m)%N then (n, kv) :: l else (m, kv') :: insert_index n kv l'
  end.

Fixpoint index_entries {V : Type} (o : t V) : list (N * (string * V)) :=
  match o with
  | [] => []
  | (k, v) :: o' =>
      match array_index k with
      | Some n => insert_index n (k, v) (index_entries o')
      | None => index_entries o'
      end
  end.

Definition named_entries {V : Type} (o : t V) : t V :=
  filter (fun kv => match array_index (fst kv) with Some _ => false | None => true end) o.

(** The own enumerable properties in the order of [Object.keys] and of
    [for ... in]. *)
Definition entries {V : Type} (o : t V) : t V :=
  (map snd (index_entries o) ++ named_entries o)%list.

Definition keys {V : Type} (o : t V) : list string := map fst (entries o).

(** [Object.assign(target, source)]. *)
Definition assign {V : Type} (target source : t V) : t V :=
  fold_left (fun acc kv => set acc (fst kv) (snd kv)) (entries source) target.

End Obj.

(** [s.split(sep)] for a one-character separator. *)
Fixpoint split_on (sep : ascii) (s : string) : list string :=
  match s with
  | EmptyString => [EmptyString]
  | String c s' =>
      if Ascii.eqb c sep then EmptyString :: split_on sep s'
      else match split_on sep s' with
           | [] => [String c EmptyString]
           | p :: ps => String c p :: ps
           end
  end.

(** [list.indexOf(x) > -1], where [x] may be [undefined]. *)
Definition indexOf_found (l : list string) (x : option string) : bool :=
  match x with
  | Some s => existsb (String.eqb s) l
  | None => false
  end.

(** ** The validator module: data *)

Module Validator.
Import RuleEval.

Definition Row : Type := Value.
Definition Elem : Type := string.
Definition Callback : Type := string.

Record Column : Type := {
  id : string;
  field : option string
}.

(** Instances of the class [Rule]: [new Rule(rule)] for a rule of
    [editRules], and
    [new Rule({ type: 'custom', trigger, content, rule: new Rule(rule) })]. *)
Inductive Rule : Type :=
| NewRule (rule : ValidatorRule)
| NewCustomRule (trigger : option string) (content : option string)
    (rule : ValidatorRule).

Definition Rule_trigger (r : Rule) : option string :=
  match r with
  | NewRule rule => trigger rule
  | NewCustomRule t _ _ => t
  end.

(** [$options.content || $options.message]. *)
Definition Rule_text (r : Rule) : option string :=
  match r with
  | NewRule rule => or_str (content rule) (message rule)
  | NewCustomRule _ c _ => or_str c None
  end.

(** How a promise a custom validator returned ends, and when: a later
    [settlesAt] is a later turn of the job queue. *)
Inductive Settlement : Type :=
| Fulfilled
| RejectedWith (message : option string).

Record Thenable : Type := {
  settlesAt : nat;
  settlement : Settlement
}.

(** What a custom validator returns: a falsy value, an [Error], an object
    with a [catch] method, or another truthy value. *)
Inductive CustomValid : Type :=
| CVFalsy
| CVError (message : option string)
| CVThenable (p : Thenable)
| CVOther.

Record ValidParams : Type := {
  vp_cellValue : Value;
  vp_rule : ValidatorRule;
  vp_rules : list ValidatorRule;
  vp_row : Row;
  vp_rowIndex : Z;
  vp_column : Column;
  vp_columnIndex : Z;
  vp_field : option string
}.

(** An entry of the global registry [validators]. *)
Record GvItem : Type := {
  tableCellValidatorMethod : option (ValidParams -> CustomValid);
  cellValidatorMethod : option (ValidParams -> CustomValid)
}.

(** What a failing cell is reported with. *)
Record Rest : Type := {
  rest_rule : Rule;
  rest_rules : list Rule;
  rest_rowIndex : Z;
  rest_row : Row;
  rest_columnIndex : Z;
  rest_column : Column;
  rest_field : string
}.

Definition ValidRest : Type := Obj.t (list Rest).

(** The argument of [showValidTooltip] and [handleValidError]. *)
Record Params : Type := {
  p_rule : Rule;
  p_row : Row;
  p_column : Column;
  p_cell : option Elem
}.

Record ErrEntry : Type := {
  err_column : Column;
  err_row : Row;
  err_rule : Rule;
  err_content : string
}.

Definition ErrMaps : Type := Obj.t ErrEntry.

Inductive FieldOrColumn : Type :=
| OfField (name : string)
| OfColumn (c : Column).

(** An argument that is one value, an array of values, or falsy. *)
Inductive Arg (A : Type) : Type :=
| ArgFalsy
| ArgOne (a : A)
| ArgMany (l : list A).
Arguments ArgFalsy {A}.
Arguments ArgOne {A} a.
Arguments ArgMany {A} l.

(** [XEUtils.isArray(x) ? x : (x ? [x] : [])]. *)
Definition toList {A : Type} (x : Arg A) : list A :=
  match x with
  | ArgMany l => l
  | ArgOne a => [a]
  | ArgFalsy => []
  end.

(** The [rows] argument of the validate methods. *)
Inductive RowsArg : Type :=
| RowsTrue
| RowsFalsy
| RowsCallback (cb : Callback)
| RowsArray (l : list Row)
| RowsRow (r : Row).

(** The table the module is set up for, as the module reads it: props
    ([editRules], and the truthiness of [treeConfig], [editConfig] and
    [height]), reactive data ([isRowGroupStatus], [tableData.length], the
    arguments of the active cell of [editStore] if a row is active),
    internal data ([afterFullData], and the truthiness of an entry of
    [removeRowMaps] and [pendingRowMaps]), computed options, the methods
    of [$xeTable] the module calls, the global registry and
    configuration, and the clock.  [getRowid], [handleFieldOrColumn] and
    [getFuncText] are the functions of that name the module imports;
    [getInsertRecords] is [None] where the table has no such method;
    [inlineValidators] gives the function a rule refers to by
    [VInline]. *)
Record Table : Type := {
  editRules : option (Obj.t (list ValidatorRule));
  treeConfig : bool;
  editConfig : bool;
  height : bool;
  isRowGroupStatus : bool;
  tableData_length : nat;
  actived : option Params;
  afterFullData : list Row;
  removeRowMaps : string -> bool;
  pendingRowMaps : string -> bool;
  treeOpts_children : option string;
  treeOpts_childrenField : option string;
  aggregateOpts_mapChildrenField : option string;
  validOpts_msgMode : option string;
  validOpts_autoPos : option bool;
  validOpts_message : option string;
  editOpts_mode : option string;
  getRowid : Row -> string;
  isAggregateRecord : Row -> bool;
  getColumns : list Column;
  handleFieldOrColumn : FieldOrColumn -> option Column;
  getInsertRecords : option (list Row);
  getUpdateRecords : list Row;
  getRowIndex : Row -> Z;
  getColumnIndex : Column -> Z;
  getCellElement : Row -> Column -> option Elem;
  validators : string -> option GvItem;
  inlineValidators : string -> ValidParams -> CustomValid;
  getFuncText : option string -> string;
  validToReject : option string;
  Date_now : Z
}.

(** Calls that leave the module, in the order they are made. *)
Inductive Effect : Type :=
| ErrLog (key : string) (args : list string)
| WarnLog (key : string) (args : list string)
| DispatchEvent (name : string) (params : Params)
| TipClose
| TipOpen (cell : option Elem) (content : string)
| ScrollToRow (row : Row) (column : Column)
| ScrollToView (cell : option Elem)
| HandleEdit (params : Params)
| CallCb (cb : Callback) (arg : option ValidRest).

(** The mutable state the module works on: [reactData.validErrorMaps],
    [reactData.validStore.visible], [internalData._lastCallTime], the
    variable [validRuleErr] of the closure, and the tooltip component
    ([None] while the ref is empty, else its [reactData.visible], taken
    to be set by [open] and cleared by [close]); with them the calls that
    left the module, oldest first. *)
Record State : Type := {
  validErrorMaps : ErrMaps;
  validStore_visible : bool;
  lastCallTime : Z;
  validRuleErr : bool;
  validTip : option bool;
  effects : list Effect
}.

Definition set_validErrorMaps (m : ErrMaps) (s : State) : State :=
  {| validErrorMaps := m; validStore_visible := validStore_visible s;
     lastCallTime := lastCallTime s; validRuleErr := validRuleErr s;
     validTip := validTip s; effects := effects s |}.

Definition set_validStore_visible (b : bool) (s : State) : State :=
  {| validErrorMaps := validErrorMaps s; validStore_visible := b;
     lastCallTime := lastCallTime s; validRuleErr := validRuleErr s;
     validTip := validTip s; effects := effects s |}.

Definition set_lastCallTime (t : Z) (s : State) : State :=
  {| validErrorMaps := validErrorMaps s; validStore_visible := validStore_visible s;
     lastCallTime := t; validRuleErr := validRuleErr s;
     validTip := validTip s; effects := effects s |}.

Definition set_validRuleErr (b : bool) (s : State) : State :=
  {| validErrorMaps := validErrorMaps s; validStore_visible := validStore_visible s;
     lastCallTime := lastCallTime s; validRuleErr := b;
     validTip := validTip s; effects := effects s |}.

Definition set_validTip (v : option bool) (s : State) : State :=
  {| validErrorMaps := validErrorMaps s; validStore_visible := validStore_visible s;
     lastCallTime := lastCallTime s; validRuleErr := validRuleErr s;
     validTip := v; effects := effects s |}.

Definition emit (e : Effect) (s : State) : State :=
  {| validErrorMaps := validErrorMaps s; validStore_visible := validStore_visible s;
     lastCallTime := lastCallTime s; validRuleErr := validRuleErr s;
     validTip := validTip s; effects := (effects s ++ [e])%list |}.

(** The walk writes to [validRuleErr] and to the log only. *)
Definition sameStore (st st' : State) : Prop :=
  validErrorMaps st' = validErrorMaps st
  /\ lastCallTime st' = lastCallTime st
  /\ validStore_visible st' = validStore_visible st
  /\ validTip st' = validTip st.

(** What the walk calls outside: the error log and nothing else. *)
Definition logsOnly (st st' : State) : Prop :=
  exists logs,
    effects st' = (effects st ++ logs)%list
    /\ forall e, In e logs -> exists key args, e = ErrLog key args.

(** *** State and exceptions *)

Definition M (A : Type) : Type := State -> Result A * State.

Definition ret {A : Type} (a : A) : M A := fun s => (Ok a, s).

Definition bind {A B : Type} (m : M A) (f : A -> M B) : M B :=
  fun s =>
    match m s with
    | (Ok a, s') => f a s'
    | (Throw e, s') => (Throw e, s')
    end.

Definition throw {A : Type} (e : Exn) : M A := fun s => (Throw e, s).

Definition gets {A : Type} (f : State -> A) : M A := fun s => (Ok (f s), s).

Definition modify (f : State -> State) : M unit := fun s => (Ok tt, f s).

Declare Scope js_scope.
Delimit Scope js_scope with js.
Notation "x <- m ;; k" := (bind m (fun x => k))
  (at level 61, m at next level, right associativity) : js_scope.
Notation "m ;;; k" := (bind m (fun _ => k))
  (at level 61, right associativity) : js_scope.
Open Scope js_scope.

(** A computation that neither reads nor writes
    [internalData._lastCallTime]. *)
Definition timeBlind {A : Type} (m : M A) : Prop :=
  forall (t : Z) (st : State),
    m (set_lastCallTime t st) = (fst (m st), set_lastCallTime t (snd (m st))).

(** [list.forEach] with the variables the callback updates as an
    accumulator. *)
Fixpoint forEach {A B : Type} (f : A -> B -> M B) (l : list A) (acc : B) : M B :=
  match l with
  | [] => ret acc
  | x :: l' => acc' <- f x acc ;; forEach f l' acc'
  end.

(** *** What a call leaves pending *)

(** A [customValid.catch(...)] pushed on [syncValidList]. *)
Record Pending : Type := {
  pend_trigger : option string;
  pend_rule : ValidatorRule;
  pend_promise : Thenable
}.

(** The promise [validCellRules] returns, by the variables its
    continuation reads: [errorRules] as the synchronous part left it, and
    [syncValidList]. *)
Record CellPromise : Type := {
  errorRules : list Rule;
  syncValidList : list Pending
}.

(** An element of [colVailds]: the promise of a cell with the [catch]
    handler [handleVaild] attached to it. *)
Record ColVaild : Type := {
  cv_row : Row;
  cv_column : Column;
  cv_field : string;
  cv_promise : CellPromise
}.

(** A validation session between the return of [beginValidate] and the
    settlement of the promise it returned. *)
Record Session : Type := {
  s_isFull : bool;
  s_cb : option Callback;
  s_rowValidErrs : list (list ColVaild)
}.

(** The promise a validate method returns: [nextTick()] followed by the
    call of the callback, if any, or the chain on
    [Promise.all(rowValidErrs)]. *)
Inductive Started : Type :=
| Tick (cb : option Callback)
| Walking (s : Session).

Inductive Settled : Type :=
| Resolved (value : option ValidRest)
| Rejected (reason : ValidRest).

(** How a session ended: the settlement of its promise, and the object
    [validRest] of the session. *)
Record Outcome : Type := {
  settled : Settled;
  failures : ValidRest
}.

(** Stable sort by a time: handlers run in the order their promises
    settle, and in the order of creation among those that settle in the
    same turn. *)
Fixpoint insert_by {A : Type} (key : A -> nat) (x : A) (l : list A) : list A :=
  match l with
  | [] => [x]
  | y :: l' => if (key x <=? key y)%nat then x :: l else y :: insert_by key x l'
  end.

Definition sort_by {A : Type} (key : A -> nat) (l : list A) : list A :=
  fold_right (insert_by key) [] l.

Definition nonempty {A : Type} (l : list A) : bool :=
  match l with [] => false | _ :: _ => true end.

Definition str_is (s : option string) (lit : string) : bool :=
  match s with
  | Some s' => String.eqb s' lit
  | None => false
  end.

(** ** The validator module: operations *)

Section WithTable.
Variable E : Engine.
Variable T : Table.

Definition errLog (key : string) (args : list string) : M unit :=
  modify (emit (ErrLog key args)).

Definition warnLog (key : string) (args : list string) : M unit :=
  modify (emit (WarnLog key args)).

(** The getter [content] of the class [Rule]. *)
Definition Rule_content (r : Rule) : string := getFuncText T (Rule_text r).

(** The getter [message] of the class [Rule]. *)
Definition Rule_message (r : Rule) : string := Rule_content r.

(** The key [`${getRowid($xeTable, row)}:${column.id}`]. *)
Definition validKey (row : Row) (column : Column) : string :=
  getRowid T row ++ ":" ++ id column.

(** [validOpts.msgMode === 'single'] and [validOpts.autoPos === false]. *)
Definition msgMode_single : bool := str_is (validOpts_msgMode T) "single".

Definition autoPos_false : bool :=
  match validOpts_autoPos T with
  | Some false => true
  | _ => false
  end.

Definition handleErrMsgMode (validErrMaps : ErrMaps) : ErrMaps :=
  if msgMode_single then
    match Obj.keys validErrMaps with
    | firstKey :: _ =>
        match Obj.get validErrMaps firstKey with
        | Some item => Obj.set Obj.empty firstKey item
        | None => Obj.empty
        end
    | [] => Obj.empty
    end
  else validErrMaps.

(** [column.id] of an element of [colList], which is [null] where
    [handleFieldOrColumn] found no column. *)
Definition column_id (column : option Column) : M string :=
  match column with
  | Some c => ret (id c)
  | None => throw (TypeError "id")
  end.

(** The rows-only and the columns-only branch of [clearValidate]: the
    entries of [validErrorMaps] whose key has, at [part] of its split on
    [':'], one of [idList]. *)
Definition pickEntries (part : nat) (idList : list string)
  (validErrorMaps : ErrMaps) : ErrMaps :=
  fold_left
    (fun validErrMaps kv =>
       if indexOf_found idList (nth_error (split_on ":" (fst kv)) part)
       then Obj.set validErrMaps (fst kv) (snd kv)
       else validErrMaps)
    (Obj.entries validErrorMaps) Obj.empty.

Definition clearValidate (rows : Arg Row) (fieldOrColumn : Arg FieldOrColumn) : M unit :=
  validErrorMaps0 <- gets validErrorMaps ;;
  validTip0 <- gets validTip ;;
  let rowList := toList rows in
  let colList := map (handleFieldOrColumn T) (toList fieldOrColumn) in
  (match validTip0 with
   | Some true => modify (emit TipClose) ;;; modify (set_validTip (Some false))
   | _ => ret tt
   end) ;;;
  if msgMode_single then modify (set_validErrorMaps Obj.empty)
  else
    validErrMaps <-
      (if nonempty rowList && nonempty colList then
         forEach
           (fun row acc =>
              forEach
                (fun column acc' =>
                   cid <- column_id column ;;
                   let validKey := getRowid T row ++ ":" ++ cid in
                   match Obj.get acc' validKey with
                   | Some _ => ret (Obj.delete acc' validKey)
                   | None => ret acc'
                   end)
                colList acc)
           rowList (Obj.assign Obj.empty validErrorMaps0)
       else if nonempty rowList then
         let rowIdList := map (getRowid T) rowList in
         ret (pickEntries 0 rowIdList validErrorMaps0)
       else if nonempty colList then
         colidList <- forEach (fun column acc => cid <- column_id column ;; ret (acc ++ [cid])%list)
                        colList [] ;;
         ret (pickEntries 1 colidList validErrorMaps0)
       else ret Obj.empty) ;;
    modify (set_validErrorMaps validErrMaps).

Definition showValidTooltip (params : Params) : M unit :=
  validErrorMaps0 <- gets validErrorMaps ;;
  validTip0 <- gets validTip ;;
  let content := Rule_content (p_rule params) in
  let entry := {| err_column := p_column params; err_row := p_row params;
                  err_rule := p_rule params; err_content := content |} in
  modify (set_validStore_visible true) ;;;
  (if msgMode_single then
     modify (set_validErrorMaps
               (Obj.set Obj.empty (validKey (p_row params) (p_column params)) entry))
   else
     modify (set_validErrorMaps
               (Obj.assign (Obj.assign Obj.empty validErrorMaps0)
                  (Obj.set Obj.empty (validKey (p_row params) (p_column params)) entry)))) ;;;
  modify (emit (DispatchEvent "valid-error" params)) ;;;
  match validTip0 with
  | Some _ =>
      if str_is (validOpts_message T) "tooltip"
         || (str_is (validOpts_message T) "default" && negb (height T)
             && (tableData_length T <? 2)%nat)
      then modify (emit (TipOpen (p_cell params) content)) ;;;
           modify (set_validTip (Some true))
      else ret tt
  | None => ret tt
  end.

(** [handleValidError]; [handleEdit] is taken to succeed. *)
Definition handleValidError (params : Params) : M unit :=
  if autoPos_false then modify (emit (DispatchEvent "valid-error" params))
  else modify (emit (HandleEdit params)) ;;; showValidTooltip params.

(** *** Cell validation *)

(** [validType === 'all' || !trigger || validType === trigger]. *)
Definition applies (validType : string) (rule : ValidatorRule) : bool :=
  String.eqb validType "all" || negb (truthy_str (trigger rule))
  || str_is (trigger rule) validType.

(** Truthiness of [rule.validator]: the empty name is falsy. *)
Definition validator_given (rule : ValidatorRule) : option Validator :=
  match validator rule with
  | Some (VNamed name) => if String.eqb name "" then None else Some (VNamed name)
  | Some (VInline fn) => Some (VInline fn)
  | None => None
  end.

(** The call of the custom validator: [customValid] stays [undefined]
    where the name is not registered or the entry has no method. *)
Definition callValidator (v : Validator) (validParams : ValidParams) : M CustomValid :=
  match v with
  | VNamed name =>
      match validators T name with
      | Some gvItem =>
          match tableCellValidatorMethod gvItem, cellValidatorMethod gvItem with
          | Some tcvMethod, _ => ret (tcvMethod validParams)
          | None, Some tcvMethod => ret (tcvMethod validParams)
          | None, None => errLog "vxe.error.notValidators" [name] ;;; ret CVFalsy
          end
      | None => errLog "vxe.error.notValidators" [name] ;;; ret CVFalsy
      end
  | VInline fn => ret (inlineValidators T fn validParams)
  end.

(** The body of [rules.forEach] in [validCellRules], on the pair of
    [errorRules] and [syncValidList]. *)
Definition validRule (validType : string) (row : Row) (column : Column)
  (rules : list ValidatorRule) (cellValue : Value) (rule : ValidatorRule)
  (acc : list Rule * list Pending) : M (list Rule * list Pending) :=
  if applies validType rule then
    match validator_given rule with
    | Some v =>
        let validParams :=
          {| vp_cellValue := cellValue; vp_rule := rule; vp_rules := rules;
             vp_row := row; vp_rowIndex := getRowIndex T row;
             vp_column := column; vp_columnIndex := getColumnIndex T column;
             vp_field := field column |} in
        customValid <- callValidator v validParams ;;
        match customValid with
        | CVError msg =>
            modify (set_validRuleErr true) ;;;
            ret ((fst acc ++ [NewCustomRule (trigger rule) msg rule])%list, snd acc)
        | CVThenable p =>
            ret (fst acc,
                 (snd acc ++ [{| pend_trigger := trigger rule; pend_rule := rule;
                                 pend_promise := p |}])%list)
        | CVFalsy | CVOther => ret acc
        end
    | None =>
        match checkRuleStatus E rule cellValue with
        | Throw e => throw e
        | Ok false =>
            modify (set_validRuleErr true) ;;;
            ret ((fst acc ++ [NewRule rule])%list, snd acc)
        | Ok true => ret acc
        end
    end
  else ret acc.

Definition isUndefined (v : Value) : bool :=
  match v with VUndefined => true | _ => false end.

(** The rules of a field, where [field && editRules] holds and
    [XEUtils.get(editRules, field)] is defined. *)
Definition fieldRules (f : option string) : option (list ValidatorRule) :=
  match f, editRules T with
  | Some name, Some rulesOf =>
      if String.eqb name "" then None else Obj.get rulesOf name
  | _, _ => None
  end.

(** The synchronous part of [validCellRules]. *)
Definition validCellRules (validType : string) (row : Row) (column : Column)
  (val : Value) : M CellPromise :=
  match fieldRules (field column), field column with
  | Some rules, Some name =>
      let cellValue := if isUndefined val then XEUtils_get E row name else val in
      acc <- forEach (validRule validType row column rules cellValue) rules ([], []) ;;
      ret {| errorRules := fst acc; syncValidList := snd acc |}
  | _, _ => ret {| errorRules := []; syncValidList := [] |}
  end.

(** The handler of [customValid.catch]: the rule it pushes on
    [errorRules] when the promise is rejected. *)
Definition catchRule (p : Pending) : list Rule :=
  match settlement (pend_promise p) with
  | RejectedWith msg =>
      [NewCustomRule (pend_trigger p)
         (if truthy_str msg then msg
          else or_str (content (pend_rule p)) (message (pend_rule p)))
         (pend_rule p)]
  | Fulfilled => []
  end.

Definition rejected (p : Pending) : bool :=
  match settlement (pend_promise p) with
  | RejectedWith _ => true
  | Fulfilled => false
  end.

(** [errorRules] when [Promise.all(syncValidList)] is fulfilled. *)
Definition settledErrorRules (cp : CellPromise) : list Rule :=
  (errorRules cp
   ++ flat_map catchRule
        (sort_by (fun p => settlesAt (pend_promise p)) (syncValidList cp)))%list.

(** When the promise of a cell settles: in the turn of the call if it
    waits for nothing, else after the last of its checks. *)
Definition cellSettlesAt (cp : CellPromise) : nat :=
  match syncValidList cp with
  | [] => 0
  | l => S (fold_right Nat.max 0 (map (fun p => settlesAt (pend_promise p)) l))
  end.

(** [hasCellRules]: whether a rule of the field applies to [type]. *)
Definition hasCellRules (type : string) (row : Row) (column : Column) : bool :=
  match fieldRules (field column) with
  | Some rules => existsb (applies type) rules
  | None => false
  end.

(** *** The dataset walk *)

(** [XEUtils.eachTree(list, iterate, { children })], as the rows it hands
    to [iterate], in order: each row before the rows of its children
    array. *)
Fixpoint treeRows (children : string) (item : Value) : list Value :=
  item ::
  match item with
  | VObj props =>
      (fix find (ps : list (string * Value)) : list Value :=
         match ps with
         | [] => []
         | (k, v) :: ps' =>
             if String.eqb k children then
               match v with
               | VArr kids =>
                   (fix each (l : list Value) : list Value :=
                      match l with
                      | [] => []
                      | x :: l' => (treeRows children x ++ each l')%list
                      end) kids
               | _ => []
               end
             else find ps'
         end) props
  | _ => []
  end.

(** [options.children || 'children'], as xe-utils reads the option. *)
Definition eachTree (l : list Row) (children : option string) : list Row :=
  flat_map (treeRows (if truthy_str children then
                        match children with Some c => c | None => "children" end
                      else "children")) l.

(** The rows [handleVaild] is called on, in order. *)
Definition visited (validList : list Row) : list Row :=
  if isRowGroupStatus T then eachTree validList (aggregateOpts_mapChildrenField T)
  else if treeConfig T then
    eachTree validList (or_str (treeOpts_children T) (treeOpts_childrenField T))
  else validList.

(** [XEUtils.has(editRules, field)]. *)
Definition hasRules (f : option string) : bool :=
  match f, editRules T with
  | Some name, Some rulesOf =>
      match Obj.get rulesOf name with Some _ => true | None => false end
  | _, _ => false
  end.

(** The rows the walk leaves out. *)
Definition skipped (row : Row) : bool :=
  removeRowMaps T (getRowid T row) || pendingRowMaps T (getRowid T row)
  || isAggregateRecord T row.

(** The columns of [columns] a row is validated in when nothing stops
    the walk: those whose field has rules. *)
Definition eligible (columns : list (option Column)) : list Column :=
  flat_map (fun column =>
              match column with
              | Some c => if hasRules (field c) then [c] else []
              | None => []
              end) columns.

(** The body of [columns.forEach] in [handleVaild], on [colVailds]. *)
Definition validColumn (isFull : bool) (row : Row) (column : option Column)
  (colVailds : list ColVaild) : M (list ColVaild) :=
  match column with
  | None => throw (TypeError "field")
  | Some c =>
      err <- gets validRuleErr ;;
      if (isFull || negb err) && hasRules (field c) then
        p <- validCellRules "all" row c VUndefined ;;
        ret (colVailds
             ++ [{| cv_row := row; cv_column := c;
                    cv_field := match field c with Some name => name | None => "" end;
                    cv_promise := p |}])%list
      else ret colVailds
  end.

(** [handleVaild], on [rowValidErrs]. *)
Definition handleVaild (isFull : bool) (columns : list (option Column))
  (row : Row) (rowValidErrs : list (list ColVaild)) : M (list (list ColVaild)) :=
  let rowid := getRowid T row in
  if removeRowMaps T rowid then ret rowValidErrs
  else if pendingRowMaps T rowid then ret rowValidErrs
  else if isAggregateRecord T row then ret rowValidErrs
  else
    err <- gets validRuleErr ;;
    if isFull || negb err then
      colVailds <- forEach (validColumn isFull row) columns [] ;;
      ret (rowValidErrs ++ [colVailds])%list
    else ret rowValidErrs.

(** The callback, the rows and the columns [beginValidate] works with. *)
Definition callbackOf (rows : RowsArg) (cb : option Callback) : option Callback :=
  match rows with
  | RowsCallback f => Some f
  | _ => cb
  end.

Definition validListOf (rows : RowsArg) : list Row :=
  match rows with
  | RowsTrue => afterFullData T
  | RowsArray l => l
  | RowsRow r => [r]
  | RowsFalsy | RowsCallback _ =>
      match getInsertRecords T with
      | Some inserted => (inserted ++ getUpdateRecords T)%list
      | None => []
      end
  end.

Definition columnsOf (cols : option (list (option Column))) : list (option Column) :=
  match cols with
  | Some (c :: cs) => c :: cs
  | _ => map Some (getColumns T)
  end.

(** [beginValidate] up to its [return]. *)
Definition beginValidate (rows : RowsArg) (cols : option (list (option Column)))
  (cb : option Callback) (isFull : bool) : M Started :=
  let cb := callbackOf rows cb in
  let validList := validListOf rows in
  modify (set_lastCallTime (Date_now T)) ;;;
  modify (set_validRuleErr false) ;;;
  clearValidate ArgFalsy ArgFalsy ;;;
  match editRules T with
  | Some _ =>
      let columns := columnsOf cols in
      rowValidErrs <- forEach (handleVaild isFull columns) (visited validList) [] ;;
      ret (Walking {| s_isFull := isFull; s_cb := cb; s_rowValidErrs := rowValidErrs |})
  | None =>
      modify (set_validErrorMaps Obj.empty) ;;;
      ret (Tick cb)
  end.

Definition fullValidate (rows : RowsArg) (cb : option Callback) : M Started :=
  (match cb with
   | Some _ => warnLog "vxe.error.notValidators"
                 ["fullValidate(rows, callback)"; "fullValidate(rows)"]
   | None => ret tt
   end) ;;;
  beginValidate rows None cb true.

Definition validate (rows : RowsArg) (cb : option Callback) : M Started :=
  beginValidate rows None cb false.

Definition fullValidateField (rows : RowsArg) (fieldOrColumn : Arg FieldOrColumn) : M Started :=
  let colList := map (handleFieldOrColumn T) (toList fieldOrColumn) in
  if nonempty colList then beginValidate rows (Some colList) None true
  else ret (Tick None).

Definition validateField (rows : RowsArg) (fieldOrColumn : Arg FieldOrColumn) : M Started :=
  let colList := map (handleFieldOrColumn T) (toList fieldOrColumn) in
  if nonempty colList then beginValidate rows (Some colList) None false
  else ret (Tick None).

(** *** Settlement of a session *)

(** The [catch] handler [handleVaild] attaches to the promise of a cell,
    on the objects [validRest] and [validErrMaps] of the session.  It runs
    when the promise is rejected, that is when [errorRules] is not
    empty. *)
Definition restOf (c : ColVaild) (rule : Rule) (rules : list Rule) : Rest :=
  {| rest_rule := rule; rest_rules := rules;
     rest_rowIndex := getRowIndex T (cv_row c); rest_row := cv_row c;
     rest_columnIndex := getColumnIndex T (cv_column c);
     rest_column := cv_column c; rest_field := cv_field c |}.

Definition entryOf (row : Row) (column : Column) (rule : Rule) : ErrEntry :=
  {| err_column := column; err_row := row; err_rule := rule;
     err_content := Rule_content rule |}.

Definition catchCell (c : ColVaild) (acc : ValidRest * ErrMaps) : ValidRest * ErrMaps :=
  match settledErrorRules (cv_promise c) with
  | [] => acc
  | (rule :: _) as rules =>
      let rest := restOf c rule rules in
      (Obj.set (fst acc) (cv_field c)
         (match Obj.get (fst acc) (cv_field c) with
          | Some l => (l ++ [rest])%list
          | None => [rest]
          end),
       Obj.set (snd acc) (validKey (cv_row c) (cv_column c))
         (entryOf (cv_row c) (cv_column c) rule))
  end.

(** The cells of a session in the order their promises settle. *)
Definition settleOrder (s : Session) : list ColVaild :=
  sort_by (fun c => cellSettlesAt (cv_promise c)) (List.concat (s_rowValidErrs s)).

(** [validRest] and [validErrMaps] once every cell has settled. *)
Definition collected (s : Session) : ValidRest * ErrMaps :=
  fold_left (fun acc c => catchCell c acc) (settleOrder s) (Obj.empty, Obj.empty).

Definition failing (c : ColVaild) : bool :=
  nonempty (settledErrorRules (cv_promise c)).

(** [firstErrParams]: in a full validation [validRest[ruleProps[0]][0]];
    otherwise the reason of the first rejection, which rejects
    [Promise.all(rowValidErrs)]. *)
Definition firstErrParams (s : Session) : option Rest :=
  if s_isFull s then
    match Obj.keys (fst (collected s)) with
    | firstProp :: _ =>
        match Obj.get (fst (collected s)) firstProp with
        | Some (rest :: _) => Some rest
        | _ => None
        end
    | [] => None
    end
  else
    match filter failing (settleOrder s) with
    | c :: _ =>
        match settledErrorRules (cv_promise c) with
        | (rule :: _) as rules => Some (restOf c rule rules)
        | [] => None
        end
    | [] => None
    end.

Definition callCb (cb : option Callback) (arg : option ValidRest) : M unit :=
  match cb with
  | Some f => modify (emit (CallCb f arg))
  | None => ret tt
  end.

(** [finish] of the failure path. *)
Definition finish (cb : option Callback) (validRest : ValidRest) : M Outcome :=
  match cb with
  | Some f =>
      modify (emit (CallCb f (Some validRest))) ;;;
      ret {| settled := Resolved None; failures := validRest |}
  | None =>
      if str_is (validToReject T) "obsolete"
      then ret {| settled := Rejected validRest; failures := validRest |}
      else ret {| settled := Resolved (Some validRest); failures := validRest |}
  end.

(** What runs between the return of a validate method and the settlement
    of the promise it returned, once the checks the session started have
    settled: the handlers of the rejected checks and cells, the merge
    into [reactData.validErrorMaps], and on failure the positioning and
    [finish].  [validRest] is handed over as the object it is, so the
    outcome holds what it holds when every cell has settled. *)
Definition settle (p : Started) : M Outcome :=
  match p with
  | Tick cb =>
      callCb cb None ;;;
      ret {| settled := Resolved None; failures := Obj.empty |}
  | Walking s =>
      let validRest := fst (collected s) in
      let validErrMaps := snd (collected s) in
      (if existsb rejected (flat_map (fun c => syncValidList (cv_promise c)) (settleOrder s))
          || (negb (s_isFull s) && existsb failing (settleOrder s))
       then modify (set_validRuleErr true) else ret tt) ;;;
      match firstErrParams s with
      | None =>
          modify (set_validErrorMaps (handleErrMsgMode validErrMaps)) ;;;
          callCb (s_cb s) None ;;;
          ret {| settled := Resolved None; failures := validRest |}
      | Some first =>
          (if s_isFull s
           then modify (set_validErrorMaps (handleErrMsgMode validErrMaps))
           else ret tt) ;;;
          (if autoPos_false then ret tt
           else
             modify (emit (ScrollToRow (rest_row first) (rest_column first))) ;;;
             let cell := getCellElement T (rest_row first) (rest_column first) in
             modify (emit (ScrollToView cell)) ;;;
             handleValidError {| p_rule := rest_rule first; p_row := rest_row first;
                                 p_column := rest_column first; p_cell := cell |}) ;;;
          finish (s_cb s) validRest
      end
  end.

(** A validate call followed by the settlement of its promise, with
    nothing else in between. *)
Definition run (call : M Started) : M Outcome := p <- call ;; settle p.

(** The error map a session leaves when it settles, by the map it finds,
    and the call of the callback it makes. *)
Definition settledMaps (s : Session) (current : ErrMaps) : ErrMaps :=
  match firstErrParams s with
  | None => handleErrMsgMode (snd (collected s))
  | Some first =>
      let merged :=
        if s_isFull s then handleErrMsgMode (snd (collected s)) else current in
      if autoPos_false then merged
      else if msgMode_single then
        Obj.set Obj.empty (validKey (rest_row first) (rest_column first))
          (entryOf (rest_row first) (rest_column first) (rest_rule first))
      else
        Obj.assign (Obj.assign Obj.empty merged)
          (Obj.set Obj.empty (validKey (rest_row first) (rest_column first))
             (entryOf (rest_row first) (rest_column first) (rest_rule first)))
  end.

Definition settledCall (s : Session) : list Effect :=
  match s_cb s, firstErrParams s with
  | Some f, None => [CallCb f None]
  | Some f, Some _ => [CallCb f (Some (fst (collected s)))]
  | None, _ => []
  end.

(** The state in which the walk of [beginValidate] starts. *)
Definition prepared (st : State) : State :=
  snd (clearValidate ArgFalsy ArgFalsy
         (set_validRuleErr false (set_lastCallTime (Date_now T) st))).

(** *** Validation on an edit trigger *)

(** [triggerValidate], with the continuation of the cell's promise: the
    result is the reason of the rejection, if the promise is rejected. *)
Definition triggerValidate (type : string) : M (option Params) :=
  (match editRules T with
   | Some _ => if msgMode_single then modify (set_validErrorMaps Obj.empty) else ret tt
   | None => ret tt
   end) ;;;
  match editRules T, actived T with
  | Some _, Some args =>
      if editConfig T && hasCellRules type (p_row args) (p_column args) then
        cp <- validCellRules type (p_row args) (p_column args) VUndefined ;;
        (if existsb rejected (syncValidList cp)
         then modify (set_validRuleErr true) else ret tt) ;;;
        match settledErrorRules cp with
        | [] =>
            (if str_is (editOpts_mode T) "row"
             then clearValidate (ArgOne (p_row args)) (ArgOne (OfColumn (p_column args)))
             else ret tt) ;;;
            ret None
        | rule :: _ =>
            if negb (truthy_str (Rule_trigger rule)) || str_is (Rule_trigger rule) type
            then
              let rest := {| p_rule := rule; p_row := p_row args;
                             p_column := p_column args; p_cell := p_cell args |} in
              showValidTooltip rest ;;;
              ret (Some rest)
            else ret None
        end
      else ret None
  | _, _ => ret None
  end.

End WithTable.

End Validator.

(** ** A table to run the module on *)

Module Demo.
Import RuleEval Validator.

(** An engine for the examples: numbers are printed and read as decimal
    integers, [XEUtils.get] reads an own property, and a pattern is a
    literal text searched in the value, an opening parenthesis alone being
    a syntax error. *)
Definition numberToString (q : Q) : string :=
  NilZero.string_of_int (Z.to_int (Qnum q / Zpos (Qden q))).

Definition stringToNumber (s : string) : JSNum :=
  if String.eqb s "" then Fin 0%Q
  else match NilZero.int_of_string s with
       | Some i => Fin (inject_Z (Z.of_int i))
       | None => NaN
       end.

Definition toNumber (b : Bound) : JSNum :=
  match b with
  | BNum NaN => Fin 0%Q
  | BNum n => n
  | BStr s => match stringToNumber s with NaN => Fin 0%Q | n => n end
  end.

Fixpoint getProp (props : list (string * Value)) (name : string) : Value :=
  match props with
  | [] => VUndefined
  | (k, v) :: props' => if String.eqb k name then v else getProp props' name
  end.

Definition getValue (obj : Value) (name : string) : Value :=
  match obj with
  | VObj props => getProp props name
  | _ => VUndefined
  end.

Definition newRegExp (source : string) : option (string -> bool) :=
  if String.eqb source "(" then None
  else Some (fun val => match String.index 0 source val with
                        | Some _ => true
                        | None => false
                        end).

Definition engine : Engine :=
  {| NumberToString := numberToString;
     StringToNumber := stringToNumber;
     XEUtils_toNumber := toNumber;
     XEUtils_get := getValue;
     RegExp_new := newRegExp |}.

(** A rule with nothing set. *)
Definition noRule : ValidatorRule :=
  {| required := false; min := None; max := None; type := None;
     pattern := None; validator := None; trigger := None;
     content := None; message := None |}.

Definition requiredRule (msg : string) : ValidatorRule :=
  {| required := true; min := None; max := None; type := None;
     pattern := None; validator := None; trigger := None;
     content := Some msg; message := None |}.

Definition customRule (v : Validator) (msg : string) : ValidatorRule :=
  {| required := false; min := None; max := None; type := None;
     pattern := None; validator := Some v; trigger := None;
     content := Some msg; message := None |}.

Definition colName : Column := {| id := "col_1"; field := Some "name" |}.
Definition colAge : Column := {| id := "col_2"; field := Some "age" |}.

Definition mkRow (rowid : string) (name age : Value) : Row :=
  VObj [("id", VStr rowid); ("name", name); ("age", age)].

Definition rowidOf (row : Row) : string :=
  match getValue row "id" with
  | VStr s => s
  | _ => ""
  end.

Definition columnOf (columns : list Column) (fc : FieldOrColumn) : option Column :=
  match fc with
  | OfColumn c => Some c
  | OfField name =>
      find (fun c => match field c with
                     | Some f => String.eqb f name
                     | None => false
                     end) columns
  end.

(** An inline validator that rejects, after [n] turns, when the cell is
    empty. *)
Definition rejectsLater (n : nat) (p : ValidParams) : CustomValid :=
  CVThenable {| settlesAt := n;
                settlement := if eqEmptyValue (vp_cellValue p)
                              then RejectedWith (Some "taken")
                              else Fulfilled |}.

(** A flat table with the columns [name] and [age], no tooltip options
    and nothing removed or pending. *)
Definition table (rules : option (Obj.t (list ValidatorRule)))
  (msgMode : option string) (autoPos : option bool)
  (reject : option string) (now : Z) : Table :=
  {| editRules := rules;
     treeConfig := false;
     editConfig := true;
     height := false;
     isRowGroupStatus := false;
     tableData_length := 0;
     actived := None;
     afterFullData := [];
     removeRowMaps := fun _ => false;
     pendingRowMaps := fun _ => false;
     treeOpts_children := None;
     treeOpts_childrenField := None;
     aggregateOpts_mapChildrenField := None;
     validOpts_msgMode := msgMode;
     validOpts_autoPos := autoPos;
     validOpts_message := None;
     editOpts_mode := None;
     getRowid := rowidOf;
     isAggregateRecord := fun _ => false;
     getColumns := [colName; colAge];
     handleFieldOrColumn := columnOf [colName; colAge];
     getInsertRecords := Some [];
     getUpdateRecords := [];
     getRowIndex := fun _ => 0%Z;
     getColumnIndex := fun _ => 0%Z;
     getCellElement := fun _ _ => None;
     validators := fun _ => None;
     inlineValidators := fun fn p =>
       if String.eqb fn "later1" then rejectsLater 1 p
       else if String.eqb fn "later2" then rejectsLater 2 p
       else CVFalsy;
     getFuncText := fun s => match s with Some t => t | None => "" end;
     validToReject := reject;
     Date_now := now |}.

Definition state0 : State :=
  {| validErrorMaps := Obj.empty; validStore_visible := false;
     lastCallTime := 0%Z; validRuleErr := false; validTip := None;
     effects := [] |}.

Definition nameRequired : Obj.t (list ValidatorRule) :=
  [("name", [requiredRule "name is required"])].

(** The same table with rows marked as removed. *)
Definition withRemoved (T : Table) (removed : string -> bool) : Table :=
  {| editRules := editRules T;
     treeConfig := treeConfig T;
     editConfig := editConfig T;
     height := height T;
     isRowGroupStatus := isRowGroupStatus T;
     tableData_length := tableData_length T;
     actived := actived T;
     afterFullData := afterFullData T;
     removeRowMaps := removed;
     pendingRowMaps := pendingRowMaps T;
     treeOpts_children := treeOpts_children T;
     treeOpts_childrenField := treeOpts_childrenField T;
     aggregateOpts_mapChildrenField := aggregateOpts_mapChildrenField T;
     validOpts_msgMode := validOpts_msgMode T;
     validOpts_autoPos := validOpts_autoPos T;
     validOpts_message := validOpts_message T;
     editOpts_mode := editOpts_mode T;
     getRowid := getRowid T;
     isAggregateRecord := isAggregateRecord T;
     getColumns := getColumns T;
     handleFieldOrColumn := handleFieldOrColumn T;
     getInsertRecords := getInsertRecords T;
     getUpdateRecords := getUpdateRecords T;
     getRowIndex := getRowIndex T;
     getColumnIndex := getColumnIndex T;
     getCellElement := getCellElement T;
     validators := validators T;
     inlineValidators := inlineValidators T;
     getFuncText := getFuncText T;
     validToReject := validToReject T;
     Date_now := Date_now T |}.

(** The same table with a cell in edit: the arguments of the active
    cell, and the edit mode. *)
Definition withActive (T : Table) (args : Params) (mode : option string) : Table :=
  {| editRules := editRules T;
     treeConfig := treeConfig T;
     editConfig := editConfig T;
     height := height T;
     isRowGroupStatus := isRowGroupStatus T;
     tableData_length := tableData_length T;
     actived := Some args;
     afterFullData := afterFullData T;
     removeRowMaps := removeRowMaps T;
     pendingRowMaps := pendingRowMaps T;
     treeOpts_children := treeOpts_children T;
     treeOpts_childrenField := treeOpts_childrenField T;
     aggregateOpts_mapChildrenField := aggregateOpts_mapChildrenField T;
     validOpts_msgMode := validOpts_msgMode T;
     validOpts_autoPos := validOpts_autoPos T;
     validOpts_message := validOpts_message T;
     editOpts_mode := mode;
     getRowid := getRowid T;
     isAggregateRecord := isAggregateRecord T;
     getColumns := getColumns T;
     handleFieldOrColumn := handleFieldOrColumn T;
     getInsertRecords := getInsertRecords T;
     getUpdateRecords := getUpdateRecords T;
     getRowIndex := getRowIndex T;
     getColumnIndex := getColumnIndex T;
     getCellElement := getCellElement T;
     validators := validators T;
     inlineValidators := inlineValidators T;
     getFuncText := getFuncText T;
     validToReject := validToReject T;
     Date_now := Date_now T |}.

(** Two rows whose [name] is empty and one whose [name] is set. *)
Definition row1 : Row := mkRow "r1" (VStr "") (VNum (Fin 3%Q)).
Definition row2 : Row := mkRow "r2" VNull (VNum (Fin 3%Q)).
Definition row3 : Row := mkRow "r3" (VStr "bob") (VNum (Fin 3%Q)).

Definition nameEntry (T : Table) (row : Row) : ErrEntry :=
  entryOf T row colName (NewRule (requiredRule "name is required")).

(** A state whose error map holds the entries of [row1] and [row2] in the
    column [name]. *)
Definition stateWith (T : Table) : State :=
  set_validErrorMaps
    [("r1:col_1", nameEntry T row1); ("r2:col_1", nameEntry T row2)] state0.

(** Rules with a check of [name] that settles later and a check of
    [age] that is made at once, and a row that fails the second only. *)
Definition mixedRules : Obj.t (list ValidatorRule) :=
  [("name", [customRule (VInline "later1") "name is taken"]);
   ("age", [requiredRule "age is required"])].

Definition row4 : Row := mkRow "r4" (VStr "bob") VNull.

(** The table in multi-message mode with auto-positioning off. *)
Definition multiTable : Table :=
  table (Some nameRequired) None (Some false) None 5%Z.

(** The same table as a tree table, the rows of a row being in its
    property [children]. *)
Definition asTree (T : Table) : Table :=
  {| editRules := editRules T;
     treeConfig := true;
     editConfig := editConfig T;
     height := height T;
     isRowGroupStatus := isRowGroupStatus T;
     tableData_length := tableData_length T;
     actived := actived T;
     afterFullData := afterFullData T;
     removeRowMaps := removeRowMaps T;
     pendingRowMaps := pendingRowMaps T;
     treeOpts_children := Some "children";
     treeOpts_childrenField := treeOpts_childrenField T;
     aggregateOpts_mapChildrenField := aggregateOpts_mapChildrenField T;
     validOpts_msgMode := validOpts_msgMode T;
     validOpts_autoPos := validOpts_autoPos T;
     validOpts_message := validOpts_message T;
     editOpts_mode := editOpts_mode T;
     getRowid := getRowid T;
     isAggregateRecord := isAggregateRecord T;
     getColumns := getColumns T;
     handleFieldOrColumn := handleFieldOrColumn T;
     getInsertRecords := getInsertRecords T;
     getUpdateRecords := getUpdateRecords T;
     getRowIndex := getRowIndex T;
     getColumnIndex := getColumnIndex T;
     getCellElement := getCellElement T;
     validators := validators T;
     inlineValidators := inlineValidators T;
     getFuncText := getFuncText T;
     validToReject := validToReject T;
     Date_now := Date_now T |}.

(** A row whose [name] is set, with [row1] and [row2] as its children. *)
Definition row5 : Row :=
  VObj [("id", VStr "r5"); ("name", VStr "ann"); ("age", VNum (Fin 3%Q));
        ("children", VArr [row1; row2])].

End Demo.

(** * Properties *)

Import RuleEval Validator.

(** ** Rule evaluator *)

Lemma validRuleValue_number_NaN (E : Engine) (rule : ValidatorRule)
  (val : Value) (req : bool) :
  type rule = Some "number" ->
  isNaN (Number E val) = true ->
  validRuleValue E rule val req =
  match validREValue E (pattern rule) (toStr E val) with
  | Throw e => Throw e
  | Ok _ => Ok false
  end.
Proof.
  intros Hty Hnan. unfold validRuleValue, type_is. rewrite Hty. simpl.
  destruct (validREValue E (pattern rule) (toStr E val)) as [[|]|e]; try reflexivity.
  now rewrite Hnan.
Qed.

(** On a value that is not empty [checkRuleStatus] is [validRuleValue]. *)
Lemma checkRuleStatus_not_empty (E : Engine) (rule : ValidatorRule) (val : Value) :
  isEmptyVal val = false ->
  checkRuleStatus E rule val = validRuleValue E rule val (required rule).
Proof.
  intros Hempty. unfold checkRuleStatus. rewrite Hempty. simpl.
  destruct (required rule);
    destruct (validRuleValue E rule val _) as [[|]|e]; reflexivity.
Qed.

(** C4. The emptiness gate of [checkRuleStatus]: on an empty value (an
    array of length zero, or else null, undefined or the empty string) a
    required rule fails and any other rule passes, whatever [min], [max]
    and [pattern] are, even a pattern that does not compile; on a value
    that is not empty the verdict is that of the constraint checks of
    [validRuleValue], whether the rule is required or not. *)
Theorem checkRuleStatus_empty_gate (E : Engine) (rule : ValidatorRule) (val : Value) :
  (required rule = true -> isEmptyVal val = true ->
   checkRuleStatus E rule val = Ok false)
  /\ (required rule = false -> isEmptyVal val = true ->
      checkRuleStatus E rule val = Ok true)
  /\ (isEmptyVal val = false ->
      checkRuleStatus E rule val = validRuleValue E rule val (required rule)).
Proof.
  split; [|split].
  - intros Hreq Hempty. unfold checkRuleStatus. now rewrite Hreq, Hempty.
  - intros Hreq Hempty. unfold checkRuleStatus. now rewrite Hreq, Hempty.
  - apply checkRuleStatus_not_empty.
Qed.

(** The gate at work: a required rule with a bound and a pattern that
    does not compile fails on the empty string without throwing, the same
    rule not required passes on [null], and on a text the constraint
    checks run. *)
Lemma checkRuleStatus_empty_gate_witness :
  let rule req :=
    {| required := req; min := Some (BNum (Fin 5%Q)); max := None; type := None;
       pattern := Some (PatString "("); validator := None; trigger := None;
       content := None; message := None |} in
  checkRuleStatus Demo.engine (rule true) (VStr "") = Ok false
  /\ checkRuleStatus Demo.engine (rule false) VNull = Ok true
  /\ checkRuleStatus Demo.engine (rule false) (VStr "abc")
     = validRuleValue Demo.engine (rule false) (VStr "abc") false.
Proof.
  intros rule. split; [|split].
  - apply (checkRuleStatus_empty_gate Demo.engine (rule true) (VStr "")); reflexivity.
  - apply (checkRuleStatus_empty_gate Demo.engine (rule false) VNull); reflexivity.
  - apply (checkRuleStatus_empty_gate Demo.engine (rule false) (VStr "abc")); reflexivity.
Defined.

(** C5, as stated, fails: a rule of type number that is not required
    passes on [undefined], whose conversion is NaN, because an empty value
    is not checked at all; and it passes on [Infinity], which is not
    finite but is not NaN either. *)
Lemma number_rule_passes_non_finite :
  let rule := {| required := false; min := None; max := None;
                 type := Some "number"; pattern := None; validator := None;
                 trigger := None; content := None; message := None |} in
  (isFinite (Number Demo.engine VUndefined) = false
   /\ checkRuleStatus Demo.engine rule VUndefined = Ok true)
  /\ (isFinite (Number Demo.engine (VNum PosInf)) = false
      /\ checkRuleStatus Demo.engine rule (VNum PosInf) = Ok true).
Proof. repeat split. Qed.

(** C5, amended. For a rule of type number and a value that is not empty
    and converts to NaN, evaluation fails whether the rule is required or
    not, once the pattern test has run; a pattern that does not compile
    throws instead. *)
Theorem number_rule_rejects_NaN (E : Engine) (rule : ValidatorRule) (val : Value) :
  type rule = Some "number" ->
  isEmptyVal val = false ->
  isNaN (Number E val) = true ->
  checkRuleStatus E rule val =
  match validREValue E (pattern rule) (toStr E val) with
  | Throw e => Throw e
  | Ok _ => Ok false
  end.
Proof.
  intros Hty Hempty Hnan.
  rewrite (checkRuleStatus_not_empty E rule val Hempty).
  now apply validRuleValue_number_NaN.
Qed.

Lemma number_rule_rejects_NaN_witness :
  let rule req :=
    {| required := req; min := None; max := None; type := Some "number";
       pattern := None; validator := None; trigger := None;
       content := None; message := None |} in
  checkRuleStatus Demo.engine (rule false) (VStr "abc") = Ok false
  /\ checkRuleStatus Demo.engine (rule true) (VStr "abc") = Ok false.
Proof.
  intros rule. split.
  - apply (number_rule_rejects_NaN Demo.engine (rule false) (VStr "abc")); reflexivity.
  - apply (number_rule_rejects_NaN Demo.engine (rule true) (VStr "abc")); reflexivity.
Defined.

(** ** The monad *)

Lemma forEach_app {A B : Type} (f : A -> B -> M B) (l1 l2 : list A) (acc : B) (st : State) :
  forEach f (l1 ++ l2) acc st = (acc1 <- forEach f l1 acc ;; forEach f l2 acc1) st.
Proof.
  revert acc st. induction l1 as [|x l1 IH]; intros acc st; simpl.
  - reflexivity.
  - unfold bind in *.
    destruct (f x acc st) as [[acc'|e] st']; [apply IH | reflexivity].
Qed.

Lemma forEach_cons_ok {A B : Type} (f : A -> B -> M B) (x : A) (l : list A)
  (acc : B) (st : State) (acc1 : B) (st1 : State) :
  f x acc st = (Ok acc1, st1) -> forEach f (x :: l) acc st = forEach f l acc1 st1.
Proof. intros H. simpl. unfold bind. now rewrite H. Qed.

Lemma snd_bind {A B : Type} (m : M A) (f : A -> M B) (st : State) :
  snd (bind m f st)
  = match m st with
    | (Ok a, st') => snd (f a st')
    | (Throw _, st') => st'
    end.
Proof. unfold bind. now destruct (m st) as [[a|e] st']. Qed.

Lemma forEach_frame {A B : Type} (f : A -> B -> M B) (R : State -> State -> Prop) :
  (forall st, R st st) ->
  (forall st1 st2 st3, R st1 st2 -> R st2 st3 -> R st1 st3) ->
  (forall x acc st r st', f x acc st = (r, st') -> R st st') ->
  forall l acc st r st', forEach f l acc st = (r, st') -> R st st'.
Proof.
  intros Hrefl Htrans Hstep l. induction l as [|x l IH]; intros acc st r st'; simpl.
  - unfold ret. intros H. inversion H. apply Hrefl.
  - unfold bind. destruct (f x acc st) as [[acc1|e] st1] eqn:Hf.
    + intros H. eapply Htrans; [eapply Hstep; exact Hf | eapply IH; exact H].
    + intros H. inversion H. subst. eapply Hstep. exact Hf.
Qed.

Lemma forEach_invariant {A B : Type} (f : A -> B -> M B) (P : B -> State -> Prop)
  (l : list A) :
  (forall x acc st acc' st',
      In x l -> P acc st -> f x acc st = (Ok acc', st') -> P acc' st') ->
  forall acc st acc' st',
    P acc st -> forEach f l acc st = (Ok acc', st') -> P acc' st'.
Proof.
  induction l as [|x l IH]; intros Hstep acc st acc' st' HP; simpl.
  - unfold ret. intros H. inversion H. now subst.
  - unfold bind. destruct (f x acc st) as [[acc1|e] st1] eqn:Hf; [|discriminate].
    apply IH.
    + intros y a s a' s' Hy. apply Hstep. now right.
    + eapply Hstep; [now left | exact HP | exact Hf].
Qed.

Lemma timeBlind_ret {A : Type} (a : A) : timeBlind (ret a).
Proof. intros t st. reflexivity. Qed.

Lemma timeBlind_bind {A B : Type} (m : M A) (f : A -> M B) :
  timeBlind m -> (forall a, timeBlind (f a)) -> timeBlind (bind m f).
Proof.
  intros Hm Hf t st. unfold bind. rewrite Hm.
  destruct (m st) as [[a|e] st']; simpl; [apply Hf | reflexivity].
Qed.

Lemma timeBlind_gets {A : Type} (f : State -> A) :
  (forall t st, f (set_lastCallTime t st) = f st) -> timeBlind (gets f).
Proof. intros Hf t st. unfold gets. simpl. now rewrite Hf. Qed.

Lemma timeBlind_modify (f : State -> State) :
  (forall t st, f (set_lastCallTime t st) = set_lastCallTime t (f st)) ->
  timeBlind (modify f).
Proof. intros Hf t st. unfold modify. simpl. now rewrite Hf. Qed.

Lemma timeBlind_if {A : Type} (b : bool) (m1 m2 : M A) :
  timeBlind m1 -> timeBlind m2 -> timeBlind (if b then m1 else m2).
Proof. now destruct b. Qed.

Ltac time_blind :=
  repeat first
    [ apply timeBlind_ret
    | apply timeBlind_bind; [|intros ?]
    | apply timeBlind_gets; reflexivity
    | apply timeBlind_modify; reflexivity
    | apply timeBlind_if
    | match goal with
      | |- timeBlind (match ?x with _ => _ end) => destruct x
      end ].

(** ** Objects *)

Lemma Obj_set_in {V : Type} (o : Obj.t V) (k : string) (v : V) (k' : string) (v' : V) :
  In (k', v') (Obj.set o k v) -> (k' = k /\ v' = v) \/ In (k', v') o.
Proof.
  induction o as [|[k0 v0] o IH]; simpl.
  - intros [H|[]]. inversion H. now left.
  - destruct (String.eqb_spec k0 k) as [->|Hne]; simpl.
    + intros [H|H]; [inversion H; now left | right; now right].
    + intros [H|H]; [right; now left|].
      destruct (IH H) as [?|?]; [now left | right; now right].
Qed.

Lemma Obj_set_not_empty {V : Type} (o : Obj.t V) (k : string) (v : V) :
  Obj.set o k v <> [].
Proof.
  destruct o as [|[k0 v0] o]; simpl; [discriminate|].
  destruct (String.eqb k0 k); discriminate.
Qed.

Lemma Obj_get_set_same {V : Type} (o : Obj.t V) (k : string) (v : V) :
  Obj.get (Obj.set o k v) k = Some v.
Proof.
  induction o as [|[k0 v0] o IH]; simpl.
  - now rewrite String.eqb_refl.
  - destruct (String.eqb_spec k0 k) as [->|Hne]; simpl.
    + now rewrite String.eqb_refl.
    + apply String.eqb_neq in Hne. now rewrite Hne.
Qed.

Lemma Obj_get_set_other {V : Type} (o : Obj.t V) (k k' : string) (v : V) :
  k' <> k -> Obj.get (Obj.set o k v) k' = Obj.get o k'.
Proof.
  intros Hne. induction o as [|[k0 v0] o IH]; simpl.
  - destruct (String.eqb_spec k k'); [congruence | reflexivity].
  - destruct (String.eqb_spec k0 k) as [->|Hne0]; simpl.
    + destruct (String.eqb_spec k k'); [congruence | reflexivity].
    + now rewrite IH.
Qed.

Lemma Obj_get_in {V : Type} (o : Obj.t V) (k : string) (v : V) :
  Obj.get o k = Some v -> In (k, v) o.
Proof.
  induction o as [|[k0 v0] o IH]; simpl; [discriminate|].
  destruct (String.eqb_spec k0 k) as [->|Hne].
  - intros H. inversion H. now left.
  - intros H. right. now apply IH.
Qed.

Lemma Obj_in_get {V : Type} (o : Obj.t V) (k : string) (v : V) :
  In (k, v) o -> exists v', Obj.get o k = Some v'.
Proof.
  induction o as [|[k0 v0] o IH]; simpl; [intros []|].
  destruct (String.eqb_spec k0 k) as [->|Hne]; [now eexists|].
  intros [H|H]; [inversion H; congruence | now apply IH].
Qed.

Lemma Obj_get_none {V : Type} (o : Obj.t V) (k : string) :
  ~ In k (map fst o) -> Obj.get o k = None.
Proof.
  induction o as [|[k0 v0] o IH]; simpl; [reflexivity|].
  intros Hnot. destruct (String.eqb_spec k0 k) as [->|Hne]; [tauto|].
  apply IH. tauto.
Qed.

Lemma Obj_get_unique {V : Type} (o : Obj.t V) (k : string) (v : V) :
  NoDup (map fst o) -> In (k, v) o -> Obj.get o k = Some v.
Proof.
  induction o as [|[k0 v0] o IH]; simpl; [intros _ []|].
  intros Hnodup [H|H].
  - inversion H. now rewrite String.eqb_refl.
  - inversion Hnodup as [|? ? Hnot Hrest]. subst.
    destruct (String.eqb_spec k0 k) as [->|Hne]; [|now apply IH].
    exfalso. apply Hnot. apply in_map_iff. now exists (k, v).
Qed.

Lemma Obj_get_delete {V : Type} (o : Obj.t V) (k k' : string) :
  Obj.get (Obj.delete o k') k = if String.eqb k' k then None else Obj.get o k.
Proof.
  induction o as [|[k0 v0] o IH]; simpl; [now destruct (String.eqb k' k)|].
  destruct (String.eqb_spec k0 k') as [->|Hne]; simpl.
  - rewrite IH. now destruct (String.eqb k' k).
  - rewrite IH. destruct (String.eqb_spec k0 k) as [->|Hne'].
    + apply not_eq_sym in Hne. apply String.eqb_neq in Hne. now rewrite Hne.
    + reflexivity.
Qed.

Lemma insert_index_in {V : Type} (n : N) (kv : string * V)
  (l : list (N * (string * V))) (x : N * (string * V)) :
  In x (Obj.insert_index n kv l) <-> x = (n, kv) \/ In x l.
Proof.
  induction l as [|[m kv'] l IH]; simpl.
  - intuition.
  - destruct (n <? m)%N; simpl; [intuition|].
    rewrite IH. intuition.
Qed.

Lemma index_entries_in {V : Type} (o : Obj.t V) (n : N) (kv : string * V) :
  In (n, kv) (Obj.index_entries o) <-> In kv o /\ Obj.array_index (fst kv) = Some n.
Proof.
  induction o as [|[k v] o IH]; simpl.
  - intuition.
  - destruct (Obj.array_index k) as [m|] eqn:Hk.
    + rewrite insert_index_in, IH. split.
      * intros [H|[H1 H2]]; [inversion H; subst; simpl; auto | auto].
      * intros [[H|H] Hn]; [subst kv; simpl in Hn; left; congruence | right; auto].
    + rewrite IH. split.
      * intros [H1 H2]; auto.
      * intros [[H|H] Hn]; [subst kv; simpl in Hn; congruence | auto].
Qed.

(** [Object.keys] lists the own properties, each once. *)
Lemma Obj_entries_in {V : Type} (o : Obj.t V) (kv : string * V) :
  In kv (Obj.entries o) <-> In kv o.
Proof.
  unfold Obj.entries, Obj.named_entries.
  rewrite in_app_iff, in_map_iff, filter_In. split.
  - intros [([n kv'] & Heq & Hin)|[Hin _]]; [|exact Hin].
    simpl in Heq. subst kv'. now apply (index_entries_in o n kv) in Hin.
  - intros Hin. destruct (Obj.array_index (fst kv)) as [n|] eqn:Hk.
    + left. exists (n, kv). split; [reflexivity|]. now apply (index_entries_in o n kv).
    + right. split; [exact Hin | reflexivity].
Qed.

Lemma Obj_keys_in {V : Type} (o : Obj.t V) (k : string) :
  In k (Obj.keys o) -> exists v, Obj.get o k = Some v.
Proof.
  unfold Obj.keys. rewrite in_map_iff. intros ([k' v] & Heq & Hin).
  simpl in Heq. subst. apply (Obj_entries_in o (k, v)) in Hin.
  eapply Obj_in_get. exact Hin.
Qed.

Lemma Obj_keys_nil {V : Type} (o : Obj.t V) : Obj.keys o = [] -> o = [].
Proof.
  destruct o as [|kv o]; [reflexivity|]. intros Hnil. exfalso.
  assert (Hin : In kv (Obj.entries (kv :: o))) by (apply (Obj_entries_in (kv :: o) kv); now left).
  unfold Obj.keys in Hnil. apply map_eq_nil in Hnil. now rewrite Hnil in Hin.
Qed.

Lemma insert_index_perm {V : Type} (n : N) (kv : string * V)
  (l : list (N * (string * V))) :
  Permutation (Obj.insert_index n kv l) ((n, kv) :: l).
Proof.
  induction l as [|[m kv'] l IH]; simpl; [apply Permutation_refl|].
  destruct (n <? m)%N; [apply Permutation_refl|].
  eapply Permutation_trans; [apply perm_skip, IH | apply perm_swap].
Qed.

Lemma Obj_entries_perm {V : Type} (o : Obj.t V) : Permutation (Obj.entries o) o.
Proof.
  unfold Obj.entries, Obj.named_entries.
  induction o as [|[k v] o IH]; simpl; [apply Permutation_refl|].
  destruct (Obj.array_index k) as [n|]; simpl.
  - eapply Permutation_trans.
    + apply Permutation_app_tail, Permutation_map, insert_index_perm.
    + simpl. now apply perm_skip.
  - apply Permutation_sym, Permutation_cons_app, Permutation_sym, IH.
Qed.

Lemma Obj_entries_nodup {V : Type} (o : Obj.t V) :
  NoDup (map fst o) -> NoDup (map fst (Obj.entries o)).
Proof.
  intros Hnodup. eapply Permutation_NoDup; [|exact Hnodup].
  apply Permutation_map, Permutation_sym, Obj_entries_perm.
Qed.

Lemma Obj_entries_named {V : Type} (o : Obj.t V) :
  (forall k v, In (k, v) o -> Obj.array_index k = None) -> Obj.entries o = o.
Proof.
  intros Ho. unfold Obj.entries, Obj.named_entries.
  assert (Hindex : Obj.index_entries o = []).
  { destruct (Obj.index_entries o) as [|[n [k v]] xs] eqn:Hix; [reflexivity|]. exfalso.
    assert (Hin : In (n, (k, v)) (Obj.index_entries o)) by (rewrite Hix; now left).
    apply index_entries_in in Hin. destruct Hin as [Hin Hn]. cbn in Hn.
    rewrite (Ho k v Hin) in Hn. discriminate Hn. }
  rewrite Hindex. cbn [map app]. clear Hindex.
  induction o as [|[k v] o IH]; [reflexivity|].
  cbn [filter fst]. rewrite (Ho k v (or_introl eq_refl)).
  now rewrite (IH (fun k' v' H => Ho k' v' (or_intror H))).
Qed.

Lemma Obj_get_perm {V : Type} (o o' : Obj.t V) (k : string) :
  NoDup (map fst o) -> Permutation o o' -> Obj.get o' k = Obj.get o k.
Proof.
  intros Hnodup Hperm.
  assert (Hnodup' : NoDup (map fst o'))
    by (eapply Permutation_NoDup; [apply Permutation_map; exact Hperm | exact Hnodup]).
  destruct (Obj.get o k) as [v|] eqn:Hget.
  - apply Obj_get_unique; [exact Hnodup'|].
    eapply Permutation_in; [exact Hperm | now apply Obj_get_in].
  - destruct (Obj.get o' k) as [v'|] eqn:Hget'; [|reflexivity].
    apply Obj_get_in in Hget'.
    apply (Permutation_in _ (Permutation_sym Hperm)) in Hget'.
    apply (Obj_get_unique o k v' Hnodup) in Hget'. congruence.
Qed.

(** Copying the entries whose key passes a test. *)
Lemma Obj_copy_get {V : Type} (P : string -> bool) (l : Obj.t V) (acc : Obj.t V)
  (k : string) :
  NoDup (map fst l) ->
  Obj.get (fold_left (fun acc kv => if P (fst kv) then Obj.set acc (fst kv) (snd kv)
                                    else acc) l acc) k
  = if P k then match Obj.get l k with
                | Some v => Some v
                | None => Obj.get acc k
                end
    else Obj.get acc k.
Proof.
  revert acc. induction l as [|[k0 v0] l IH]; intros acc Hnodup; simpl.
  - now destruct (P k).
  - inversion Hnodup as [|? ? Hnot Hrest]. subst. rewrite IH by exact Hrest.
    destruct (String.eqb_spec k0 k) as [->|Hne].
    + rewrite (Obj_get_none l k Hnot).
      destruct (P k); [apply Obj_get_set_same | reflexivity].
    + assert (Hacc : Obj.get (if P k0 then Obj.set acc k0 v0 else acc) k = Obj.get acc k).
      { destruct (P k0); [|reflexivity]. apply Obj_get_set_other. congruence. }
      now rewrite Hacc.
Qed.

Lemma Obj_assign_get {V : Type} (target source : Obj.t V) (k : string) :
  NoDup (map fst source) ->
  Obj.get (Obj.assign target source) k
  = match Obj.get source k with
    | Some v => Some v
    | None => Obj.get target k
    end.
Proof.
  intros Hnodup. unfold Obj.assign.
  rewrite (Obj_copy_get (fun _ => true) (Obj.entries source) target k)
    by now apply Obj_entries_nodup.
  now rewrite (Obj_get_perm source (Obj.entries source) k Hnodup
                 (Permutation_sym (Obj_entries_perm source))).
Qed.

Lemma Obj_assign_in {V : Type} (target source : Obj.t V) (kv : string * V) :
  In kv (Obj.assign target source) -> In kv target \/ In kv source.
Proof.
  unfold Obj.assign. intros Hin.
  assert (H : In kv target \/ In kv (Obj.entries source)).
  { revert target Hin. induction (Obj.entries source) as [|[k v] l IH];
      intros target Hin; simpl in Hin; [now left|].
    destruct (IH _ Hin) as [H|H]; [|right; now right].
    destruct kv as [k' v']. apply Obj_set_in in H.
    destruct H as [[-> ->]|H]; [right; now left | now left]. }
  destruct H as [H|H]; [now left|right]. now apply (Obj_entries_in source kv).
Qed.

(** ** Handlers in the order their promises settle *)

Lemma insert_by_in {A : Type} (key : A -> nat) (x : A) (l : list A) (y : A) :
  In y (insert_by key x l) <-> y = x \/ In y l.
Proof.
  induction l as [|z l IH]; simpl.
  - intuition.
  - destruct (key x <=? key z)%nat; simpl; [intuition|].
    rewrite IH. intuition.
Qed.

Lemma sort_by_in {A : Type} (key : A -> nat) (l : list A) (y : A) :
  In y (sort_by key l) <-> In y l.
Proof.
  unfold sort_by. induction l as [|x l IH]; simpl; [reflexivity|].
  rewrite insert_by_in, IH. intuition.
Qed.

Lemma insert_by_filter_length {A : Type} (key : A -> nat) (f : A -> bool) (x : A)
  (l : list A) :
  List.length (filter f (insert_by key x l)) = List.length (filter f (x :: l)).
Proof.
  induction l as [|y l IH]; simpl; [reflexivity|].
  destruct (key x <=? key y)%nat; simpl; [reflexivity|].
  simpl in IH. destruct (f y); simpl; rewrite IH; destruct (f x); reflexivity.
Qed.

Lemma sort_by_filter_length {A : Type} (key : A -> nat) (f : A -> bool) (l : list A) :
  List.length (filter f (sort_by key l)) = List.length (filter f l).
Proof.
  unfold sort_by. induction l as [|x l IH]; simpl; [reflexivity|].
  rewrite insert_by_filter_length. simpl. destruct (f x); simpl; now rewrite IH.
Qed.

Lemma sort_by_filter_one {A : Type} (key : A -> nat) (f : A -> bool) (l : list A)
  (x : A) :
  filter f l = [x] -> filter f (sort_by key l) = [x].
Proof.
  intros Hone.
  pose proof (sort_by_filter_length key f l) as Hlen. rewrite Hone in Hlen.
  destruct (filter f (sort_by key l)) as [|y [|z ys]] eqn:Hsorted; try discriminate.
  assert (Hy : In y (filter f (sort_by key l))) by (rewrite Hsorted; now left).
  apply filter_In in Hy. destruct Hy as [Hy Hfy]. apply sort_by_in in Hy.
  assert (Hin : In y (filter f l)) by (apply filter_In; auto).
  rewrite Hone in Hin. destruct Hin as [->|[]]. reflexivity.
Qed.

(** ** Clearing the error map *)

Lemma clearValidate_all (T : Table) (st : State) :
  exists st',
    clearValidate T ArgFalsy ArgFalsy st = (Ok tt, st')
    /\ validErrorMaps st' = Obj.empty
    /\ lastCallTime st' = lastCallTime st
    /\ validRuleErr st' = validRuleErr st.
Proof.
  unfold clearValidate, bind, gets, modify, ret. simpl.
  destruct (validTip st) as [[|]|]; destruct (msgMode_single T);
    eexists; repeat split.
Qed.

Lemma clearValidate_single (T : Table) (rows : Arg Row)
  (fieldOrColumn : Arg FieldOrColumn) (st : State) :
  msgMode_single T = true ->
  validErrorMaps (snd (clearValidate T rows fieldOrColumn st)) = Obj.empty.
Proof.
  intros Hsingle. unfold clearValidate, bind, gets, modify, ret. simpl.
  rewrite Hsingle. destruct (validTip st) as [[|]|]; reflexivity.
Qed.

Lemma pickEntries_get (part : nat) (idList : list string)
  (validErrorMaps : ErrMaps) (k : string) :
  NoDup (map fst validErrorMaps) ->
  Obj.get (pickEntries part idList validErrorMaps) k
  = if indexOf_found idList (nth_error (split_on ":" k) part)
    then Obj.get validErrorMaps k
    else None.
Proof.
  intros Hnodup. unfold pickEntries.
  rewrite (Obj_copy_get
             (fun key => indexOf_found idList (nth_error (split_on ":" key) part))
             (Obj.entries validErrorMaps) Obj.empty k)
    by now apply Obj_entries_nodup.
  rewrite (Obj_get_perm validErrorMaps (Obj.entries validErrorMaps) k Hnodup
             (Permutation_sym (Obj_entries_perm validErrorMaps))).
  simpl. now destruct (Obj.get validErrorMaps k).
Qed.

Lemma column_ids (columns : list Column) (acc : list string) (st : State) :
  forEach (fun column acc => cid <- column_id column ;; ret (acc ++ [cid])%list)
    (map Some columns) acc st
  = (Ok (acc ++ map id columns)%list, st).
Proof.
  revert acc. induction columns as [|c columns IH]; intros acc; cbn [map].
  - simpl. now rewrite app_nil_r.
  - rewrite (forEach_cons_ok _ (Some c) _ acc st (acc ++ [id c])%list st) by reflexivity.
    rewrite IH. simpl. now rewrite <- app_assoc.
Qed.

Lemma delete_keys (T : Table) (row : Row) (columns : list Column) (acc : ErrMaps)
  (st : State) :
  exists acc',
    forEach (fun column acc' =>
               cid <- column_id column ;;
               match Obj.get acc' (getRowid T row ++ ":" ++ cid) with
               | Some _ => ret (Obj.delete acc' (getRowid T row ++ ":" ++ cid))
               | None => ret acc'
               end) (map Some columns) acc st = (Ok acc', st)
    /\ forall k,
         Obj.get acc' k
         = if existsb (String.eqb k) (map (validKey T row) columns) then None
           else Obj.get acc k.
Proof.
  revert acc. induction columns as [|c columns IH]; intros acc; cbn [map].
  - now exists acc.
  - set (key := getRowid T row ++ ":" ++ id c).
    destruct (IH (match Obj.get acc key with
                  | Some _ => Obj.delete acc key
                  | None => acc
                  end)) as (acc' & Hwalk & Hget).
    exists acc'. split.
    + rewrite <- Hwalk. apply forEach_cons_ok.
      unfold bind, column_id, ret. fold key. now destruct (Obj.get acc key).
    + intros k. rewrite Hget. cbn [existsb]. unfold validKey at 2. fold key.
      destruct (existsb (String.eqb k) (map (validKey T row) columns));
        [now rewrite orb_true_r|]. rewrite orb_false_r.
      destruct (String.eqb_spec k key) as [->|Hne].
      * destruct (Obj.get acc key) eqn:Hkey; [|exact Hkey].
        rewrite Obj_get_delete. now rewrite String.eqb_refl.
      * destruct (Obj.get acc key); [|reflexivity].
        rewrite Obj_get_delete. apply not_eq_sym in Hne.
        apply String.eqb_neq in Hne. now rewrite Hne.
Qed.

Lemma delete_rows (T : Table) (rows : list Row) (columns : list Column)
  (acc : ErrMaps) (st : State) :
  exists acc',
    forEach (fun row acc =>
               forEach (fun column acc' =>
                          cid <- column_id column ;;
                          match Obj.get acc' (getRowid T row ++ ":" ++ cid) with
                          | Some _ => ret (Obj.delete acc' (getRowid T row ++ ":" ++ cid))
                          | None => ret acc'
                          end) (map Some columns) acc) rows acc st = (Ok acc', st)
    /\ forall k,
         Obj.get acc' k
         = if existsb (String.eqb k)
                (flat_map (fun row => map (validKey T row) columns) rows)
           then None
           else Obj.get acc k.
Proof.
  revert acc. induction rows as [|row rows IH]; intros acc.
  - now exists acc.
  - destruct (delete_keys T row columns acc st) as (acc1 & Hrow & Hget1).
    destruct (IH acc1) as (acc' & Hrows & Hget).
    exists acc'. split.
    + rewrite <- Hrows. apply forEach_cons_ok. exact Hrow.
    + intros k. rewrite Hget, Hget1. cbn [flat_map]. rewrite existsb_app.
      destruct (existsb (String.eqb k) (map (validKey T row) columns));
        destruct (existsb _ (flat_map _ rows)); reflexivity.
Qed.

(** What [clearValidate] does in multi-message mode, for every error map
    and every selection of rows and columns that are found: with rows and
    columns the entries of the rows in the columns are removed; with rows
    only, or columns only, the entries of those rows, or columns, are the
    ones kept. *)
Lemma clearValidate_multi (T : Table) (rows : Arg Row) (fieldOrColumn : Arg FieldOrColumn)
  (columns : list Column) (st : State) (k : string) :
  msgMode_single T = false ->
  NoDup (map fst (validErrorMaps st)) ->
  map (handleFieldOrColumn T) (toList fieldOrColumn) = map Some columns ->
  Obj.get (validErrorMaps (snd (clearValidate T rows fieldOrColumn st))) k
  = match toList rows, columns with
    | _ :: _, _ :: _ =>
        if existsb (String.eqb k)
             (flat_map (fun row => map (validKey T row) columns) (toList rows))
        then None
        else Obj.get (validErrorMaps st) k
    | _ :: _, [] =>
        if indexOf_found (map (getRowid T) (toList rows))
             (nth_error (split_on ":" k) 0)
        then Obj.get (validErrorMaps st) k
        else None
    | [], _ :: _ =>
        if indexOf_found (map id columns) (nth_error (split_on ":" k) 1)
        then Obj.get (validErrorMaps st) k
        else None
    | [], [] => None
    end.
Proof.
  intros Hmulti Hnodup Hcols. unfold clearValidate. rewrite Hmulti, Hcols.
  unfold bind at 1, gets at 1. unfold bind at 1, gets at 1. unfold bind at 1.
  set (st1 := snd (match validTip st with
                   | Some true => modify (emit TipClose) ;;; modify (set_validTip (Some false))
                   | _ => ret tt
                   end st)).
  assert (H1 : match validTip st with
               | Some true => modify (emit TipClose) ;;; modify (set_validTip (Some false))
               | _ => ret tt
               end st = (Ok tt, st1))
    by (unfold st1; destruct (validTip st) as [[|]|]; reflexivity).
  rewrite H1. clear H1. rewrite snd_bind.
  assert (Hne : nonempty (map Some columns) = nonempty columns) by now destruct columns.
  rewrite Hne. clear Hne.
  destruct (toList rows) as [|row rowList]; destruct columns as [|c columns];
    cbn [nonempty andb].
  - reflexivity.
  - unfold bind at 1. rewrite (column_ids (c :: columns) [] st1).
    cbn [app ret modify snd validErrorMaps set_validErrorMaps].
    now rewrite (pickEntries_get 1 (map id (c :: columns)) (validErrorMaps st) k Hnodup).
  - cbn [ret modify snd validErrorMaps set_validErrorMaps].
    now rewrite (pickEntries_get 0 (map (getRowid T) (row :: rowList))
                   (validErrorMaps st) k Hnodup).
  - destruct (delete_rows T (row :: rowList) (c :: columns)
                (Obj.assign Obj.empty (validErrorMaps st)) st1) as (acc' & Hwalk & Hget).
    rewrite Hwalk. cbn [modify snd validErrorMaps set_validErrorMaps].
    rewrite Hget, (Obj_assign_get Obj.empty (validErrorMaps st) k Hnodup).
    destruct (existsb _ _); [reflexivity|].
    now destruct (Obj.get (validErrorMaps st) k).
Qed.

(** C1. [clearValidate] with rows only, on an error map with an entry for
    [row1] and one for [row2] in multi-message mode: the entry of the row
    given is the one that is kept, and the entry of the other row is the
    one that goes; with a column only, the entries of that column are
    kept, and those of other columns go.  With both, the entry of the
    row and column given is the one removed. *)
Theorem clearValidate_keeps_what_it_is_given :
  let T := Demo.multiTable in
  validErrorMaps (snd (clearValidate T (ArgOne Demo.row1) ArgFalsy (Demo.stateWith T)))
  = [("r1:col_1", Demo.nameEntry T Demo.row1)]
  /\ validErrorMaps (snd (clearValidate T ArgFalsy (ArgOne (OfField "age")) (Demo.stateWith T)))
     = []
  /\ validErrorMaps (snd (clearValidate T ArgFalsy (ArgOne (OfField "name")) (Demo.stateWith T)))
     = [("r1:col_1", Demo.nameEntry T Demo.row1); ("r2:col_1", Demo.nameEntry T Demo.row2)]
  /\ validErrorMaps (snd (clearValidate T (ArgOne Demo.row1) (ArgOne (OfField "name"))
                            (Demo.stateWith T)))
     = [("r2:col_1", Demo.nameEntry T Demo.row2)].
Proof. repeat split. Qed.

(** ** Field validation without a field *)

(** C10. [validateField] and [fullValidateField] with a field selector
    that is falsy or an empty array return [nextTick()]: no cell is
    validated, the state, and with it the error map, is left as it was,
    and the promise is fulfilled. *)
Theorem validateField_without_field (E : Engine) (T : Table) (rows : RowsArg)
  (fieldOrColumn : Arg FieldOrColumn) (st : State) :
  toList fieldOrColumn = [] ->
  validateField E T rows fieldOrColumn st = (Ok (Tick None), st)
  /\ fullValidateField E T rows fieldOrColumn st = (Ok (Tick None), st)
  /\ settle T (Tick None) st
     = (Ok {| settled := Resolved None; failures := Obj.empty |}, st).
Proof.
  intros Hnil. unfold validateField, fullValidateField. rewrite Hnil. simpl.
  repeat split.
Qed.

Lemma validateField_without_field_witness :
  let T := Demo.multiTable in
  let st := Demo.stateWith T in
  validateField Demo.engine T RowsTrue ArgFalsy st = (Ok (Tick None), st)
  /\ fullValidateField Demo.engine T RowsTrue (ArgMany []) st = (Ok (Tick None), st)
  /\ validErrorMaps (snd (run T (validateField Demo.engine T RowsTrue ArgFalsy) st))
     = validErrorMaps st.
Proof.
  intros T st. split; [|split].
  - apply (validateField_without_field Demo.engine T RowsTrue ArgFalsy st). reflexivity.
  - apply (validateField_without_field Demo.engine T RowsTrue (ArgMany []) st). reflexivity.
  - reflexivity.
Defined.

(** ** Custom validators that are not registered *)

Lemma callValidator_not_registered (T : Table) (name : string) (p : ValidParams) (st : State) :
  (validators T name = None
   \/ exists gvItem, validators T name = Some gvItem
        /\ tableCellValidatorMethod gvItem = None
        /\ cellValidatorMethod gvItem = None) ->
  callValidator T (VNamed name) p st
  = (Ok CVFalsy, emit (ErrLog "vxe.error.notValidators" [name]) st).
Proof.
  intros [Hnone | (gvItem & Hsome & Htable & Hcell)]; unfold callValidator.
  - now rewrite Hnone.
  - now rewrite Hsome, Htable, Hcell.
Qed.

(** C8. A rule whose validator is a name that the registry does not know,
    or knows without a cell-validator method, is passed over: the rule
    throws nothing, pushes nothing on [errorRules] or [syncValidList] and
    leaves [validRuleErr] alone; the error is logged; and the rules after
    it are validated as they would be without it. *)
Theorem unregistered_validator_is_passed_over (E : Engine) (T : Table)
  (validType : string) (row : Row) (column : Column) (rules : list ValidatorRule)
  (cellValue : Value) (pre post : list ValidatorRule) (rule : ValidatorRule)
  (name : string) (acc : list Rule * list Pending) (st : State) :
  validator rule = Some (VNamed name) ->
  name <> "" ->
  applies validType rule = true ->
  (validators T name = None
   \/ exists gvItem, validators T name = Some gvItem
        /\ tableCellValidatorMethod gvItem = None
        /\ cellValidatorMethod gvItem = None) ->
  validRule E T validType row column rules cellValue rule acc st
  = (Ok acc, emit (ErrLog "vxe.error.notValidators" [name]) st)
  /\ forEach (validRule E T validType row column rules cellValue)
       (pre ++ rule :: post) acc st
     = (acc1 <- forEach (validRule E T validType row column rules cellValue) pre acc ;;
        errLog "vxe.error.notValidators" [name] ;;;
        forEach (validRule E T validType row column rules cellValue) post acc1) st.
Proof.
  intros Hval Hname Happ Hreg.
  assert (Hstep : forall acc' st',
             validRule E T validType row column rules cellValue rule acc' st'
             = (Ok acc', emit (ErrLog "vxe.error.notValidators" [name]) st')).
  { intros acc' st'. unfold validRule, validator_given. rewrite Happ, Hval.
    apply String.eqb_neq in Hname. rewrite Hname.
    unfold bind. now rewrite callValidator_not_registered. }
  split; [apply Hstep|].
  rewrite forEach_app. unfold bind.
  destruct (forEach _ pre acc st) as [[acc1|e] st1]; [|reflexivity].
  simpl. unfold bind. rewrite Hstep. reflexivity.
Qed.

Lemma unregistered_validator_is_passed_over_witness :
  let T := Demo.multiTable in
  let rules := [Demo.requiredRule "first"; Demo.customRule (VNamed "unique") "taken";
                Demo.requiredRule "last"] in
  forEach (validRule Demo.engine T "all" Demo.row1 Demo.colName rules (VStr ""))
    rules ([], []) Demo.state0
  = (Ok ([NewRule (Demo.requiredRule "first"); NewRule (Demo.requiredRule "last")], []),
     set_validRuleErr true
       (emit (ErrLog "vxe.error.notValidators" ["unique"]) Demo.state0)).
Proof.
  intros T rules.
  destruct (unregistered_validator_is_passed_over Demo.engine T "all" Demo.row1
              Demo.colName rules (VStr "") [Demo.requiredRule "first"]
              [Demo.requiredRule "last"] (Demo.customRule (VNamed "unique") "taken")
              "unique" ([], []) Demo.state0) as [_ Hwalk].
  - reflexivity.
  - discriminate.
  - reflexivity.
  - left. reflexivity.
  - simpl app in Hwalk. fold rules in Hwalk. rewrite Hwalk. reflexivity.
Defined.

(** ** Settlement of a session *)

Lemma showValidTooltip_total (T : Table) (params : Params) (st : State) :
  exists st' mid,
    showValidTooltip T params st = (Ok tt, st')
    /\ validErrorMaps st'
       = (if msgMode_single T then
            Obj.set Obj.empty (validKey T (p_row params) (p_column params))
              (entryOf T (p_row params) (p_column params) (p_rule params))
          else
            Obj.assign (Obj.assign Obj.empty (validErrorMaps st))
              (Obj.set Obj.empty (validKey T (p_row params) (p_column params))
                 (entryOf T (p_row params) (p_column params) (p_rule params))))
    /\ lastCallTime st' = lastCallTime st
    /\ validRuleErr st' = validRuleErr st
    /\ effects st' = (effects st ++ mid)%list
    /\ (forall f a, ~ In (CallCb f a) mid).
Proof.
  unfold showValidTooltip, bind, gets, modify, ret, entryOf.
  destruct (msgMode_single T); destruct (validTip st) as [b|];
    try destruct (str_is (validOpts_message T) "tooltip"
                  || str_is (validOpts_message T) "default" && negb (height T)
                     && (tableData_length T <? 2)%nat);
    simpl; eexists; eexists; (split; [reflexivity|]);
    (split; [reflexivity|]); (split; [reflexivity|]); (split; [reflexivity|]);
    (split; [simpl; rewrite <- ?app_assoc; reflexivity|]);
    intros f a Hin; simpl in Hin; intuition discriminate.
Qed.

Lemma showValidTooltip_single (T : Table) (params : Params) (st : State) :
  msgMode_single T = true ->
  validErrorMaps (snd (showValidTooltip T params st))
  = [(validKey T (p_row params) (p_column params),
      entryOf T (p_row params) (p_column params) (p_rule params))].
Proof.
  intros Hsingle.
  destruct (showValidTooltip_total T params st) as (st' & mid & Hshow & Hmap & _).
  rewrite Hshow. simpl. now rewrite Hmap, Hsingle.
Qed.

(** What [settle] does to the state and how the promise ends. *)
Lemma settle_walking (T : Table) (s : Session) (st : State) :
  exists st' mid,
    settle T (Walking s) st
    = (Ok {| settled :=
               match firstErrParams T s, s_cb s with
               | Some _, None =>
                   if str_is (validToReject T) "obsolete"
                   then Rejected (fst (collected T s))
                   else Resolved (Some (fst (collected T s)))
               | _, _ => Resolved None
               end;
             failures := fst (collected T s) |}, st')
    /\ validErrorMaps st' = settledMaps T s (validErrorMaps st)
    /\ lastCallTime st' = lastCallTime st
    /\ effects st' = (effects st ++ mid ++ settledCall T s)%list
    /\ (forall f a, ~ In (CallCb f a) mid).
Proof.
  unfold settle, settledMaps, settledCall.
  set (flag := existsb _ _ || _).
  destruct (firstErrParams T s) as [first|].
  - unfold bind at 1.
    set (st1 := snd ((if flag then modify (set_validRuleErr true) else ret tt) st)).
    assert (H1 : (if flag then modify (set_validRuleErr true) else ret tt) st = (Ok tt, st1))
      by (unfold st1; destruct flag; reflexivity).
    assert (Hst1 : validErrorMaps st1 = validErrorMaps st
                   /\ lastCallTime st1 = lastCallTime st /\ effects st1 = effects st)
      by (unfold st1; destruct flag; simpl; auto).
    destruct Hst1 as (Hm1 & Ht1 & He1). rewrite H1. clear H1.
    unfold bind at 1.
    set (merged := if s_isFull s then handleErrMsgMode T (snd (collected T s))
                   else validErrorMaps st).
    set (st2 := set_validErrorMaps merged st1).
    assert (H2 : (if s_isFull s
                  then modify (set_validErrorMaps (handleErrMsgMode T (snd (collected T s))))
                  else ret tt) st1 = (Ok tt, st2)).
    { unfold st2, merged. destruct (s_isFull s); [reflexivity|].
      unfold ret. rewrite <- Hm1. now destruct st1. }
    rewrite H2. clear H2. unfold bind at 1.
    destruct (autoPos_false T) eqn:Hauto.
    + unfold ret at 1, finish, bind, modify, ret.
      destruct (s_cb s) as [f|]; [|destruct (str_is (validToReject T) "obsolete")];
        eexists; exists [];
        (split; [reflexivity|]); simpl; rewrite ?He1, ?app_nil_r; auto.
    + unfold bind at 1, modify at 1. unfold bind at 1, modify at 1.
      unfold handleValidError. rewrite Hauto. unfold bind at 1, modify at 1.
      match goal with |- context [showValidTooltip T ?p ?x] =>
        destruct (showValidTooltip_total T p x)
          as (st3 & mid & Hshow & Hm3 & Ht3 & _ & He3 & Hmid); rewrite Hshow end.
      simpl in Hm3, Ht3, He3.
      unfold finish, bind, modify, ret.
      assert (Hmid' : forall g a,
                 ~ In (CallCb g a)
                     (ScrollToRow (rest_row first) (rest_column first)
                      :: ScrollToView (getCellElement T (rest_row first) (rest_column first))
                      :: HandleEdit
                           {| p_rule := rest_rule first; p_row := rest_row first;
                              p_column := rest_column first;
                              p_cell := getCellElement T (rest_row first) (rest_column first) |}
                      :: mid)).
      { intros g a [Hin|[Hin|[Hin|Hin]]]; try discriminate. exact (Hmid g a Hin). }
      destruct (s_cb s) as [f|]; [|destruct (str_is (validToReject T) "obsolete")];
        eexists; eexists; (split; [reflexivity|]);
        cbn [validErrorMaps lastCallTime effects emit set_validErrorMaps];
        rewrite ?Hm3, ?Ht3, ?He3;
        cbn [validErrorMaps lastCallTime effects emit set_validErrorMaps];
        rewrite ?He1, ?Ht1;
        (split; [reflexivity|]); (split; [reflexivity|]);
        (split; [|exact Hmid']); rewrite <- ?app_assoc; cbn [app];
        rewrite ?app_nil_r; reflexivity.
  - unfold bind, callCb, modify, ret.
    destruct flag; destruct (s_cb s) as [f|]; eexists; exists [];
      (split; [reflexivity|]); simpl; rewrite ?app_nil_r; auto.
Qed.

Lemma catchCell_passing (T : Table) (c : ColVaild) (acc : ValidRest * ErrMaps) :
  failing c = false -> catchCell T c acc = acc.
Proof.
  unfold failing, catchCell.
  destruct (settledErrorRules (cv_promise c)); [reflexivity | discriminate].
Qed.

Lemma catchCell_lists (T : Table) (c : ColVaild) (acc : ValidRest * ErrMaps) :
  (forall k l, In (k, l) (fst acc) -> l <> []) ->
  forall k l, In (k, l) (fst (catchCell T c acc)) -> l <> [].
Proof.
  intros Hacc k l. unfold catchCell.
  destruct (settledErrorRules (cv_promise c)) as [|rule rules]; [apply Hacc|].
  simpl. intros Hin. apply Obj_set_in in Hin. destruct Hin as [[_ ->]|Hin].
  - destruct (Obj.get (fst acc) (cv_field c)) as [l0|]; [|discriminate].
    destruct l0; discriminate.
  - now apply (Hacc k).
Qed.

Lemma catchCell_grows (T : Table) (c : ColVaild) (acc : ValidRest * ErrMaps) :
  fst acc <> [] \/ failing c = true -> fst (catchCell T c acc) <> [].
Proof.
  unfold failing, catchCell.
  destruct (settledErrorRules (cv_promise c)) as [|rule rules]; simpl.
  - intros [H|H]; [exact H | discriminate].
  - intros _. apply Obj_set_not_empty.
Qed.

Lemma collect_passing (T : Table) (l : list ColVaild) (acc : ValidRest * ErrMaps) :
  filter failing l = [] ->
  fold_left (fun acc c => catchCell T c acc) l acc = acc.
Proof.
  revert acc. induction l as [|c l IH]; intros acc; simpl; [reflexivity|].
  destruct (failing c) eqn:Hc; [discriminate|].
  intros Hl. rewrite catchCell_passing by exact Hc. now apply IH.
Qed.

Lemma collect_lists (T : Table) (l : list ColVaild) (acc : ValidRest * ErrMaps) :
  (forall k rs, In (k, rs) (fst acc) -> rs <> []) ->
  forall k rs,
    In (k, rs) (fst (fold_left (fun acc c => catchCell T c acc) l acc)) -> rs <> [].
Proof.
  revert acc. induction l as [|c l IH]; intros acc Hacc; simpl; [exact Hacc|].
  apply IH. now apply catchCell_lists.
Qed.

Lemma collect_grows (T : Table) (l : list ColVaild) (acc : ValidRest * ErrMaps) :
  fst acc <> [] \/ (exists c, In c l /\ failing c = true) ->
  fst (fold_left (fun acc c => catchCell T c acc) l acc) <> [].
Proof.
  revert acc. induction l as [|c l IH]; intros acc; simpl.
  - intros [H|(c & [] & _)]. exact H.
  - intros [H|(c' & [<-|Hc'] & Hfail)]; apply IH.
    + left. apply catchCell_grows. now left.
    + left. apply catchCell_grows. now right.
    + right. now exists c'.
Qed.

Lemma collect_one (T : Table) (l : list ColVaild) (acc : ValidRest * ErrMaps)
  (c : ColVaild) :
  filter failing l = [c] ->
  fold_left (fun acc c => catchCell T c acc) l acc = catchCell T c acc.
Proof.
  revert acc. induction l as [|x l IH]; intros acc; simpl; [discriminate|].
  destruct (failing x) eqn:Hx.
  - intros H. inversion H. subst. now apply collect_passing.
  - intros H. rewrite catchCell_passing by exact Hx. now apply IH.
Qed.

Lemma collect_rests (T : Table) (Q : Rest -> Prop) (l : list ColVaild)
  (acc : ValidRest * ErrMaps) :
  (forall k rs rest, In (k, rs) (fst acc) -> In rest rs -> Q rest) ->
  (forall c rule rules, In c l -> settledErrorRules (cv_promise c) = rule :: rules ->
     Q (restOf T c rule (rule :: rules))) ->
  forall k rs rest,
    In (k, rs) (fst (fold_left (fun acc c => catchCell T c acc) l acc)) ->
    In rest rs -> Q rest.
Proof.
  revert acc. induction l as [|c l IH]; intros acc Hacc Hl; simpl; [exact Hacc|].
  apply IH; [|intros c' rule rules Hc'; apply Hl; now right].
  unfold catchCell.
  destruct (settledErrorRules (cv_promise c)) as [|rule rules] eqn:Hc; [exact Hacc|].
  simpl. intros k rs rest Hin Hrest. apply Obj_set_in in Hin.
  destruct Hin as [[-> ->]|Hin]; [|now apply (Hacc k rs)].
  destruct (Obj.get (fst acc) (cv_field c)) as [old|] eqn:Hget.
  - apply in_app_iff in Hrest. destruct Hrest as [Hrest|[<-|[]]].
    + apply Obj_get_in in Hget. now apply (Hacc _ _ _ Hget).
    + apply Hl; [now left | exact Hc].
  - destruct Hrest as [<-|[]]. apply Hl; [now left | exact Hc].
Qed.

Lemma collect_entries (T : Table) (Q : ErrEntry -> Prop) (l : list ColVaild)
  (acc : ValidRest * ErrMaps) :
  (forall k e, In (k, e) (snd acc) -> Q e) ->
  (forall c rule rules, In c l -> settledErrorRules (cv_promise c) = rule :: rules ->
     Q (entryOf T (cv_row c) (cv_column c) rule)) ->
  forall k e,
    In (k, e) (snd (fold_left (fun acc c => catchCell T c acc) l acc)) -> Q e.
Proof.
  revert acc. induction l as [|c l IH]; intros acc Hacc Hl; simpl; [exact Hacc|].
  apply IH; [|intros c' rule rules Hc'; apply Hl; now right].
  unfold catchCell.
  destruct (settledErrorRules (cv_promise c)) as [|rule rules] eqn:Hc; [exact Hacc|].
  simpl. intros k e Hin. apply Obj_set_in in Hin.
  destruct Hin as [[-> ->]|Hin]; [|now apply (Hacc k)].
  apply (Hl c rule rules); [now left | exact Hc].
Qed.

(** Every failing cell of a session has its failure in [validRest]. *)
Lemma collect_complete (T : Table) (l : list ColVaild) (acc : ValidRest * ErrMaps)
  (c : ColVaild) :
  In c l -> failing c = true ->
  exists rs rest,
    Obj.get (fst (fold_left (fun acc c => catchCell T c acc) l acc)) (cv_field c) = Some rs
    /\ In rest rs /\ rest_row rest = cv_row c /\ rest_column rest = cv_column c.
Proof.
  assert (Hkeep : forall l (acc : ValidRest * ErrMaps) k rest,
             (exists rs, Obj.get (fst acc) k = Some rs /\ In rest rs) ->
             exists rs,
               Obj.get (fst (fold_left (fun acc c => catchCell T c acc) l acc)) k = Some rs
               /\ In rest rs).
  { clear. intros l. induction l as [|c l IH]; intros acc k rest Hacc; simpl; [exact Hacc|].
    apply IH. unfold catchCell.
    destruct (settledErrorRules (cv_promise c)) as [|rule rules]; [exact Hacc|].
    simpl. destruct Hacc as (rs & Hget & Hin).
    destruct (String.eqb_spec k (cv_field c)) as [->|Hne].
    - rewrite Obj_get_set_same, Hget. eexists. split; [reflexivity|].
      apply in_app_iff. now left.
    - rewrite Obj_get_set_other by exact Hne. now exists rs. }
  revert acc. induction l as [|c' l IH]; intros acc [].
  - subst c'. intros Hfail. simpl.
    unfold failing in Hfail.
    destruct (settledErrorRules (cv_promise c)) as [|rule rules] eqn:Hrules; [discriminate|].
    destruct (Hkeep l (catchCell T c acc) (cv_field c) (restOf T c rule (rule :: rules)))
      as (rs & Hget & Hin).
    + unfold catchCell. rewrite Hrules. simpl. rewrite Obj_get_set_same.
      eexists. split; [reflexivity|].
      destruct (Obj.get (fst acc) (cv_field c)); [apply in_app_iff; right|]; now left.
    + exists rs, (restOf T c rule (rule :: rules)). auto.
  - intros Hfail. simpl. now apply IH.
Qed.

Lemma collected_both (T : Table) (s : Session) :
  fst (collected T s) <> Obj.empty -> snd (collected T s) <> Obj.empty.
Proof.
  unfold collected.
  assert (H : forall l (acc : ValidRest * ErrMaps),
             (fst acc <> [] -> snd acc <> []) ->
             fst (fold_left (fun acc c => catchCell T c acc) l acc) <> [] ->
             snd (fold_left (fun acc c => catchCell T c acc) l acc) <> []).
  { intros l. induction l as [|c l IH]; intros acc Hacc; simpl; [exact Hacc|].
    apply IH. unfold catchCell.
    destruct (settledErrorRules (cv_promise c)); [exact Hacc|].
    simpl. intros _. apply Obj_set_not_empty. }
  apply H. intros Hne. now contradiction Hne.
Qed.

Lemma settleOrder_in (s : Session) (c : ColVaild) :
  In c (settleOrder s) <-> In c (List.concat (s_rowValidErrs s)).
Proof. unfold settleOrder. apply sort_by_in. Qed.

Lemma settled_without_rejection (cp : CellPromise) :
  (forall p, In p (syncValidList cp) -> rejected p = false) ->
  settledErrorRules cp = errorRules cp.
Proof.
  intros Hnone. unfold settledErrorRules.
  assert (H : forall l, (forall p, In p l -> rejected p = false) ->
                        flat_map catchRule l = []).
  { intros l. induction l as [|p l IH]; intros Hl; simpl; [reflexivity|].
    rewrite IH by (intros q Hq; apply Hl; now right).
    specialize (Hl p (or_introl eq_refl)). unfold rejected, catchRule in *.
    destruct (settlement (pend_promise p)); [reflexivity | discriminate]. }
  rewrite H; [now rewrite app_nil_r|].
  intros p Hp. apply Hnone. now apply sort_by_in in Hp.
Qed.

Lemma failing_errorRules (c : ColVaild) :
  errorRules (cv_promise c) <> [] -> failing c = true.
Proof.
  unfold failing, settledErrorRules.
  destruct (errorRules (cv_promise c)); [congruence | reflexivity].
Qed.

(** A session has a first failure exactly when [validRest] is not
    empty. *)
Lemma firstErrParams_some (T : Table) (s : Session) :
  fst (collected T s) <> Obj.empty -> exists first, firstErrParams T s = Some first.
Proof.
  intros Hne. unfold firstErrParams. destruct (s_isFull s).
  - destruct (Obj.keys (fst (collected T s))) as [|k ks] eqn:Hkeys.
    + now apply Obj_keys_nil in Hkeys.
    + destruct (Obj_keys_in (fst (collected T s)) k) as [rs Hget].
      { rewrite Hkeys. now left. }
      rewrite Hget. destruct rs as [|rest rs]; [|now eexists].
      apply Obj_get_in in Hget. exfalso.
      revert Hget. unfold collected.
      intros Hin. now apply collect_lists in Hin; [|intros ? ? []].
  - destruct (filter failing (settleOrder s)) as [|c cs] eqn:Hfail.
    + exfalso. apply Hne. unfold collected. now rewrite collect_passing.
    + assert (Hc : In c (filter failing (settleOrder s))) by (rewrite Hfail; now left).
      apply filter_In in Hc. destruct Hc as [_ Hc]. unfold failing in Hc.
      destruct (settledErrorRules (cv_promise c)); [discriminate | now eexists].
Qed.

(** The first failure of a session is the failure of one of its cells. *)
Lemma firstErrParams_origin (T : Table) (s : Session) (first : Rest) :
  firstErrParams T s = Some first ->
  exists c rule rules,
    In c (List.concat (s_rowValidErrs s))
    /\ settledErrorRules (cv_promise c) = rule :: rules
    /\ first = restOf T c rule (rule :: rules).
Proof.
  unfold firstErrParams. destruct (s_isFull s).
  - destruct (Obj.keys (fst (collected T s))) as [|k ks]; [discriminate|].
    destruct (Obj.get (fst (collected T s)) k) as [[|rest rs]|] eqn:Hget; try discriminate.
    intros H. inversion H. subst rest. apply Obj_get_in in Hget.
    unfold collected in Hget.
    apply (collect_rests T
             (fun r => exists c rule rules,
                  In c (List.concat (s_rowValidErrs s))
                  /\ settledErrorRules (cv_promise c) = rule :: rules
                  /\ r = restOf T c rule (rule :: rules))
             (settleOrder s) (Obj.empty, Obj.empty)) with (k := k) (rs := first :: rs);
      [intros ? ? ? [] | | exact Hget | now left].
    intros c rule rules Hc Hrules. exists c, rule, rules.
    split; [now apply settleOrder_in | auto].
  - destruct (filter failing (settleOrder s)) as [|c cs] eqn:Hfail; [discriminate|].
    assert (Hc : In c (filter failing (settleOrder s))) by (rewrite Hfail; now left).
    apply filter_In in Hc. destruct Hc as [Hc _].
    destruct (settledErrorRules (cv_promise c)) as [|rule rules] eqn:Hrules; [discriminate|].
    intros H. inversion H. exists c, rule, rules.
    split; [now apply settleOrder_in | auto].
Qed.

(** The failure of a cell that an entry of the error map or the first
    failure stands for is in [validRest]. *)
Lemma cell_failure_recorded (T : Table) (s : Session) (c : ColVaild)
  (rule : Rule) (rules : list Rule) :
  In c (List.concat (s_rowValidErrs s)) ->
  settledErrorRules (cv_promise c) = rule :: rules ->
  exists f rs rest,
    Obj.get (fst (collected T s)) f = Some rs /\ In rest rs
    /\ rest_row rest = cv_row c /\ rest_column rest = cv_column c.
Proof.
  intros Hc Hrules. exists (cv_field c). unfold collected.
  apply collect_complete; [now apply settleOrder_in|].
  unfold failing. now rewrite Hrules.
Qed.

Lemma handleErrMsgMode_in (T : Table) (validErrMaps : ErrMaps) (kv : string * ErrEntry) :
  In kv (handleErrMsgMode T validErrMaps) -> In kv validErrMaps.
Proof.
  unfold handleErrMsgMode. destruct (msgMode_single T); [|auto].
  destruct (Obj.keys validErrMaps) as [|k ks]; [intros []|].
  destruct (Obj.get validErrMaps k) as [item|] eqn:Hget; [|intros []].
  simpl. intros [<-|[]]. now apply Obj_get_in.
Qed.

Lemma handleErrMsgMode_single (T : Table) (validErrMaps : ErrMaps) :
  msgMode_single T = true -> List.length (handleErrMsgMode T validErrMaps) <= 1.
Proof.
  intros Hsingle. unfold handleErrMsgMode. rewrite Hsingle.
  destruct (Obj.keys validErrMaps) as [|k ks]; [simpl; lia|].
  destruct (Obj.get validErrMaps k); simpl; lia.
Qed.

Lemma settledMaps_entries (T : Table) (Q : ErrEntry -> Prop) (s : Session)
  (current : ErrMaps) :
  (forall k e, In (k, e) current -> Q e) ->
  (forall c rule rules,
     In c (List.concat (s_rowValidErrs s)) ->
     settledErrorRules (cv_promise c) = rule :: rules ->
     Q (entryOf T (cv_row c) (cv_column c) rule)) ->
  forall k e, In (k, e) (settledMaps T s current) -> Q e.
Proof.
  intros Hcur Hcells.
  assert (Hcollected : forall k e, In (k, e) (handleErrMsgMode T (snd (collected T s))) -> Q e).
  { intros k e Hin. apply handleErrMsgMode_in in Hin. unfold collected in Hin.
    apply (collect_entries T Q (settleOrder s) (Obj.empty, Obj.empty)) with (k := k);
      [intros ? ? [] | | exact Hin].
    intros c rule rules Hc. apply Hcells. now apply settleOrder_in. }
  unfold settledMaps. destruct (firstErrParams T s) as [first|] eqn:Hfirst; [|exact Hcollected].
  destruct (firstErrParams_origin T s first Hfirst) as (c & rule & rules & Hc & Hrules & ->).
  simpl.
  assert (Hmerged : forall k e,
             In (k, e) (if s_isFull s then handleErrMsgMode T (snd (collected T s))
                        else current) -> Q e)
    by (destruct (s_isFull s); assumption).
  destruct (autoPos_false T); [exact Hmerged|].
  destruct (msgMode_single T).
  - intros k e [H|[]]. inversion H. now apply (Hcells c rule rules).
  - intros k e Hin. apply Obj_assign_in in Hin. destruct Hin as [Hin|[H|[]]].
    + apply Obj_assign_in in Hin. destruct Hin as [[]|Hin]. now apply (Hmerged k).
    + inversion H. now apply (Hcells c rule rules).
Qed.

Lemma settledMaps_single (T : Table) (s : Session) (current : ErrMaps) :
  msgMode_single T = true ->
  List.length current <= 1 ->
  List.length (settledMaps T s current) <= 1.
Proof.
  intros Hsingle Hcur. unfold settledMaps.
  destruct (firstErrParams T s); [|now apply handleErrMsgMode_single].
  simpl. rewrite Hsingle. destruct (autoPos_false T); [|simpl; lia].
  destruct (s_isFull s); [now apply handleErrMsgMode_single | exact Hcur].
Qed.

Lemma settle_single (T : Table) (p : Started) (st : State) :
  msgMode_single T = true ->
  List.length (validErrorMaps st) <= 1 ->
  List.length (validErrorMaps (snd (settle T p st))) <= 1.
Proof.
  intros Hsingle Hst. destruct p as [cb|s].
  - unfold settle, bind, callCb, modify, ret. now destruct cb.
  - destruct (settle_walking T s st) as (st' & mid & Hsettle & Hmap & _).
    rewrite Hsettle. simpl. rewrite Hmap. now apply settledMaps_single.
Qed.

(** C2, as stated, fails: a session that ends with a failure and was given
    no callback does not reject.  With the configuration as it comes, the
    promise is fulfilled with [validRest]. *)
Lemma validate_failure_without_callback_resolves :
  let T := Demo.multiTable in
  exists validRest st,
    run T (validate Demo.engine T (RowsArray [Demo.row1]) None) Demo.state0
    = (Ok {| settled := Resolved (Some validRest); failures := validRest |}, st)
    /\ validRest <> Obj.empty.
Proof.
  intros T. eexists. eexists. split; [reflexivity | discriminate].
Qed.

(** C2, amended. A session that ends with at least one failure settles,
    and by the callback: with a callback the promise is fulfilled with
    nothing and [validRest] goes to the callback, which is called once and
    last; without a callback the promise is fulfilled with [validRest],
    unless [validToReject] is ['obsolete'], in which case it is rejected
    with [validRest]. *)
Theorem session_failure_delivery (T : Table) (s : Session) (st : State) :
  fst (collected T s) <> Obj.empty ->
  exists st' mid,
    settle T (Walking s) st
    = (Ok {| settled :=
               match s_cb s with
               | Some _ => Resolved None
               | None =>
                   if str_is (validToReject T) "obsolete"
                   then Rejected (fst (collected T s))
                   else Resolved (Some (fst (collected T s)))
               end;
             failures := fst (collected T s) |}, st')
    /\ effects st'
       = (effects st ++ mid
          ++ match s_cb s with
             | Some f => [CallCb f (Some (fst (collected T s)))]
             | None => []
             end)%list
    /\ (forall f a, ~ In (CallCb f a) mid).
Proof.
  intros Hne. destruct (firstErrParams_some T s Hne) as [first Hfirst].
  destruct (settle_walking T s st) as (st' & mid & Hsettle & _ & _ & Heff & Hmid).
  exists st', mid. unfold settledCall in Heff. rewrite Hfirst in Hsettle, Heff.
  split; [|split; [|exact Hmid]].
  - rewrite Hsettle. now destruct (s_cb s).
  - rewrite Heff. now destruct (s_cb s).
Qed.

Lemma session_failure_delivery_witness :
  let T := Demo.table (Some Demo.nameRequired) None None (Some "obsolete") 5%Z in
  let cell := {| cv_row := Demo.row1; cv_column := Demo.colName; cv_field := "name";
                 cv_promise := {| errorRules := [NewRule (Demo.requiredRule "name is required")];
                                  syncValidList := [] |} |} in
  let session cb := {| s_isFull := false; s_cb := cb; s_rowValidErrs := [[cell]] |} in
  fst (settle T (Walking (session (Some "done"))) Demo.state0)
  = Ok {| settled := Resolved None;
          failures := fst (collected T (session (Some "done"))) |}
  /\ fst (settle T (Walking (session None)) Demo.state0)
     = Ok {| settled := Rejected (fst (collected T (session None)));
             failures := fst (collected T (session None)) |}.
Proof.
  intros T cell session. split.
  - destruct (session_failure_delivery T (session (Some "done")) Demo.state0)
      as (st' & mid & Hsettle & _); [discriminate|].
    now rewrite Hsettle.
  - destruct (session_failure_delivery T (session None) Demo.state0)
      as (st' & mid & Hsettle & _); [discriminate|].
    now rewrite Hsettle.
Defined.

(** ** The walk *)

Lemma sameStore_refl (st : State) : sameStore st st.
Proof. repeat split. Qed.

Lemma sameStore_trans (st1 st2 st3 : State) :
  sameStore st1 st2 -> sameStore st2 st3 -> sameStore st1 st3.
Proof. unfold sameStore. intuition congruence. Qed.

Lemma validRule_sameStore (E : Engine) (T : Table) (validType : string) (row : Row)
  (column : Column) (rules : list ValidatorRule) (cellValue : Value)
  (rule : ValidatorRule) (acc : list Rule * list Pending) (st : State)
  (r : Result (list Rule * list Pending)) (st' : State) :
  validRule E T validType row column rules cellValue rule acc st = (r, st') ->
  sameStore st st'.
Proof.
  unfold validRule. destruct (applies validType rule).
  - destruct (validator_given rule) as [v|].
    + unfold bind, callValidator, errLog, modify, ret.
      destruct v as [name|fn].
      * destruct (validators T name) as [gvItem|].
        -- destruct (tableCellValidatorMethod gvItem) as [m|];
             [|destruct (cellValidatorMethod gvItem) as [m|]];
             try (destruct (m _));
             intros H; inversion H; repeat split.
        -- intros H; inversion H; repeat split.
      * destruct (inlineValidators T fn _); intros H; inversion H; repeat split.
    + destruct (checkRuleStatus E rule cellValue) as [[|]|e];
        unfold bind, modify, ret, throw; intros H; inversion H; repeat split.
  - unfold ret. intros H. inversion H. repeat split.
Qed.

Lemma validCellRules_sameStore (E : Engine) (T : Table) (validType : string)
  (row : Row) (column : Column) (val : Value) (st : State)
  (r : Result CellPromise) (st' : State) :
  validCellRules E T validType row column val st = (r, st') -> sameStore st st'.
Proof.
  unfold validCellRules.
  destruct (fieldRules T (field column)) as [rules|];
    [destruct (field column) as [name|]|];
    try (unfold ret; intros H; inversion H; apply sameStore_refl).
  unfold bind.
  destruct (forEach _ rules ([], []) st) as [[acc|e] st1] eqn:Hwalk;
    unfold ret; intros H; inversion H; subst;
    (eapply (forEach_frame _ sameStore sameStore_refl sameStore_trans); [|exact Hwalk]);
    intros x a s0 r0 s0'; apply validRule_sameStore.
Qed.

Lemma validColumn_sameStore (E : Engine) (T : Table) (isFull : bool) (row : Row)
  (column : option Column) (colVailds : list ColVaild) (st : State)
  (r : Result (list ColVaild)) (st' : State) :
  validColumn E T isFull row column colVailds st = (r, st') -> sameStore st st'.
Proof.
  unfold validColumn. destruct column as [c|].
  - unfold bind, gets, ret.
    destruct ((isFull || negb (validRuleErr st)) && hasRules T (field c)).
    + destruct (validCellRules E T "all" row c VUndefined st) as [[p|e] st1] eqn:Hcell;
        intros H; inversion H; subst; eapply validCellRules_sameStore; exact Hcell.
    + intros H. inversion H. apply sameStore_refl.
  - unfold throw. intros H. inversion H. apply sameStore_refl.
Qed.

Lemma handleVaild_sameStore (E : Engine) (T : Table) (isFull : bool)
  (columns : list (option Column)) (row : Row) (acc : list (list ColVaild))
  (st : State) (r : Result (list (list ColVaild))) (st' : State) :
  handleVaild E T isFull columns row acc st = (r, st') -> sameStore st st'.
Proof.
  unfold handleVaild.
  destruct (removeRowMaps T (getRowid T row));
    [unfold ret; intros H; inversion H; apply sameStore_refl|].
  destruct (pendingRowMaps T (getRowid T row));
    [unfold ret; intros H; inversion H; apply sameStore_refl|].
  destruct (isAggregateRecord T row);
    [unfold ret; intros H; inversion H; apply sameStore_refl|].
  unfold bind, gets, ret.
  destruct (isFull || negb (validRuleErr st));
    [|intros H; inversion H; apply sameStore_refl].
  destruct (forEach _ columns [] st) as [[cv|e] st1] eqn:Hcols;
    intros H; inversion H; subst;
    (eapply (forEach_frame _ sameStore sameStore_refl sameStore_trans); [|exact Hcols]);
    intros x a s0 r0 s0'; apply validColumn_sameStore.
Qed.

(** A row the walk leaves out is not touched at all. *)
Lemma handleVaild_skipped (E : Engine) (T : Table) (isFull : bool)
  (columns : list (option Column)) (row : Row) (acc : list (list ColVaild))
  (st : State) :
  skipped T row = true -> handleVaild E T isFull columns row acc st = (Ok acc, st).
Proof.
  unfold skipped, handleVaild. intros Hskip.
  destruct (removeRowMaps T (getRowid T row)); [reflexivity|].
  destruct (pendingRowMaps T (getRowid T row)); [reflexivity|].
  destruct (isAggregateRecord T row); [reflexivity | discriminate].
Qed.

Lemma validColumn_cells (E : Engine) (T : Table) (isFull : bool) (row : Row)
  (columns : list (option Column)) (colVailds : list ColVaild) (st : State)
  (colVailds' : list ColVaild) (st' : State) :
  forEach (validColumn E T isFull row) columns colVailds st = (Ok colVailds', st') ->
  forall c, In c colVailds' -> In c colVailds \/ cv_row c = row.
Proof.
  intros Hwalk.
  apply (forEach_invariant (validColumn E T isFull row)
           (fun cv _ => forall c, In c cv -> In c colVailds \/ cv_row c = row)
           columns) with (acc := colVailds) (st := st) (st' := st');
    [|now left|exact Hwalk].
  intros column cv s cv' s' _ Hcv. unfold validColumn.
  destruct column as [col|]; [|discriminate].
  unfold bind, gets, ret.
  destruct ((isFull || negb (validRuleErr s)) && hasRules T (field col)).
  - destruct (validCellRules E T "all" row col VUndefined s) as [[p|e] s1]; [|discriminate].
    intros H c Hc. inversion H. subst. apply in_app_iff in Hc.
    destruct Hc as [Hc|[<-|[]]]; [now apply Hcv | now right].
  - intros H. inversion H. now subst.
Qed.

Lemma handleVaild_cells (E : Engine) (T : Table) (isFull : bool)
  (columns : list (option Column)) (rows : list Row) (acc : list (list ColVaild))
  (st : State) (acc' : list (list ColVaild)) (st' : State) :
  forEach (handleVaild E T isFull columns) rows acc st = (Ok acc', st') ->
  forall c, In c (List.concat acc') ->
    In c (List.concat acc) \/ (In (cv_row c) rows /\ skipped T (cv_row c) = false).
Proof.
  intros Hwalk.
  apply (forEach_invariant (handleVaild E T isFull columns)
           (fun a _ => forall c, In c (List.concat a) ->
              In c (List.concat acc) \/ (In (cv_row c) rows /\ skipped T (cv_row c) = false))
           rows) with (acc := acc) (st := st) (st' := st');
    [|now left|exact Hwalk].
  intros row a s a' s' Hrow Ha. unfold handleVaild, skipped in *.
  destruct (removeRowMaps T (getRowid T row)) eqn:Hrm;
    [unfold ret; intros H; inversion H; now subst|].
  destruct (pendingRowMaps T (getRowid T row)) eqn:Hpd;
    [unfold ret; intros H; inversion H; now subst|].
  destruct (isAggregateRecord T row) eqn:Hag;
    [unfold ret; intros H; inversion H; now subst|].
  unfold bind, gets, ret.
  destruct (isFull || negb (validRuleErr s)); [|intros H; inversion H; now subst].
  destruct (forEach _ columns [] s) as [[cv|e] s1] eqn:Hcols; [|discriminate].
  pose proof (validColumn_cells E T isFull row columns [] s cv s1 Hcols) as Hcv.
  intros H c Hc. inversion H. subst. rewrite concat_app in Hc. simpl in Hc.
  rewrite app_nil_r in Hc. apply in_app_iff in Hc. destruct Hc as [Hc|Hc]; [now apply Ha|].
  destruct (Hcv c Hc) as [[]|Hc'].
  right. subst row. rewrite Hrm, Hpd, Hag. auto.
Qed.

Lemma prepared_state (T : Table) (st : State) :
  validErrorMaps (prepared T st) = Obj.empty
  /\ lastCallTime (prepared T st) = Date_now T
  /\ validRuleErr (prepared T st) = false.
Proof.
  unfold prepared.
  destruct (clearValidate_all T (set_validRuleErr false (set_lastCallTime (Date_now T) st)))
    as (st' & Hclear & Hmap & Htime & Herr).
  rewrite Hclear. simpl. auto.
Qed.

Lemma beginValidate_walk (E : Engine) (T : Table) (rows : RowsArg)
  (cols : option (list (option Column))) (cb : option Callback) (isFull : bool)
  (st : State) :
  beginValidate E T rows cols cb isFull st
  = match editRules T with
    | Some _ =>
        match forEach (handleVaild E T isFull (columnsOf T cols))
                (visited T (validListOf T rows)) [] (prepared T st) with
        | (Ok rowValidErrs, st') =>
            (Ok (Walking {| s_isFull := isFull; s_cb := callbackOf rows cb;
                            s_rowValidErrs := rowValidErrs |}), st')
        | (Throw e, st') => (Throw e, st')
        end
    | None => (Ok (Tick (callbackOf rows cb)), set_validErrorMaps Obj.empty (prepared T st))
    end.
Proof.
  unfold beginValidate, prepared.
  unfold bind at 1, modify at 1. unfold bind at 1, modify at 1. unfold bind at 1.
  destruct (clearValidate_all T (set_validRuleErr false (set_lastCallTime (Date_now T) st)))
    as (st' & Hclear & _).
  rewrite Hclear. simpl. destruct (editRules T); reflexivity.
Qed.

Lemma beginValidate_clears (E : Engine) (T : Table) (rows : RowsArg)
  (cols : option (list (option Column))) (cb : option Callback) (isFull : bool)
  (st : State) :
  validErrorMaps (snd (beginValidate E T rows cols cb isFull st)) = Obj.empty.
Proof.
  rewrite beginValidate_walk. destruct (editRules T); [|reflexivity].
  destruct (forEach _ _ [] (prepared T st)) as [r st'] eqn:Hwalk.
  assert (Hsame : sameStore (prepared T st) st').
  { eapply (forEach_frame _ sameStore sameStore_refl sameStore_trans); [|exact Hwalk].
    intros x a s0 r0 s0'. apply handleVaild_sameStore. }
  destruct Hsame as (Hmap & _).
  destruct r; simpl; rewrite Hmap; apply prepared_state.
Qed.

Lemma beginValidate_time (E : Engine) (T : Table) (rows : RowsArg)
  (cols : option (list (option Column))) (cb : option Callback) (isFull : bool)
  (st : State) :
  lastCallTime (snd (beginValidate E T rows cols cb isFull st)) = Date_now T.
Proof.
  rewrite beginValidate_walk. destruct (editRules T); [|apply prepared_state].
  destruct (forEach _ _ [] (prepared T st)) as [r st'] eqn:Hwalk.
  assert (Hsame : sameStore (prepared T st) st').
  { eapply (forEach_frame _ sameStore sameStore_refl sameStore_trans); [|exact Hwalk].
    intros x a s0 r0 s0'. apply handleVaild_sameStore. }
  destruct Hsame as (_ & Htime & _).
  destruct r; simpl; rewrite Htime; apply prepared_state.
Qed.

(** ** Rows the walk leaves out *)

(** C7. A row that is marked removed or pending, or that is an aggregate
    record, is left out by the walk: [handleVaild] returns at once, with
    no cell validated and nothing changed; no cell of the session is a
    cell of that row; and when the session has settled, neither the error
    map nor [validRest] has an entry of that row. *)
Theorem skipped_rows_are_left_out (E : Engine) (T : Table) (row : Row) :
  skipped T row = true ->
  (forall isFull columns acc st,
      handleVaild E T isFull columns row acc st = (Ok acc, st))
  /\ (forall rows cols cb isFull st s st',
         beginValidate E T rows cols cb isFull st = (Ok (Walking s), st') ->
         forall c, In c (List.concat (s_rowValidErrs s)) -> cv_row c <> row)
  /\ (forall rows cols cb isFull st o st',
         run T (beginValidate E T rows cols cb isFull) st = (Ok o, st') ->
         (forall k e, In (k, e) (validErrorMaps st') -> err_row e <> row)
         /\ (forall k rs rest, In (k, rs) (failures o) -> In rest rs -> rest_row rest <> row)).
Proof.
  intros Hskip.
  assert (Hcells : forall rows cols cb isFull st s st',
             beginValidate E T rows cols cb isFull st = (Ok (Walking s), st') ->
             validErrorMaps st' = Obj.empty
             /\ forall c, In c (List.concat (s_rowValidErrs s)) -> cv_row c <> row).
  { intros rows cols cb isFull st s st'. rewrite beginValidate_walk.
    destruct (editRules T); [|discriminate].
    destruct (forEach _ _ [] (prepared T st)) as [[acc|e] st1] eqn:Hwalk; [|discriminate].
    intros H. inversion H. subst. simpl. split.
    - assert (Hsame : sameStore (prepared T st) st').
      { eapply (forEach_frame _ sameStore sameStore_refl sameStore_trans); [|exact Hwalk].
        intros x a s0 r0 s0'. apply handleVaild_sameStore. }
      destruct Hsame as (-> & _). apply prepared_state.
    - intros c Hc Hrow.
      destruct (handleVaild_cells E T isFull _ _ _ _ _ _ Hwalk c Hc) as [[]|[_ Hno]].
      rewrite Hrow in Hno. congruence. }
  split; [|split].
  - intros isFull columns acc st. now apply handleVaild_skipped.
  - intros rows cols cb isFull st s st' Hbegin. now apply (Hcells _ _ _ _ _ _ _ Hbegin).
  - intros rows cols cb isFull st o st'. unfold run, bind.
    destruct (beginValidate E T rows cols cb isFull st) as [[[cb'|s]|e] st1] eqn:Hbegin;
      [| |discriminate].
    + rewrite beginValidate_walk in Hbegin. destruct (editRules T); [|].
      * destruct (forEach _ _ [] (prepared T st)) as [[acc|e] st2]; discriminate Hbegin.
      * inversion Hbegin. subst. unfold settle, bind, callCb, modify, ret.
        destruct (callbackOf rows cb); intros H; inversion H; subst; simpl;
          (split; [intros k e [] | intros k rs rest []]).
    + destruct (Hcells _ _ _ _ _ _ _ Hbegin) as [Hempty Hrows].
      destruct (settle_walking T s st1) as (st2 & mid & Hsettle & Hmaps & _).
      rewrite Hsettle. intros H. inversion H. subst. simpl. split.
      * rewrite Hmaps, Hempty.
        apply (settledMaps_entries T (fun e => err_row e <> row) s Obj.empty);
          [intros ? ? [] |].
        intros c rule rules Hc _. simpl. now apply Hrows.
      * unfold collected.
        apply (collect_rests T (fun r => rest_row r <> row));
          [intros ? ? ? [] |].
        intros c rule rules Hc _. simpl. apply Hrows. now apply settleOrder_in.
Qed.

Lemma skipped_rows_are_left_out_witness :
  let T := Demo.withRemoved Demo.multiTable (String.eqb "r1") in
  handleVaild Demo.engine T true [Some Demo.colName] Demo.row1 [] Demo.state0
  = (Ok [], Demo.state0)
  /\ (forall k e,
         In (k, e) (validErrorMaps
                      (snd (run T (fullValidate Demo.engine T
                                     (RowsArray [Demo.row1; Demo.row2]) None)
                              Demo.state0))) ->
         err_row e <> Demo.row1)
  /\ Obj.keys (validErrorMaps
                 (snd (run T (fullValidate Demo.engine T
                                (RowsArray [Demo.row1; Demo.row2]) None)
                         Demo.state0)))
     = ["r2:col_1"].
Proof.
  intros T.
  destruct (skipped_rows_are_left_out Demo.engine T Demo.row1) as (Hskip & _ & Hrun);
    [reflexivity|].
  split; [apply Hskip | split; [|reflexivity]].
  destruct (run T (fullValidate Demo.engine T (RowsArray [Demo.row1; Demo.row2]) None)
              Demo.state0) as [[o|e] st'] eqn:Hres; [|discriminate Hres].
  apply (Hrun (RowsArray [Demo.row1; Demo.row2]) None None true Demo.state0 o st').
  exact Hres.
Defined.

(** ** Stopping at the first failure, and not stopping *)

Lemma validRule_flag (E : Engine) (T : Table) (validType : string) (row : Row)
  (column : Column) (rules : list ValidatorRule) (cellValue : Value)
  (rule : ValidatorRule) (acc : list Rule * list Pending) (st : State)
  (acc' : list Rule * list Pending) (st' : State) :
  validRule E T validType row column rules cellValue rule acc st = (Ok acc', st') ->
  (validRuleErr st = true -> fst acc <> []) ->
  validRuleErr st' = true -> fst acc' <> [].
Proof.
  unfold validRule. destruct (applies validType rule).
  - destruct (validator_given rule) as [v|].
    + unfold bind, callValidator, errLog, modify, ret.
      destruct v as [name|fn].
      * destruct (validators T name) as [gvItem|].
        -- destruct (tableCellValidatorMethod gvItem) as [m|];
             [|destruct (cellValidatorMethod gvItem) as [m|]];
             try (destruct (m _));
             intros H Hacc Hflag; inversion H; subst; simpl in *;
             first [ now apply Hacc
                   | intros Hnil; apply app_eq_nil in Hnil; destruct Hnil; discriminate ].
        -- intros H Hacc Hflag; inversion H; subst; simpl in *. now apply Hacc.
      * destruct (inlineValidators T fn _);
          intros H Hacc Hflag; inversion H; subst; simpl in *;
          first [ now apply Hacc
                | intros Hnil; apply app_eq_nil in Hnil; destruct Hnil; discriminate ].
    + destruct (checkRuleStatus E rule cellValue) as [[|]|e];
        unfold bind, modify, ret, throw; intros H Hacc Hflag; inversion H; subst.
      * now apply Hacc.
      * simpl. intros Hnil. now apply app_eq_nil in Hnil.
  - unfold ret. intros H Hacc Hflag. inversion H. subst. now apply Hacc.
Qed.

(** A cell that sets [validRuleErr] has pushed a rule on [errorRules]. *)
Lemma validCellRules_flag (E : Engine) (T : Table) (validType : string) (row : Row)
  (column : Column) (val : Value) (st : State) (p : CellPromise) (st' : State) :
  validCellRules E T validType row column val st = (Ok p, st') ->
  validRuleErr st = false -> validRuleErr st' = true -> errorRules p <> [].
Proof.
  unfold validCellRules. intros Hcell Hfalse Htrue.
  destruct (fieldRules T (field column)) as [rules|];
    [destruct (field column) as [name|]|];
    try (unfold ret in Hcell; inversion Hcell; subst; congruence).
  unfold bind in Hcell.
  destruct (forEach _ rules ([], []) st) as [[acc|e] st1] eqn:Hwalk; [|discriminate].
  unfold ret in Hcell. inversion Hcell. subst. simpl.
  refine (forEach_invariant _ (fun a s => validRuleErr s = true -> fst a <> [])
            rules _ _ _ _ _ _ Hwalk Htrue); [|congruence].
  intros rule a s a' s' _ Ha Hstep. now apply (validRule_flag _ _ _ _ _ _ _ _ _ _ _ _ Hstep).
Qed.

Lemma validRule_quiet (E : Engine) (T : Table) (validType : string) (row : Row)
  (column : Column) (rules : list ValidatorRule) (cellValue : Value)
  (rule : ValidatorRule) (acc : list Rule * list Pending) (st : State)
  (acc' : list Rule * list Pending) (st' : State) :
  validRule E T validType row column rules cellValue rule acc st = (Ok acc', st') ->
  validRuleErr st' = false ->
  validRuleErr st = false /\ fst acc' = fst acc.
Proof.
  unfold validRule. destruct (applies validType rule).
  - destruct (validator_given rule) as [v|].
    + unfold bind, callValidator, errLog, modify, ret.
      destruct v as [name|fn].
      * destruct (validators T name) as [gvItem|].
        -- destruct (tableCellValidatorMethod gvItem) as [m|];
             [|destruct (cellValidatorMethod gvItem) as [m|]];
             try (destruct (m _));
             intros H Hflag; inversion H; subst; simpl in *;
             first [ discriminate | now split ].
        -- intros H Hflag; inversion H; subst; simpl in *. now split.
      * destruct (inlineValidators T fn _);
          intros H Hflag; inversion H; subst; simpl in *;
          first [ discriminate | now split ].
    + destruct (checkRuleStatus E rule cellValue) as [[|]|e];
        unfold bind, modify, ret, throw; intros H Hflag; inversion H; subst; simpl in *;
        first [ discriminate | now split ].
  - unfold ret. intros H Hflag. inversion H. subst. now split.
Qed.

(** A cell that leaves [validRuleErr] unset has pushed no rule on
    [errorRules]. *)
Lemma validCellRules_quiet (E : Engine) (T : Table) (validType : string) (row : Row)
  (column : Column) (val : Value) (st : State) (p : CellPromise) (st' : State) :
  validCellRules E T validType row column val st = (Ok p, st') ->
  validRuleErr st' = false -> errorRules p = [].
Proof.
  unfold validCellRules. intros Hcell Hquiet.
  destruct (fieldRules T (field column)) as [rules|];
    [destruct (field column) as [name|]|];
    try (unfold ret in Hcell; inversion Hcell; reflexivity).
  unfold bind in Hcell.
  destruct (forEach _ rules ([], []) st) as [[acc|e] st1] eqn:Hwalk; [|discriminate].
  unfold ret in Hcell. inversion Hcell. subst. simpl. clear Hcell.
  assert (Hgen : forall rs (a : list Rule * list Pending) s,
             forEach (validRule E T validType row column rules
                        (if isUndefined val then XEUtils_get E row name else val))
               rs a s = (Ok acc, st') ->
             fst acc = fst a).
  { intros rs. induction rs as [|rule rs IH]; intros a s; simpl.
    - unfold ret. intros H. now inversion H.
    - unfold bind.
      destruct (validRule E T validType row column rules _ rule a s)
        as [[a1|e] s1] eqn:Hstep; [|discriminate].
      intros Hrest. rewrite (IH _ _ Hrest).
      assert (Hs1 : validRuleErr s1 = false).
      { destruct (validRuleErr s1) eqn:Hs1; [|reflexivity]. exfalso.
        assert (Hmono : validRuleErr st' = true).
        { refine (forEach_invariant _ (fun _ s => validRuleErr s = true) rs
                    _ _ _ _ _ Hs1 Hrest).
          intros r0 a0 s0 a0' s0' _ Hs0 Hr0.
          destruct (validRuleErr s0') eqn:Hs0'; [reflexivity|].
          apply (validRule_quiet _ _ _ _ _ _ _ _ _ _ _ _ Hr0) in Hs0'.
          destruct Hs0'. congruence. }
        congruence. }
      now apply (validRule_quiet _ _ _ _ _ _ _ _ _ _ _ _ Hstep). }
  exact (Hgen rules _ st Hwalk).
Qed.

(** Once [validRuleErr] is set, a walk that is not full does nothing. *)
Lemma walk_stopped (E : Engine) (T : Table) (columns : list (option Column))
  (rows : list Row) (acc : list (list ColVaild)) (st : State) :
  validRuleErr st = true ->
  forEach (handleVaild E T false columns) rows acc st = (Ok acc, st).
Proof.
  intros Hflag. induction rows as [|row rows IH]; simpl; [reflexivity|].
  unfold bind.
  assert (Hrow : handleVaild E T false columns row acc st = (Ok acc, st)).
  { unfold handleVaild.
    destruct (removeRowMaps T (getRowid T row)); [reflexivity|].
    destruct (pendingRowMaps T (getRowid T row)); [reflexivity|].
    destruct (isAggregateRecord T row); [reflexivity|].
    unfold bind, gets, ret. now rewrite Hflag. }
  now rewrite Hrow.
Qed.

(** A row that sets [validRuleErr] has a cell with a rule on
    [errorRules]. *)
Lemma tripping_row (E : Engine) (T : Table) (columns : list (option Column))
  (row : Row) (acc : list (list ColVaild)) (st : State)
  (colVailds : list ColVaild) (st' : State) :
  handleVaild E T false columns row acc st = (Ok (acc ++ [colVailds])%list, st') ->
  validRuleErr st' = true ->
  (exists c, In c colVailds /\ failing c = true)
  /\ forall c, In c colVailds -> cv_row c = row.
Proof.
  unfold handleVaild.
  assert (Hlen : acc <> (acc ++ [colVailds])%list).
  { intros Heq. apply (f_equal (@List.length _)) in Heq.
    rewrite length_app in Heq. simpl in Heq. lia. }
  destruct (removeRowMaps T (getRowid T row));
    [unfold ret; intros H; inversion H; congruence|].
  destruct (pendingRowMaps T (getRowid T row));
    [unfold ret; intros H; inversion H; congruence|].
  destruct (isAggregateRecord T row);
    [unfold ret; intros H; inversion H; congruence|].
  unfold bind, gets, ret.
  destruct (validRuleErr st) eqn:Hst; simpl; [intros H; inversion H; congruence|].
  destruct (forEach _ columns [] st) as [[cv|e] st1] eqn:Hcols; [|discriminate].
  intros H Hflag. inversion H. subst st1.
  assert (cv = colVailds) as ->.
  { match goal with Heq : (_ ++ _)%list = (_ ++ _)%list |- _ =>
      apply app_inv_head in Heq; now inversion Heq end. }
  split.
  - refine (forEach_invariant (validColumn E T false row)
              (fun a s => validRuleErr s = true -> exists c, In c a /\ failing c = true)
              columns _ _ _ _ _ _ Hcols Hflag); [|congruence].
    intros column a s a' s' _ Ha. unfold validColumn.
    destruct column as [col|]; [|discriminate].
    unfold bind, gets, ret. simpl.
    destruct (validRuleErr s) eqn:Hs; simpl.
    + intros Hstep _. inversion Hstep. subst. now apply Ha.
    + destruct (hasRules T (field col)); [|intros Hstep; inversion Hstep; congruence].
      destruct (validCellRules E T "all" row col VUndefined s) as [[p|e] s1] eqn:Hcell;
        [|discriminate].
      intros Hstep Hs'. inversion Hstep. subst.
      eexists. split; [apply in_app_iff; right; now left|].
      apply failing_errorRules. simpl.
      now apply (validCellRules_flag E T "all" row col VUndefined s p s').
  - intros c Hc.
    destruct (validColumn_cells E T false row columns [] st colVailds st' Hcols c Hc)
      as [[]|Hrow]. exact Hrow.
Qed.

(** A row that sets [validRuleErr] has exactly one cell with a rule on
    [errorRules]: the last one validated. *)
Lemma tripping_row_one (E : Engine) (T : Table) (columns : list (option Column))
  (row : Row) (acc : list (list ColVaild)) (st : State)
  (colVailds : list ColVaild) (st' : State) :
  handleVaild E T false columns row acc st = (Ok (acc ++ [colVailds])%list, st') ->
  validRuleErr st' = true ->
  exists bad,
    filter (fun c => nonempty (errorRules (cv_promise c))) colVailds = [bad].
Proof.
  unfold handleVaild.
  assert (Hlen : acc <> (acc ++ [colVailds])%list).
  { intros Heq. apply (f_equal (@List.length _)) in Heq.
    rewrite length_app in Heq. simpl in Heq. lia. }
  destruct (removeRowMaps T (getRowid T row));
    [unfold ret; intros H; inversion H; congruence|].
  destruct (pendingRowMaps T (getRowid T row));
    [unfold ret; intros H; inversion H; congruence|].
  destruct (isAggregateRecord T row);
    [unfold ret; intros H; inversion H; congruence|].
  unfold bind, gets, ret.
  destruct (validRuleErr st) eqn:Hst; simpl; [intros H; inversion H; congruence|].
  destruct (forEach _ columns [] st) as [[cv|e] st1] eqn:Hcols; [|discriminate].
  intros H Hflag. inversion H. subst st1.
  assert (cv = colVailds) as ->.
  { match goal with Heq : (_ ++ _)%list = (_ ++ _)%list |- _ =>
      apply app_inv_head in Heq; now inversion Heq end. }
  assert (Hinv : if validRuleErr st'
                 then exists bad,
                     filter (fun c => nonempty (errorRules (cv_promise c))) colVailds
                     = [bad]
                 else filter (fun c => nonempty (errorRules (cv_promise c))) colVailds
                      = []).
  { refine (forEach_invariant (validColumn E T false row)
              (fun a s =>
                 if validRuleErr s
                 then exists bad,
                     filter (fun c => nonempty (errorRules (cv_promise c))) a = [bad]
                 else filter (fun c => nonempty (errorRules (cv_promise c))) a = [])
              columns _ _ _ _ _ _ Hcols); [|now rewrite Hst].
    intros column a s a' s' _ Ha. unfold validColumn.
    destruct column as [col|]; [|discriminate].
    unfold bind, gets, ret. simpl.
    destruct (validRuleErr s) eqn:Hs; simpl.
    - intros Hstep. inversion Hstep. subst. now rewrite Hs.
    - destruct (hasRules T (field col));
        [|intros Hstep; inversion Hstep; subst; now rewrite Hs].
      destruct (validCellRules E T "all" row col VUndefined s) as [[p|e] s1] eqn:Hcell;
        [|discriminate].
      intros Hstep. inversion Hstep. subst. rewrite filter_app, Ha. simpl.
      destruct (validRuleErr s') eqn:Hs'.
      + pose proof (validCellRules_flag E T "all" row col VUndefined s p s' Hcell Hs Hs')
          as Herr.
        destruct (errorRules p); [congruence|]. simpl. now eexists.
      + now rewrite (validCellRules_quiet E T "all" row col VUndefined s p s' Hcell Hs'). }
  now rewrite Hflag in Hinv.
Qed.

(** The cells of a full walk: every row that is not left out, in every
    column whose field has rules. *)
Lemma full_row_cells (E : Engine) (T : Table) (row : Row)
  (columns : list (option Column)) (colVailds : list ColVaild) (st : State)
  (colVailds' : list ColVaild) (st' : State) :
  forEach (validColumn E T true row) columns colVailds st = (Ok colVailds', st') ->
  map (fun c => (cv_row c, cv_column c)) colVailds'
  = (map (fun c => (cv_row c, cv_column c)) colVailds
     ++ map (pair row) (eligible T columns))%list.
Proof.
  revert colVailds st. induction columns as [|column columns IH]; intros cv st; simpl.
  - unfold ret. intros H. inversion H. now rewrite app_nil_r.
  - unfold bind. destruct (validColumn E T true row column cv st) as [[cv1|e] st1] eqn:Hcol;
      [|discriminate].
    intros Hrest. rewrite (IH _ _ Hrest). unfold eligible. simpl.
    unfold validColumn in Hcol. destruct column as [col|]; [|discriminate].
    unfold bind, gets, ret in Hcol. simpl in Hcol.
    destruct (hasRules T (field col)).
    + destruct (validCellRules E T "all" row col VUndefined st) as [[p|e] s1]; [|discriminate].
      inversion Hcol. subst. rewrite map_app, map_app. simpl. now rewrite <- app_assoc.
    + inversion Hcol. now subst.
Qed.

Lemma full_walk_cells (E : Engine) (T : Table) (columns : list (option Column))
  (rows : list Row) (acc : list (list ColVaild)) (st : State)
  (acc' : list (list ColVaild)) (st' : State) :
  forEach (handleVaild E T true columns) rows acc st = (Ok acc', st') ->
  map (fun c => (cv_row c, cv_column c)) (List.concat acc')
  = (map (fun c => (cv_row c, cv_column c)) (List.concat acc)
     ++ flat_map (fun row => map (pair row) (eligible T columns))
          (filter (fun row => negb (skipped T row)) rows))%list.
Proof.
  revert acc st. induction rows as [|row rows IH]; intros acc st; simpl.
  - unfold ret. intros H. inversion H. now rewrite app_nil_r.
  - unfold bind.
    destruct (handleVaild E T true columns row acc st) as [[acc1|e] st1] eqn:Hrow;
      [|discriminate].
    intros Hrest. rewrite (IH _ _ Hrest). clear IH Hrest.
    unfold handleVaild, skipped in *.
    destruct (removeRowMaps T (getRowid T row));
      [unfold ret in Hrow; inversion Hrow; now subst|].
    destruct (pendingRowMaps T (getRowid T row));
      [unfold ret in Hrow; inversion Hrow; now subst|].
    destruct (isAggregateRecord T row);
      [unfold ret in Hrow; inversion Hrow; now subst|].
    unfold bind, gets, ret in Hrow. simpl in Hrow.
    destruct (forEach _ columns [] st) as [[cv|e] s1] eqn:Hcols; [|discriminate].
    inversion Hrow. subst. simpl.
    rewrite concat_app, map_app. simpl. rewrite app_nil_r.
    rewrite (full_row_cells E T row columns [] st cv st1 Hcols). simpl.
    now rewrite <- app_assoc.
Qed.

(** A validation that is not full, with no failure before the row that
    sets [validRuleErr] and no check of that row rejected later, has one
    failure in [validRest]. *)
Lemma quick_single_failure (T : Table) (cb : option Callback)
  (rowValidErrs : list (list ColVaild)) (colVailds : list ColVaild) (bad : ColVaild) :
  (forall c, In c (List.concat rowValidErrs) -> failing c = false) ->
  filter (fun c => nonempty (errorRules (cv_promise c))) colVailds = [bad] ->
  (forall c p, In c colVailds -> In p (syncValidList (cv_promise c)) ->
               rejected p = false) ->
  collected T {| s_isFull := false; s_cb := cb;
                 s_rowValidErrs := (rowValidErrs ++ [colVailds])%list |}
  = catchCell T bad (Obj.empty, Obj.empty).
Proof.
  intros Hclean Hone Hnone. unfold collected. apply collect_one.
  unfold settleOrder. apply sort_by_filter_one. simpl.
  rewrite concat_app, filter_app. simpl. rewrite app_nil_r.
  assert (Hpre : filter failing (List.concat rowValidErrs) = []).
  { induction (List.concat rowValidErrs) as [|c l IH]; [reflexivity|]. simpl.
    rewrite (Hclean c (or_introl eq_refl)). apply IH.
    intros c' Hc'. apply Hclean. now right. }
  rewrite Hpre. simpl. rewrite <- Hone. apply filter_ext_in.
  intros c Hc. unfold failing. rewrite settled_without_rejection; [reflexivity|].
  intros p. now apply Hnone.
Qed.

(** The walk never unsets [validRuleErr]. *)
Lemma forEach_unset {A B : Type} (f : A -> B -> M B) :
  (forall x a s a' s',
      f x a s = (Ok a', s') -> validRuleErr s' = false -> validRuleErr s = false) ->
  forall l a s a' s',
    forEach f l a s = (Ok a', s') -> validRuleErr s' = false -> validRuleErr s = false.
Proof.
  intros Hf l. induction l as [|x l IH]; intros a s a' s'; cbn [forEach].
  - unfold ret. intros H. inversion H. now subst.
  - unfold bind. destruct (f x a s) as [[a1|e] s1] eqn:Hstep; [|discriminate].
    intros Hrest Hquiet. apply (Hf _ _ _ _ _ Hstep). now apply (IH _ _ _ _ Hrest).
Qed.

Lemma validCellRules_unset (E : Engine) (T : Table) (validType : string) (row : Row)
  (column : Column) (val : Value) (st : State) (p : CellPromise) (st' : State) :
  validCellRules E T validType row column val st = (Ok p, st') ->
  validRuleErr st' = false -> validRuleErr st = false.
Proof.
  unfold validCellRules. intros Hcell Hquiet.
  destruct (fieldRules T (field column)) as [rules|];
    [destruct (field column) as [name|]|];
    try (unfold ret in Hcell; inversion Hcell; now subst).
  unfold bind in Hcell.
  destruct (forEach _ rules ([], []) st) as [[acc|e] st1] eqn:Hwalk; [|discriminate].
  unfold ret in Hcell. inversion Hcell. subst.
  refine (forEach_unset _ _ rules _ _ _ _ Hwalk Hquiet).
  intros rule a s a' s' Hstep Hs'.
  now destruct (validRule_quiet _ _ _ _ _ _ _ _ _ _ _ _ Hstep Hs').
Qed.

Lemma validColumn_unset (E : Engine) (T : Table) (row : Row) (column : option Column)
  (colVailds : list ColVaild) (st : State) (colVailds' : list ColVaild) (st' : State) :
  validColumn E T false row column colVailds st = (Ok colVailds', st') ->
  validRuleErr st' = false ->
  validRuleErr st = false
  /\ forall c, In c colVailds' -> In c colVailds \/ errorRules (cv_promise c) = [].
Proof.
  unfold validColumn. destruct column as [col|]; [|discriminate].
  unfold bind, gets, ret. cbn [orb].
  destruct (negb (validRuleErr st) && hasRules T (field col)) eqn:Hgo.
  - destruct (validCellRules E T "all" row col VUndefined st) as [[p|e] s1] eqn:Hcell;
      [|discriminate].
    intros H Hquiet. inversion H. subst. split.
    + now apply (validCellRules_unset E T "all" row col VUndefined st p st').
    + intros c Hc. apply in_app_iff in Hc. destruct Hc as [Hc|[<-|[]]]; [now left|].
      right. cbn [cv_promise].
      now apply (validCellRules_quiet E T "all" row col VUndefined st p st').
  - intros H Hquiet. inversion H. subst. split; [exact Hquiet | now left].
Qed.

Lemma quiet_columns (E : Engine) (T : Table) (row : Row) (columns : list (option Column))
  (colVailds : list ColVaild) (st : State) (colVailds' : list ColVaild) (st' : State) :
  forEach (validColumn E T false row) columns colVailds st = (Ok colVailds', st') ->
  validRuleErr st' = false ->
  validRuleErr st = false
  /\ forall c, In c colVailds' -> In c colVailds \/ errorRules (cv_promise c) = [].
Proof.
  revert colVailds st. induction columns as [|column columns IH]; intros cv st;
    cbn [forEach].
  - unfold ret. intros H Hquiet. inversion H. subst. split; [exact Hquiet | now left].
  - unfold bind.
    destruct (validColumn E T false row column cv st) as [[cv1|e] s1] eqn:Hstep;
      [|discriminate].
    intros Hrest Hquiet. destruct (IH _ _ Hrest Hquiet) as [Hs1 Hcells].
    destruct (validColumn_unset E T row column cv st cv1 s1 Hstep Hs1) as [Hst Hnew].
    split; [exact Hst|]. intros c Hc.
    destruct (Hcells c Hc) as [Hin|Hnone]; [now apply Hnew | now right].
Qed.

(** A walk that leaves [validRuleErr] unset has found no rule that fails
    at once: the cells it validated can fail only by a check that is
    rejected later. *)
Lemma quiet_rows (E : Engine) (T : Table) (columns : list (option Column))
  (rows : list Row) (acc : list (list ColVaild)) (st : State)
  (acc' : list (list ColVaild)) (st' : State) :
  forEach (handleVaild E T false columns) rows acc st = (Ok acc', st') ->
  validRuleErr st' = false ->
  forall c, In c (List.concat acc') ->
    In c (List.concat acc) \/ errorRules (cv_promise c) = [].
Proof.
  revert acc st. induction rows as [|row rows IH]; intros acc st; cbn [forEach].
  - unfold ret. intros H Hquiet. inversion H. subst. now left.
  - unfold bind.
    destruct (handleVaild E T false columns row acc st) as [[acc1|e] s1] eqn:Hstep;
      [|discriminate].
    intros Hrest Hquiet c Hc.
    destruct (IH _ _ Hrest Hquiet c Hc) as [Hin|Hnone]; [|now right].
    assert (Hs1 : validRuleErr s1 = false).
    { refine (forEach_unset _ _ rows _ _ _ _ Hrest Hquiet).
      clear. intros row a s a' s'. unfold handleVaild.
      destruct (removeRowMaps T (getRowid T row));
        [unfold ret; intros H; inversion H; now subst|].
      destruct (pendingRowMaps T (getRowid T row));
        [unfold ret; intros H; inversion H; now subst|].
      destruct (isAggregateRecord T row);
        [unfold ret; intros H; inversion H; now subst|].
      unfold bind, gets, ret. cbn [orb].
      destruct (negb (validRuleErr s)); [|intros H; inversion H; now subst].
      destruct (forEach (validColumn E T false row) columns [] s) as [[cv|e] s1] eqn:Hcols;
        [|discriminate].
      intros H Hquiet. inversion H. subst.
      now destruct (quiet_columns E T row columns [] s cv s' Hcols Hquiet). }
    clear IH Hrest Hc. unfold handleVaild in Hstep.
    destruct (removeRowMaps T (getRowid T row));
      [unfold ret in Hstep; inversion Hstep; subst; now left|].
    destruct (pendingRowMaps T (getRowid T row));
      [unfold ret in Hstep; inversion Hstep; subst; now left|].
    destruct (isAggregateRecord T row);
      [unfold ret in Hstep; inversion Hstep; subst; now left|].
    unfold bind, gets, ret in Hstep. cbn [orb] in Hstep.
    destruct (negb (validRuleErr st)); [|inversion Hstep; subst; now left].
    destruct (forEach (validColumn E T false row) columns [] st) as [[cv|e] s2] eqn:Hcols;
      [|discriminate].
    inversion Hstep. subst. rewrite concat_app in Hin. cbn [List.concat] in Hin.
    rewrite app_nil_r in Hin. apply in_app_iff in Hin.
    destruct Hin as [Hin|Hin]; [now left|].
    destruct (quiet_columns E T row columns [] st cv s1 Hcols Hs1) as [_ Hcells].
    destruct (Hcells c Hin) as [[]|Hnone]. now right.
Qed.

(** A row the walk adds cells for was reached with [validRuleErr]
    unset. *)
Lemma handleVaild_reached (E : Engine) (T : Table) (columns : list (option Column))
  (row : Row) (acc : list (list ColVaild)) (st : State)
  (colVailds : list ColVaild) (st' : State) :
  handleVaild E T false columns row acc st = (Ok (acc ++ [colVailds])%list, st') ->
  validRuleErr st = false.
Proof.
  unfold handleVaild.
  assert (Hlen : acc <> (acc ++ [colVailds])%list).
  { intros Heq. apply (f_equal (@List.length _)) in Heq.
    rewrite length_app in Heq. simpl in Heq. lia. }
  destruct (removeRowMaps T (getRowid T row));
    [unfold ret; intros H; inversion H; congruence|].
  destruct (pendingRowMaps T (getRowid T row));
    [unfold ret; intros H; inversion H; congruence|].
  destruct (isAggregateRecord T row);
    [unfold ret; intros H; inversion H; congruence|].
  unfold bind, gets, ret.
  destruct (validRuleErr st); [|reflexivity].
  simpl. intros H. inversion H. congruence.
Qed.

(** The walk visits every row of the list it is given: [eachTree] hands
    a row over before the rows of its children. *)
Lemma visited_incl (T : Table) (validList : list Row) :
  incl validList (visited T validList).
Proof.
  assert (Htree : forall children, incl validList (eachTree validList children)).
  { intros children row Hrow. unfold eachTree. apply in_flat_map. exists row.
    split; [exact Hrow|]. destruct row; now left. }
  unfold visited. destruct (isRowGroupStatus T); [apply Htree|].
  destruct (treeConfig T); [apply Htree | apply incl_refl].
Qed.

(** The walk of a validation that is not full, up to and after the row
    that sets [validRuleErr], and the full walk of the same rows. *)
Lemma walk_stops_at_first_failing_row (E : Engine) (T : Table)
  (columns : list (option Column)) (pre post : list Row) (row : Row)
  (cb : option Callback) (st st0 st1 : State)
  (rowValidErrs : list (list ColVaild)) (colVailds : list ColVaild) :
  forEach (handleVaild E T false columns) pre [] st = (Ok rowValidErrs, st0) ->
  handleVaild E T false columns row rowValidErrs st0
  = (Ok (rowValidErrs ++ [colVailds])%list, st1) ->
  validRuleErr st1 = true ->
  let quick := {| s_isFull := false; s_cb := cb;
                  s_rowValidErrs := (rowValidErrs ++ [colVailds])%list |} in
  forEach (handleVaild E T false columns) (pre ++ row :: post) [] st
  = (Ok (rowValidErrs ++ [colVailds])%list, st1)
  /\ (forall c, In c (List.concat rowValidErrs) ->
                In (cv_row c) pre /\ errorRules (cv_promise c) = [])
  /\ (forall c, In c colVailds -> cv_row c = row)
  /\ fst (collected T quick) <> Obj.empty
  /\ (forall k rs rest,
         In (k, rs) (fst (collected T quick)) -> In rest rs ->
         rest_row rest = row \/ In (rest_row rest) pre)
  /\ ((forall c, In c (List.concat rowValidErrs) -> failing c = false) ->
      (forall k rs rest,
          In (k, rs) (fst (collected T quick)) -> In rest rs -> rest_row rest = row)
      /\ ((forall c p, In c colVailds -> In p (syncValidList (cv_promise c)) ->
                       rejected p = false) ->
          exists bad rule rules,
            In bad colVailds
            /\ settledErrorRules (cv_promise bad) = rule :: rules
            /\ fst (collected T quick)
               = [(cv_field bad, [restOf T bad rule (rule :: rules)])]))
  /\ (forall rowsF stF,
         forEach (handleVaild E T true columns) (pre ++ row :: post) [] st
         = (Ok rowsF, stF) ->
         let full := {| s_isFull := true; s_cb := cb; s_rowValidErrs := rowsF |} in
         map (fun c => (cv_row c, cv_column c)) (List.concat rowsF)
         = flat_map (fun r => map (pair r) (eligible T columns))
             (filter (fun r => negb (skipped T r)) (pre ++ row :: post))
         /\ forall c, In c (List.concat rowsF) -> failing c = true ->
              exists rs rest,
                Obj.get (fst (collected T full)) (cv_field c) = Some rs
                /\ In rest rs /\ rest_row rest = cv_row c
                /\ rest_column rest = cv_column c).
Proof.
  intros Hpre Hrow Hflag quick.
  destruct (tripping_row E T columns row rowValidErrs st0 colVailds st1 Hrow Hflag)
    as [(bad & Hbad & Hfails) Hrows].
  pose proof (handleVaild_reached E T columns row rowValidErrs st0 colVailds st1 Hrow)
    as Hst0.
  assert (Hearlier : forall c, In c (List.concat rowValidErrs) ->
                               In (cv_row c) pre /\ errorRules (cv_promise c) = []).
  { intros c Hc. split.
    - destruct (handleVaild_cells E T false columns pre [] st rowValidErrs st0 Hpre c Hc)
        as [[]|[Hin _]]. exact Hin.
    - destruct (quiet_rows E T columns pre [] st rowValidErrs st0 Hpre Hst0 c Hc)
        as [[]|Hnone]. exact Hnone. }
  split; [|split; [exact Hearlier|split; [exact Hrows|split; [|split; [|split]]]]].
  - rewrite forEach_app. unfold bind. rewrite Hpre. simpl. unfold bind. rewrite Hrow.
    now apply walk_stopped.
  - unfold collected. apply collect_grows. right. exists bad. split; [|exact Hfails].
    apply settleOrder_in. simpl. rewrite concat_app. apply in_app_iff. right.
    simpl. rewrite app_nil_r. exact Hbad.
  - unfold collected.
    apply (collect_rests T (fun r => rest_row r = row \/ In (rest_row r) pre));
      [intros ? ? ? []|].
    intros c rule rules Hc Hrules. simpl.
    apply settleOrder_in in Hc. simpl in Hc. rewrite concat_app in Hc.
    apply in_app_iff in Hc. destruct Hc as [Hc|Hc].
    + right. now apply Hearlier.
    + left. simpl in Hc. rewrite app_nil_r in Hc. now apply Hrows.
  - intros Hclean. split.
    + unfold collected. apply (collect_rests T (fun r => rest_row r = row));
        [intros ? ? ? []|].
      intros c rule rules Hc Hrules. simpl.
      apply settleOrder_in in Hc. simpl in Hc. rewrite concat_app in Hc.
      apply in_app_iff in Hc. destruct Hc as [Hc|Hc].
      * apply Hclean in Hc. unfold failing in Hc. rewrite Hrules in Hc. discriminate.
      * simpl in Hc. rewrite app_nil_r in Hc. now apply Hrows.
    + intros Hnone.
      destruct (tripping_row_one E T columns row rowValidErrs st0 colVailds st1 Hrow Hflag)
        as [one Hone].
      assert (Hin : In one (filter (fun c => nonempty (errorRules (cv_promise c))) colVailds))
        by (rewrite Hone; now left).
      apply filter_In in Hin. destruct Hin as [Hin Herr].
      assert (Hsettled : settledErrorRules (cv_promise one) = errorRules (cv_promise one))
        by (apply settled_without_rejection; intros p; now apply Hnone).
      destruct (errorRules (cv_promise one)) as [|rule rules] eqn:Hrules; [discriminate|].
      exists one, rule, rules. split; [exact Hin|]. split; [exact Hsettled|].
      unfold quick.
      rewrite (quick_single_failure T cb rowValidErrs colVailds one Hclean Hone Hnone).
      unfold catchCell. rewrite Hsettled. reflexivity.
  - intros rowsF stF Hfull full. split.
    + now rewrite (full_walk_cells E T columns _ [] st rowsF stF Hfull).
    + intros c Hc Hfail. unfold collected.
      apply collect_complete; [|exact Hfail]. now apply settleOrder_in.
Qed.

(** C3, as stated, fails.  A row can fail without setting [validRuleErr]
    while the rows are walked: [row1] fails by the check of [name], which
    its validator leaves pending and which is rejected later.  A
    validation that is not full then goes on to [row4], whose cells are
    validated and whose [age] fails at once, and stops there, before
    [row2].  Once the pending check is rejected, [validRest] has the
    failures of two rows, not only that of the first failing row. *)
Lemma quick_validation_reports_two_rows :
  let T := Demo.table (Some Demo.mixedRules) None (Some false) None 5%Z in
  let rows := RowsArray [Demo.row1; Demo.row4; Demo.row2] in
  exists s st1 o st2,
    validate Demo.engine T rows None Demo.state0 = (Ok (Walking s), st1)
    /\ map (fun c => (cv_row c, cv_field c)) (List.concat (s_rowValidErrs s))
       = [(Demo.row1, "name"); (Demo.row1, "age"); (Demo.row4, "name"); (Demo.row4, "age")]
    /\ map (fun c => (cv_row c, cv_field c)) (filter failing (List.concat (s_rowValidErrs s)))
       = [(Demo.row1, "name"); (Demo.row4, "age")]
    /\ settle T (Walking s) st1 = (Ok o, st2)
    /\ map (fun kv => (fst kv, map rest_row (snd kv))) (failures o)
       = [("age", [Demo.row4]); ("name", [Demo.row1])].
Proof.
  intros T rows. do 4 eexists.
  split; [vm_compute; reflexivity|].
  split; [vm_compute; reflexivity|].
  split; [vm_compute; reflexivity|].
  split; vm_compute; reflexivity.
Qed.

(** C3, amended. A validation that is not full stops at the row that
    sets [validRuleErr] while the rows are walked, that is at the first
    row with a rule that fails at once.  Let the rows the walk visits,
    which include every row of the list to validate, be [pre], then
    [row], then [post], with [row] setting the flag.  Then the session
    [beginValidate] starts has the cells of [pre] and of [row] and no
    other, whatever the rows of [post] are: none of their cells is
    validated.  No cell of [pre] has a rule that failed at once, so that a
    row of [pre] fails only by a check that is rejected later.
    [validRest] is not empty and holds failures of [row] and of rows of
    [pre] only.  When no cell of [pre] fails, it holds failures of [row]
    only, and one failure only when no check of [row] is rejected later.
    A full validation of the same rows validates every row that is not
    left out in every column whose field has rules, and its [validRest]
    has the failure of every failing cell. *)
Theorem quick_validation_stops_full_validation_does_not (E : Engine) (T : Table)
  (rows : RowsArg) (cols : option (list (option Column))) (cb : option Callback)
  (pre post : list Row) (row : Row) (st st0 st1 : State)
  (rowValidErrs : list (list ColVaild)) (colVailds : list ColVaild) :
  editRules T <> None ->
  visited T (validListOf T rows) = (pre ++ row :: post)%list ->
  forEach (handleVaild E T false (columnsOf T cols)) pre [] (prepared T st)
  = (Ok rowValidErrs, st0) ->
  handleVaild E T false (columnsOf T cols) row rowValidErrs st0
  = (Ok (rowValidErrs ++ [colVailds])%list, st1) ->
  validRuleErr st1 = true ->
  let quick := {| s_isFull := false; s_cb := callbackOf rows cb;
                  s_rowValidErrs := (rowValidErrs ++ [colVailds])%list |} in
  incl (validListOf T rows) (pre ++ row :: post)
  /\ beginValidate E T rows cols cb false st = (Ok (Walking quick), st1)
  /\ (forall c, In c (List.concat rowValidErrs) ->
                In (cv_row c) pre /\ errorRules (cv_promise c) = [])
  /\ (forall c, In c colVailds -> cv_row c = row)
  /\ fst (collected T quick) <> Obj.empty
  /\ (forall k rs rest,
         In (k, rs) (fst (collected T quick)) -> In rest rs ->
         rest_row rest = row \/ In (rest_row rest) pre)
  /\ ((forall c, In c (List.concat rowValidErrs) -> failing c = false) ->
      (forall k rs rest,
          In (k, rs) (fst (collected T quick)) -> In rest rs -> rest_row rest = row)
      /\ ((forall c p, In c colVailds -> In p (syncValidList (cv_promise c)) ->
                       rejected p = false) ->
          exists bad rule rules,
            In bad colVailds
            /\ settledErrorRules (cv_promise bad) = rule :: rules
            /\ fst (collected T quick)
               = [(cv_field bad, [restOf T bad rule (rule :: rules)])]))
  /\ (forall full stF,
         beginValidate E T rows cols cb true st = (Ok (Walking full), stF) ->
         map (fun c => (cv_row c, cv_column c)) (List.concat (s_rowValidErrs full))
         = flat_map (fun r => map (pair r) (eligible T (columnsOf T cols)))
             (filter (fun r => negb (skipped T r)) (pre ++ row :: post))
         /\ forall c, In c (List.concat (s_rowValidErrs full)) -> failing c = true ->
              exists rs rest,
                Obj.get (fst (collected T full)) (cv_field c) = Some rs
                /\ In rest rs /\ rest_row rest = cv_row c
                /\ rest_column rest = cv_column c).
Proof.
  intros Hrules Hvisited Hpre Hrow Hflag quick.
  destruct (walk_stops_at_first_failing_row E T (columnsOf T cols) pre post row
              (callbackOf rows cb) (prepared T st) st0 st1 rowValidErrs colVailds
              Hpre Hrow Hflag)
    as (Hwalk & Hearlier & Hrows & Hsome & Hupto & Honly & Hfull).
  split; [rewrite <- Hvisited; apply visited_incl|].
  split; [|split; [exact Hearlier|split; [exact Hrows|split; [exact Hsome|
           split; [exact Hupto|split; [exact Honly|]]]]]].
  - rewrite beginValidate_walk. destruct (editRules T); [|congruence].
    now rewrite Hvisited, Hwalk.
  - intros full stF. rewrite beginValidate_walk. destruct (editRules T); [|congruence].
    rewrite Hvisited.
    destruct (forEach (handleVaild E T true (columnsOf T cols))
                (pre ++ row :: post)%list [] (prepared T st))
      as [[rowsF|e] stF'] eqn:HwalkF; [|discriminate].
    intros H. inversion H. subst full stF. exact (Hfull rowsF stF' eq_refl).
Qed.

(** A tree table with the row [row5], which passes, and its children
    [row1] and [row2], which both fail: a validation of [row5] that is
    not full visits the three rows, stops at [row1] and has no cell of
    [row2]; a full one finds both failures. *)
Lemma quick_validation_stops_full_validation_does_not_witness :
  let T := Demo.asTree Demo.multiTable in
  let rows := RowsArray [Demo.row5] in
  let failed (p : Result Outcome * State) :=
    match fst p with
    | Ok o => map (fun kv => (fst kv, map rest_row (snd kv))) (failures o)
    | Throw _ => []
    end in
  visited T (validListOf T rows) = [Demo.row5; Demo.row1; Demo.row2]
  /\ (exists s st',
         validate Demo.engine T rows None Demo.state0 = (Ok (Walking s), st')
         /\ map (fun c => (cv_row c, cv_field c)) (List.concat (s_rowValidErrs s))
            = [(Demo.row5, "name"); (Demo.row1, "name")])
  /\ failed (run T (validate Demo.engine T rows None) Demo.state0)
     = [("name", [Demo.row1])]
  /\ failed (run T (fullValidate Demo.engine T rows None) Demo.state0)
     = [("name", [Demo.row1; Demo.row2])].
Proof.
  intros T rows failed.
  split; [reflexivity|]. split; [|split; vm_compute; reflexivity].
  destruct (forEach (handleVaild Demo.engine T false (columnsOf T None)) [Demo.row5] []
              (prepared T Demo.state0)) as [r0 st0] eqn:Hpre.
  destruct r0 as [rows0|e]; [|discriminate Hpre].
  destruct (handleVaild Demo.engine T false (columnsOf T None) Demo.row1 rows0 st0)
    as [r1 st1] eqn:Hrow.
  vm_compute in Hpre. inversion Hpre. subst rows0 st0. clear Hpre.
  vm_compute in Hrow.
  match type of Hrow with
  | (Ok (?a :: [?cv]), ?s) = _ =>
      destruct (quick_validation_stops_full_validation_does_not Demo.engine T rows
                  None None [Demo.row5] [Demo.row2] Demo.row1 Demo.state0
                  (prepared T Demo.state0) s [a] cv)
        as (_ & Hquick & _)
  end.
  - discriminate.
  - reflexivity.
  - vm_compute. reflexivity.
  - vm_compute. reflexivity.
  - reflexivity.
  - unfold validate. rewrite Hquick. do 2 eexists. split; reflexivity.
Defined.

(** ** Single-message mode *)

Lemma triggerValidate_single (E : Engine) (T : Table) (type : string) (st : State) :
  msgMode_single T = true ->
  List.length (validErrorMaps st) <= 1 ->
  List.length (validErrorMaps (snd (triggerValidate E T type st))) <= 1.
Proof.
  intros Hsingle Hst. unfold triggerValidate. rewrite Hsingle.
  destruct (editRules T) as [rulesOf|]; [|now destruct (actived T)].
  rewrite snd_bind. unfold modify at 1.
  destruct (actived T) as [args|]; [|simpl; lia].
  destruct (editConfig T && hasCellRules T type (p_row args) (p_column args));
    [|simpl; lia].
  rewrite snd_bind.
  destruct (validCellRules E T type (p_row args) (p_column args) VUndefined
              (set_validErrorMaps Obj.empty st)) as [[cp|e] st1] eqn:Hcell;
    (assert (Hempty : validErrorMaps st1 = Obj.empty)
       by (apply validCellRules_sameStore in Hcell; now destruct Hcell as [-> _]));
    [|rewrite Hempty; simpl; lia].
  rewrite snd_bind.
  set (st2 := snd ((if existsb rejected (syncValidList cp)
                    then modify (set_validRuleErr true) else ret tt) st1)).
  assert (H2 : (if existsb rejected (syncValidList cp)
                then modify (set_validRuleErr true) else ret tt) st1 = (Ok tt, st2))
    by (unfold st2; destruct (existsb rejected (syncValidList cp)); reflexivity).
  assert (Hempty2 : validErrorMaps st2 = Obj.empty)
    by (unfold st2; destruct (existsb rejected (syncValidList cp)); exact Hempty).
  rewrite H2.
  destruct (settledErrorRules cp) as [|rule rules].
  - rewrite snd_bind. destruct (str_is (editOpts_mode T) "row").
    + destruct (clearValidate T _ _ st2) as [[[]|e] st3] eqn:Hclear;
        pose proof (clearValidate_single T (ArgOne (p_row args))
                      (ArgOne (OfColumn (p_column args))) st2 Hsingle) as Hc;
        rewrite Hclear in Hc; simpl in *; rewrite Hc; simpl; lia.
    + simpl. rewrite Hempty2. simpl. lia.
  - destruct (negb (truthy_str (Rule_trigger rule)) || str_is (Rule_trigger rule) type).
    + rewrite snd_bind.
      match goal with |- context [showValidTooltip T ?p st2] =>
        pose proof (showValidTooltip_single T p st2 Hsingle) as Hshow;
        destruct (showValidTooltip T p st2) as [[[]|e] st3] end;
        simpl in *; rewrite Hshow; simpl; lia.
    + simpl. rewrite Hempty2. simpl. lia.
Qed.

(** The keys of the error map are never array indexes: they have a
    colon in them, so that [Object.keys] lists them in the order they were
    created. *)
Lemma digits_value_colon (a b : string) (acc : N) :
  Obj.digits_value (a ++ String ":"%char b) acc = None.
Proof.
  revert acc. induction a as [|c a IH]; intros acc; cbn.
  - reflexivity.
  - destruct (Obj.is_digit c); [apply IH | reflexivity].
Qed.

Lemma validKey_named (T : Table) (row : Row) (column : Column) :
  Obj.array_index (validKey T row column) = None.
Proof.
  unfold validKey, Obj.array_index.
  destruct (getRowid T row) as [|c a]; [reflexivity|].
  cbn [append].
  match goal with |- (if ?b then _ else _) = _ => destruct b end; [reflexivity|].
  change (String c (a ++ String ":"%char (id column)))
    with (String c a ++ String ":"%char (id column)).
  now rewrite digits_value_colon.
Qed.

Lemma collect_keys_named (T : Table) (l : list ColVaild) (acc : ValidRest * ErrMaps) :
  (forall k e, In (k, e) (snd acc) -> Obj.array_index k = None) ->
  forall k e,
    In (k, e) (snd (fold_left (fun acc c => catchCell T c acc) l acc)) ->
    Obj.array_index k = None.
Proof.
  revert acc. induction l as [|c l IH]; intros acc Hacc; cbn [fold_left]; [exact Hacc|].
  apply IH. unfold catchCell.
  destruct (settledErrorRules (cv_promise c)) as [|rule rules]; [exact Hacc|].
  cbn [snd]. intros k e Hin. apply Obj_set_in in Hin.
  destruct Hin as [[-> _]|Hin]; [apply validKey_named | now apply (Hacc k e)].
Qed.

(** The first key that is created in the error map of a session keeps
    the first place. *)
Lemma collect_keeps_first_key (T : Table) (l : list ColVaild) (acc : ValidRest * ErrMaps)
  (k : string) (e : ErrEntry) (others : ErrMaps) :
  snd acc = (k, e) :: others ->
  exists e' others',
    snd (fold_left (fun acc c => catchCell T c acc) l acc) = (k, e') :: others'.
Proof.
  revert acc e others. induction l as [|c l IH]; intros acc e others Hacc;
    cbn [fold_left].
  - now exists e, others.
  - unfold catchCell at 2.
    destruct (settledErrorRules (cv_promise c)) as [|rule rules];
      [now apply (IH acc e others)|].
    rewrite Hacc. cbn [Obj.set].
    destruct (String.eqb k (validKey T (cv_row c) (cv_column c))); eapply IH; reflexivity.
Qed.

Lemma collect_first_key (T : Table) (l : list ColVaild) (acc : ValidRest * ErrMaps)
  (c : ColVaild) (cs : list ColVaild) :
  snd acc = Obj.empty ->
  filter failing l = c :: cs ->
  exists e others,
    snd (fold_left (fun acc c => catchCell T c acc) l acc)
    = (validKey T (cv_row c) (cv_column c), e) :: others.
Proof.
  revert acc. induction l as [|x l IH]; intros acc Hacc; cbn [fold_left filter];
    [discriminate|].
  destruct (failing x) eqn:Hx.
  - intros H. inversion H. subst x. unfold failing in Hx. unfold catchCell at 2.
    destruct (settledErrorRules (cv_promise c)) as [|rule rules]; [discriminate|].
    rewrite Hacc. cbn [Obj.set Obj.empty].
    eapply collect_keeps_first_key. reflexivity.
  - intros H. rewrite catchCell_passing by exact Hx. now apply IH.
Qed.

(** In single-message mode the merge keeps the entry under the key of
    the first cell of the session to fail. *)
Lemma handleErrMsgMode_first_cell (T : Table) (s : Session) (c : ColVaild)
  (cs : list ColVaild) :
  msgMode_single T = true ->
  filter failing (settleOrder s) = c :: cs ->
  exists e,
    Obj.get (snd (collected T s)) (validKey T (cv_row c) (cv_column c)) = Some e
    /\ handleErrMsgMode T (snd (collected T s))
       = [(validKey T (cv_row c) (cv_column c), e)].
Proof.
  intros Hsingle Hfirst. unfold handleErrMsgMode. rewrite Hsingle.
  assert (Hnamed : forall k e, In (k, e) (snd (collected T s)) -> Obj.array_index k = None).
  { unfold collected. apply collect_keys_named. intros k e []. }
  unfold Obj.keys. rewrite (Obj_entries_named _ Hnamed).
  destruct (collect_first_key T (settleOrder s) (Obj.empty, Obj.empty) c cs eq_refl Hfirst)
    as (e & others & Hhead).
  unfold collected. rewrite Hhead. cbn [map fst Obj.get]. rewrite String.eqb_refl.
  exists e. split; reflexivity.
Qed.

(** C6, as stated, fails.  In single-message mode with auto-positioning
    off, two failing validations that are not full leave the error map
    empty: the merge is skipped when [Promise.all] is rejected, and no
    tooltip is shown.  And after a full validation with two failing rows
    the one entry is that of the first failure, [row1], not of the
    failure recorded last, [row2]. *)
Lemma single_mode_after_two_failing_sessions :
  let T := Demo.table (Some Demo.nameRequired) (Some "single") (Some false) None 5%Z in
  let quick := run T (validate Demo.engine T (RowsArray [Demo.row1; Demo.row2]) None) in
  let full := run T (fullValidate Demo.engine T (RowsArray [Demo.row1; Demo.row2]) None) in
  (exists o1 st1 o2 st2,
      quick Demo.state0 = (Ok o1, st1) /\ failures o1 <> Obj.empty
      /\ quick st1 = (Ok o2, st2) /\ failures o2 <> Obj.empty
      /\ validErrorMaps st2 = Obj.empty)
  /\ (exists o1 st1 o2 st2,
         full Demo.state0 = (Ok o1, st1) /\ full st1 = (Ok o2, st2)
         /\ map (fun kv => (fst kv, map rest_row (snd kv))) (failures o2)
            = [("name", [Demo.row1; Demo.row2])]
         /\ map (fun kv => err_row (snd kv)) (validErrorMaps st2) = [Demo.row1]).
Proof.
  intros T quick full. split.
  - do 4 eexists. split; [reflexivity|]. split; [discriminate|].
    split; [reflexivity|]. split; [discriminate | reflexivity].
  - do 4 eexists. split; [reflexivity|]. split; [reflexivity|]. split; reflexivity.
Qed.

(** C6, amended. In single-message mode every operation on the error map
    leaves it with at most one entry: [handleErrMsgMode], [clearValidate],
    [showValidTooltip], [handleValidError], the start and the settlement
    of a session, and [triggerValidate].  After two validations in a row,
    the second of which fails and is full or runs with auto-positioning
    on, the error map has exactly one entry, and it is the entry of a
    failure of the second validation.  With auto-positioning on it is the
    entry of the failure the table is positioned on, [firstErrParams]:
    in a validation that is not full the failure of the first cell to
    fail, in a full one the first failure under the first field of
    [validRest] in the order of [Object.keys].  In a full validation with
    auto-positioning off it is the entry the session has recorded under
    the key of the first of its cells to fail. *)
Theorem single_message_mode (E : Engine) (T : Table) :
  msgMode_single T = true ->
  (forall validErrMaps, List.length (handleErrMsgMode T validErrMaps) <= 1)
  /\ (forall st,
         List.length (validErrorMaps st) <= 1 ->
         (forall rows fieldOrColumn,
             List.length (validErrorMaps (snd (clearValidate T rows fieldOrColumn st))) <= 1)
         /\ (forall params,
                List.length (validErrorMaps (snd (showValidTooltip T params st))) <= 1)
         /\ (forall params,
                List.length (validErrorMaps (snd (handleValidError T params st))) <= 1)
         /\ (forall rows cols cb isFull,
                List.length
                  (validErrorMaps (snd (beginValidate E T rows cols cb isFull st))) <= 1)
         /\ (forall p, List.length (validErrorMaps (snd (settle T p st))) <= 1)
         /\ (forall type,
                List.length (validErrorMaps (snd (triggerValidate E T type st))) <= 1))
  /\ (forall rows1 cols1 cb1 isFull1 rows2 cols2 cb2 isFull2 st r1 st1 o2 st2,
         run T (beginValidate E T rows1 cols1 cb1 isFull1) st = (r1, st1) ->
         run T (beginValidate E T rows2 cols2 cb2 isFull2) st1 = (Ok o2, st2) ->
         failures o2 <> Obj.empty ->
         isFull2 = true \/ autoPos_false T = false ->
         exists s st' first c cs k e,
           beginValidate E T rows2 cols2 cb2 isFull2 st1 = (Ok (Walking s), st')
           /\ failures o2 = fst (collected T s)
           /\ firstErrParams T s = Some first
           /\ filter failing (settleOrder s) = c :: cs
           /\ validErrorMaps st2 = [(k, e)]
           /\ (autoPos_false T = false ->
               k = validKey T (rest_row first) (rest_column first)
               /\ e = entryOf T (rest_row first) (rest_column first) (rest_rule first))
           /\ (autoPos_false T = true ->
               k = validKey T (cv_row c) (cv_column c)
               /\ Obj.get (snd (collected T s)) k = Some e)
           /\ (isFull2 = false ->
               exists rule rules,
                 settledErrorRules (cv_promise c) = rule :: rules
                 /\ first = restOf T c rule (rule :: rules))
           /\ (isFull2 = true ->
               exists f fs rs,
                 Obj.keys (failures o2) = f :: fs
                 /\ Obj.get (failures o2) f = Some (first :: rs))
           /\ exists f rs rest,
                Obj.get (failures o2) f = Some rs /\ In rest rs
                /\ rest_row rest = err_row e /\ rest_column rest = err_column e).
Proof.
  intros Hsingle. split; [|split].
  - intros m. now apply handleErrMsgMode_single.
  - intros st Hst. repeat split.
    + intros rows fc. rewrite clearValidate_single by exact Hsingle. simpl. lia.
    + intros params. rewrite showValidTooltip_single by exact Hsingle. simpl. lia.
    + intros params. unfold handleValidError.
      destruct (autoPos_false T); [exact Hst|].
      rewrite snd_bind. unfold modify at 1.
      rewrite showValidTooltip_single by exact Hsingle. simpl. lia.
    + intros rows cols cb isFull. rewrite beginValidate_clears. simpl. lia.
    + intros p. now apply settle_single.
    + intros type. now apply triggerValidate_single.
  - intros rows1 cols1 cb1 isFull1 rows2 cols2 cb2 isFull2 st r1 st1 o2 st2 _ Hrun Hfail Hmode.
    unfold run, bind in Hrun.
    pose proof (beginValidate_clears E T rows2 cols2 cb2 isFull2 st1) as Hclear.
    pose proof (beginValidate_walk E T rows2 cols2 cb2 isFull2 st1) as Hwalk.
    destruct (beginValidate E T rows2 cols2 cb2 isFull2 st1) as [[[cb|s]|e] st3];
      [| |discriminate].
    { unfold settle, bind, callCb, modify, ret in Hrun.
      destruct cb; inversion Hrun; subst; now contradiction Hfail. }
    assert (Hfull : s_isFull s = isFull2).
    { destruct (editRules T); [|discriminate].
      destruct (forEach _ _ [] (prepared T st1)) as [[acc|e] st4]; [|discriminate].
      inversion Hwalk. reflexivity. }
    simpl in Hclear. clear Hwalk.
    destruct (settle_walking T s st3) as (st4 & mid & Hsettle & Hmap & _).
    rewrite Hsettle in Hrun. inversion Hrun. subst st4 o2. clear Hrun.
    cbn [failures] in *.
    destruct (firstErrParams_some T s Hfail) as [first Hfirst].
    destruct (filter failing (settleOrder s)) as [|c cs] eqn:Hcells.
    { exfalso. apply Hfail. unfold collected. now rewrite collect_passing. }
    assert (Hquick : isFull2 = false ->
              exists rule rules,
                settledErrorRules (cv_promise c) = rule :: rules
                /\ first = restOf T c rule (rule :: rules)).
    { intros Hq. pose proof Hfirst as H. unfold firstErrParams in H.
      rewrite Hfull, Hq, Hcells in H.
      destruct (settledErrorRules (cv_promise c)) as [|rule rules]; [discriminate|].
      inversion H. now exists rule, rules. }
    assert (Hwhole : isFull2 = true ->
              exists f fs rs,
                Obj.keys (fst (collected T s)) = f :: fs
                /\ Obj.get (fst (collected T s)) f = Some (first :: rs)).
    { intros Hf. pose proof Hfirst as H. unfold firstErrParams in H.
      rewrite Hfull, Hf in H.
      destruct (Obj.keys (fst (collected T s))) as [|f fs]; [discriminate|].
      destruct (Obj.get (fst (collected T s)) f) as [[|rest rs]|] eqn:Hget;
        try discriminate.
      inversion H. subst rest. exists f, fs, rs. split; [reflexivity | exact Hget]. }
    rewrite Hclear in Hmap. unfold settledMaps in Hmap.
    rewrite Hfirst, Hsingle, Hfull in Hmap. cbn zeta in Hmap.
    destruct (autoPos_false T) eqn:Hauto.
    + destruct Hmode as [Hf|Hoff]; [|discriminate]. rewrite Hf in Hmap.
      destruct (handleErrMsgMode_first_cell T s c cs Hsingle Hcells) as (e & Hget & Hkeep).
      rewrite Hkeep in Hmap.
      exists s, st3, first, c, cs, (validKey T (cv_row c) (cv_column c)), e.
      split; [reflexivity|]. split; [reflexivity|]. split; [exact Hfirst|].
      split; [exact Hcells|]. split; [exact Hmap|]. split; [discriminate|].
      split; [intros _; now split|]. split; [exact Hquick|]. split; [exact Hwhole|].
      apply Obj_get_in in Hget. unfold collected in Hget.
      apply (collect_entries T
               (fun e => exists f rs rest,
                    Obj.get (fst (collected T s)) f = Some rs /\ In rest rs
                    /\ rest_row rest = err_row e /\ rest_column rest = err_column e)
               (settleOrder s) (Obj.empty, Obj.empty))
        with (k := validKey T (cv_row c) (cv_column c));
        [intros ? ? [] | | exact Hget].
      intros c' rule rules Hc Hrules. simpl.
      apply (cell_failure_recorded T s c' rule rules);
        [now apply settleOrder_in | exact Hrules].
    + exists s, st3, first, c, cs, (validKey T (rest_row first) (rest_column first)),
        (entryOf T (rest_row first) (rest_column first) (rest_rule first)).
      split; [reflexivity|]. split; [reflexivity|]. split; [exact Hfirst|].
      split; [exact Hcells|]. split; [exact Hmap|]. split; [intros _; now split|].
      split; [discriminate|]. split; [exact Hquick|]. split; [exact Hwhole|].
      destruct (firstErrParams_origin T s first Hfirst)
        as (c' & rule & rules & Hc & Hrules & ->).
      simpl. now apply (cell_failure_recorded T s c' rule rules).
Qed.

Lemma single_message_mode_witness :
  let T := Demo.table (Some Demo.nameRequired) (Some "single") None None 5%Z in
  let quick := run T (validate Demo.engine T (RowsArray [Demo.row1; Demo.row2]) None) in
  exists e, validErrorMaps (snd (quick (snd (quick Demo.state0)))) = [("r1:col_1", e)].
Proof.
  intros T quick.
  destruct (single_message_mode Demo.engine T) as (_ & _ & Htwo); [reflexivity|].
  destruct (Htwo (RowsArray [Demo.row1; Demo.row2]) None None false
              (RowsArray [Demo.row1; Demo.row2]) None None false
              Demo.state0 (fst (quick Demo.state0)) (snd (quick Demo.state0))
              (match fst (quick (snd (quick Demo.state0))) with
               | Ok o => o
               | Throw _ => {| settled := Resolved None; failures := Obj.empty |}
               end)
              (snd (quick (snd (quick Demo.state0)))))
    as (s & st' & first & c & cs & k & e & Hcall & _ & Hfirst & _ & Hmap & Hon & _).
  - vm_compute. reflexivity.
  - vm_compute. reflexivity.
  - vm_compute. discriminate.
  - right. reflexivity.
  - exists e. rewrite Hmap. destruct (Hon eq_refl) as [-> _].
    vm_compute in Hcall. inversion Hcall. subst s. clear Hcall.
    vm_compute in Hfirst. inversion Hfirst. reflexivity.
Defined.

(** ** Sessions that overlap *)

Lemma showValidTooltip_timeBlind (T : Table) (params : Params) :
  timeBlind (showValidTooltip T params).
Proof. unfold showValidTooltip. time_blind. Qed.

Lemma handleValidError_timeBlind (T : Table) (params : Params) :
  timeBlind (handleValidError T params).
Proof.
  unfold handleValidError. time_blind; apply showValidTooltip_timeBlind.
Qed.

Lemma settle_timeBlind (T : Table) (p : Started) : timeBlind (settle T p).
Proof.
  unfold settle, finish, callCb. destruct p as [cb|s].
  - time_blind.
  - time_blind; apply handleValidError_timeBlind.
Qed.

(** C9, as stated, fails.  A full validation of [row1] starts at time 5
    and waits for the check of [name]; a full validation of [row4]
    starts at time 9 and settles at once, leaving its entry in the error
    map; then the check of the first settles.  The error map now holds
    the entry of the older session and no longer that of the newer one,
    although [_lastCallTime] still is the start of the newer one. *)
Lemma older_session_overwrites_newer :
  let older := Demo.table (Some Demo.mixedRules) None (Some false) None 5%Z in
  let newer := Demo.table (Some Demo.mixedRules) None (Some false) None 9%Z in
  exists pA st1 pB st2 oB st3 oA st4,
    fullValidateField Demo.engine older (RowsRow Demo.row1) (ArgOne (OfField "name"))
      Demo.state0 = (Ok pA, st1)
    /\ fullValidateField Demo.engine newer (RowsRow Demo.row4) (ArgOne (OfField "age"))
         st1 = (Ok pB, st2)
    /\ settle newer pB st2 = (Ok oB, st3)
    /\ Obj.keys (validErrorMaps st3) = ["r4:col_2"]
    /\ settle older pA st3 = (Ok oA, st4)
    /\ Obj.keys (validErrorMaps st4) = ["r1:col_1"]
    /\ lastCallTime st4 = 9%Z.
Proof.
  intros older newer. do 8 eexists.
  split; [vm_compute; reflexivity|].
  split; [vm_compute; reflexivity|].
  split; [vm_compute; reflexivity|].
  split; [vm_compute; reflexivity|].
  split; [vm_compute; reflexivity|].
  split; vm_compute; reflexivity.
Qed.

(** C9, amended. The start of a session is recorded in [_lastCallTime],
    but nothing gates a merge by it: the settlement of a session neither
    reads nor writes the recorded time, and a full validation that
    settles sets the error map to its own failures whatever the map
    holds by then. *)
Theorem merges_are_not_gated (E : Engine) (T : Table) :
  (forall rows cols cb isFull st,
      lastCallTime (snd (beginValidate E T rows cols cb isFull st)) = Date_now T)
  /\ (forall p, timeBlind (settle T p))
  /\ (forall s st,
         s_isFull s = true ->
         validErrorMaps (snd (settle T (Walking s) st)) = settledMaps T s Obj.empty).
Proof.
  split; [|split].
  - intros rows cols cb isFull st. apply beginValidate_time.
  - intros p. apply settle_timeBlind.
  - intros s st Hfull.
    destruct (settle_walking T s st) as (st' & mid & Hsettle & Hmap & _).
    rewrite Hsettle. simpl. rewrite Hmap. unfold settledMaps. now rewrite Hfull.
Qed.

Lemma merges_are_not_gated_witness :
  let older := Demo.table (Some Demo.mixedRules) None (Some false) None 5%Z in
  let cell := {| cv_row := Demo.row1; cv_column := Demo.colName; cv_field := "name";
                 cv_promise :=
                   {| errorRules := [];
                      syncValidList :=
                        [{| pend_trigger := None;
                            pend_rule := Demo.customRule (VInline "later1") "name is taken";
                            pend_promise :=
                              {| settlesAt := 1;
                                 settlement := RejectedWith (Some "taken") |} |}] |} |} in
  let session := {| s_isFull := true; s_cb := None; s_rowValidErrs := [[cell]] |} in
  Obj.keys (validErrorMaps (snd (settle older (Walking session)
                                   (Demo.stateWith older))))
  = ["r1:col_1"].
Proof.
  intros older cell session.
  destruct (merges_are_not_gated Demo.engine older) as (_ & _ & Hfull).
  rewrite (Hfull session (Demo.stateWith older)); reflexivity.
Defined.

(** * Further properties *)

(** ** The rule evaluator: exceptions, types and bounds *)

Lemma validREValue_throws (E : Engine) (pat : option Pattern) (val : string) (e : Exn) :
  validREValue E pat val = Throw e
  <-> exists source,
        pat = Some (PatString source) /\ source <> ""
        /\ RegExp_new E source = None /\ e = SyntaxError source.
Proof.
  unfold validREValue. split.
  - destruct pat as [[source|test]|]; try discriminate.
    destruct (String.eqb_spec source "") as [->|Hne]; [discriminate|].
    destruct (RegExp_new E source) eqn:Hnew; [discriminate|].
    intros H. inversion H. now exists source.
  - intros (source & -> & Hne & Hnew & ->).
    apply String.eqb_neq in Hne. now rewrite Hne, Hnew.
Qed.

Lemma validRuleValue_throws (E : Engine) (rule : ValidatorRule) (val : Value)
  (req : bool) (e : Exn) :
  validRuleValue E rule val req = Throw e
  <-> validREValue E (pattern rule) (toStr E val) = Throw e.
Proof.
  unfold validRuleValue.
  destruct (validREValue E (pattern rule) (toStr E val)) as [[|]|e'].
  - split; [|discriminate].
    repeat match goal with
           | |- context [if ?b then _ else _] => destruct b
           end; discriminate.
  - split; discriminate.
  - reflexivity.
Qed.

(** X1. [checkRuleStatus] throws in one case only: the value is not empty
    and the pattern of the rule is a string, not the empty one, that
    [new RegExp] rejects; what it throws is that SyntaxError.  On an empty
    value the pattern is never compiled. *)
Theorem checkRuleStatus_throws (E : Engine) (rule : ValidatorRule) (val : Value)
  (e : Exn) :
  checkRuleStatus E rule val = Throw e
  <-> isEmptyVal val = false
      /\ exists source,
           pattern rule = Some (PatString source) /\ source <> ""
           /\ RegExp_new E source = None /\ e = SyntaxError source.
Proof.
  rewrite <- validREValue_throws, <- (validRuleValue_throws E rule val (required rule)).
  unfold checkRuleStatus.
  destruct (isEmptyVal val); simpl.
  - destruct (required rule); split; try discriminate; intros [H _]; discriminate.
  - destruct (required rule);
      destruct (validRuleValue E rule val _) as [[|]|e']; split;
      try discriminate; try (intros [_ H]; discriminate H); auto.
    + intros [_ H]. exact H.
    + intros [_ H]. exact H.
Qed.

Lemma isEmptyVal_array (val : Value) :
  isEmptyVal val = false -> isArray val = true -> (arr_length val =? 0)%nat = false.
Proof. unfold isEmptyVal. intros H Harr. now rewrite Harr in H. Qed.

(** X2. On a value that is not empty, [required] changes the verdict of a
    rule only where the value is checked by the length of its text and
    that text is empty: two rules that differ in [required] alone agree
    on every value that is not empty when their type is ['array'] or
    ['number'], or when the value does not print as the empty string. *)
Theorem required_matters_on_empty_values_only (E : Engine)
  (mn mx : option Bound) (ty : option string) (pat : option Pattern)
  (v : option Validator) (tr c m : option string) (val : Value) :
  let rule req :=
    {| required := req; min := mn; max := mx; type := ty; pattern := pat;
       validator := v; trigger := tr; content := c; message := m |} in
  isEmptyVal val = false ->
  ty = Some "array" \/ ty = Some "number" \/ toStr E val <> "" ->
  checkRuleStatus E (rule true) val = checkRuleStatus E (rule false) val.
Proof.
  intros rule Hempty Hcase.
  rewrite !checkRuleStatus_not_empty by exact Hempty.
  unfold validRuleValue, type_is, rule. cbn [required min max type pattern].
  destruct (validREValue E pat (toStr E val)) as [[|]|e]; try reflexivity.
  destruct Hcase as [->|[->|Hstr]]; cbn.
  - destruct (isArray val) eqn:Harr; [|reflexivity]. cbn.
    now rewrite (isEmptyVal_array val Hempty Harr).
  - reflexivity.
  - apply String.eqb_neq in Hstr. rewrite Hstr.
    destruct ty as [t|]; [|reflexivity].
    destruct (String.eqb t "array") eqn:Ha.
    + destruct (isArray val) eqn:Harr; [|reflexivity]. cbn.
      now rewrite (isEmptyVal_array val Hempty Harr).
    + destruct (String.eqb t "number"); reflexivity.
Qed.

Lemma required_matters_on_empty_values_only_witness :
  let rule req :=
    {| required := req; min := None; max := Some (BNum (Fin 3%Q)); type := None;
       pattern := None; validator := None; trigger := None;
       content := None; message := None |} in
  checkRuleStatus Demo.engine (rule true) (VStr "bob")
  = checkRuleStatus Demo.engine (rule false) (VStr "bob")
  /\ checkRuleStatus Demo.engine (rule true) (VArr [VNull]) = Ok false
  /\ checkRuleStatus Demo.engine (rule false) (VArr [VNull]) = Ok true.
Proof.
  intros rule. split; [|split; reflexivity].
  apply (required_matters_on_empty_values_only Demo.engine None (Some (BNum (Fin 3%Q)))
           None None None None None None (VStr "bob")).
  - reflexivity.
  - right. right. discriminate.
Defined.

(** X3. A rule of type ['array'] passes arrays only, and a rule of type
    ['string'] strings only: on a value of another kind that is not empty
    the verdict is never [true], whatever the other constraints are. *)
Theorem typed_rule_rejects_other_kinds (E : Engine) (rule : ValidatorRule)
  (val : Value) :
  isEmptyVal val = false ->
  (type rule = Some "array" /\ isArray val = false)
  \/ (type rule = Some "string" /\ isString val = false) ->
  checkRuleStatus E rule val <> Ok true.
Proof.
  intros Hempty Hkind. rewrite checkRuleStatus_not_empty by exact Hempty.
  unfold validRuleValue, type_is.
  destruct (validREValue E (pattern rule) (toStr E val)) as [[|]|e];
    [|discriminate|discriminate].
  destruct Hkind as [[-> Hno]|[-> Hno]]; cbn; rewrite Hno; cbn; discriminate.
Qed.

Lemma typed_rule_rejects_other_kinds_witness :
  let rule ty :=
    {| required := false; min := None; max := None; type := Some ty;
       pattern := None; validator := None; trigger := None;
       content := None; message := None |} in
  checkRuleStatus Demo.engine (rule "array") (VStr "a,b") <> Ok true
  /\ checkRuleStatus Demo.engine (rule "string") (VNum (Fin 3%Q)) <> Ok true.
Proof.
  intros rule. split.
  - apply (typed_rule_rejects_other_kinds Demo.engine (rule "array") (VStr "a,b"));
      [reflexivity | left; split; reflexivity].
  - apply (typed_rule_rejects_other_kinds Demo.engine (rule "string") (VNum (Fin 3%Q)));
      [reflexivity | right; split; reflexivity].
Defined.

Lemma num_lt_of_nat (a b : nat) :
  num_lt (num_of_nat a) (num_of_nat b) = (a <? b)%nat.
Proof.
  unfold num_lt, num_of_nat, Qle_bool, inject_Z. cbn [Qnum Qden].
  rewrite !Z.mul_1_r.
  destruct (Nat.ltb_spec a b) as [Hlt|Hge].
  - apply negb_true_iff, Z.leb_gt. lia.
  - apply negb_false_iff, Z.leb_le. lia.
Qed.

Lemma validMinValue_of_nat (E : Engine) (lo : Bound) (a n : nat) :
  XEUtils_toNumber E lo = num_of_nat a ->
  validMinValue E (Some lo) (num_of_nat n) = (a <=? n)%nat.
Proof.
  intros Hlo. unfold validMinValue. rewrite Hlo, num_lt_of_nat.
  destruct (Nat.ltb_spec n a), (Nat.leb_spec a n); try reflexivity; lia.
Qed.

Lemma validMaxValue_of_nat (E : Engine) (hi : Bound) (b n : nat) :
  XEUtils_toNumber E hi = num_of_nat b ->
  validMaxValue E (Some hi) (num_of_nat n) = (n <=? b)%nat.
Proof.
  intros Hhi. unfold validMaxValue, num_gt. rewrite Hhi, num_lt_of_nat.
  destruct (Nat.ltb_spec b n), (Nat.leb_spec n b); try reflexivity; lia.
Qed.

(** X4. [min] and [max] are inclusive bounds on the length: a string that
    is not empty and matches the pattern of a rule whose type is neither
    ['array'] nor ['number'] passes exactly when its length is at least
    [min] and at most [max]; and an array that is not empty passes a rule
    of type ['array'] exactly when its length is. *)
Theorem length_bounds_are_inclusive (E : Engine) (rule : ValidatorRule)
  (lo hi : Bound) (a b : nat) :
  min rule = Some lo -> max rule = Some hi ->
  XEUtils_toNumber E lo = num_of_nat a ->
  XEUtils_toNumber E hi = num_of_nat b ->
  (forall s,
      s <> "" ->
      type_is rule "array" = false -> type_is rule "number" = false ->
      validREValue E (pattern rule) s = Ok true ->
      checkRuleStatus E rule (VStr s)
      = Ok ((a <=? String.length s)%nat && (String.length s <=? b)%nat))
  /\ (forall items,
         items <> [] ->
         type_is rule "array" = true ->
         validREValue E (pattern rule) (toStr E (VArr items)) = Ok true ->
         checkRuleStatus E rule (VArr items)
         = Ok ((a <=? List.length items)%nat && (List.length items <=? b)%nat)).
Proof.
  intros Hmin Hmax Hlo Hhi. split.
  - intros s Hs Harr Hnum Hpat.
    rewrite checkRuleStatus_not_empty
      by (cbn; now apply String.eqb_neq).
    unfold validRuleValue. cbn [toStr]. rewrite Hpat, Harr, Hnum, Hmin, Hmax.
    rewrite (validMinValue_of_nat E lo a _ Hlo), (validMaxValue_of_nat E hi b _ Hhi).
    cbn [isString negb]. rewrite andb_false_r.
    apply String.eqb_neq in Hs. rewrite Hs, andb_false_r.
    now destruct (a <=? String.length s)%nat, (String.length s <=? b)%nat.
  - intros items Hitems Harr Hpat.
    assert (Hlen : (List.length items =? 0)%nat = false)
      by (destruct items; [congruence | reflexivity]).
    rewrite checkRuleStatus_not_empty by (cbn; exact Hlen).
    unfold validRuleValue. rewrite Hpat, Harr, Hmin, Hmax.
    cbn [isArray negb arr_length]. rewrite Hlen, andb_false_r.
    rewrite (validMinValue_of_nat E lo a _ Hlo), (validMaxValue_of_nat E hi b _ Hhi).
    now destruct (a <=? List.length items)%nat, (List.length items <=? b)%nat.
Qed.

Lemma length_bounds_are_inclusive_witness :
  let rule :=
    {| required := true; min := Some (BNum (Fin 2%Q)); max := Some (BStr "3");
       type := None; pattern := None; validator := None; trigger := None;
       content := None; message := None |} in
  map (fun s => checkRuleStatus Demo.engine rule (VStr s)) ["a"; "ab"; "abc"; "abcd"]
  = [Ok false; Ok true; Ok true; Ok false].
Proof.
  intros rule.
  destruct (length_bounds_are_inclusive Demo.engine rule (BNum (Fin 2%Q)) (BStr "3") 2 3
              eq_refl eq_refl eq_refl eq_refl) as [Hstr _].
  cbn [map].
  rewrite !Hstr by (reflexivity || discriminate). reflexivity.
Defined.

(** X5. For a rule of type ['number'] the bounds are on the number the
    value converts to, not on a length, and they are inclusive: a finite
    number passes exactly when it is at least [min] and at most [max]. *)
Theorem number_bounds_are_inclusive (E : Engine) (rule : ValidatorRule)
  (lo hi : Bound) (a b q : Q) :
  type rule = Some "number" ->
  min rule = Some lo -> max rule = Some hi ->
  XEUtils_toNumber E lo = Fin a ->
  XEUtils_toNumber E hi = Fin b ->
  validREValue E (pattern rule) (toStr E (VNum (Fin q))) = Ok true ->
  checkRuleStatus E rule (VNum (Fin q)) = Ok (Qle_bool a q && Qle_bool q b).
Proof.
  intros Hty Hmin Hmax Hlo Hhi Hpat.
  rewrite checkRuleStatus_not_empty by reflexivity.
  unfold validRuleValue, type_is. rewrite Hpat, Hty, Hmin, Hmax.
  cbn [String.eqb Ascii.eqb Bool.eqb Number isNaN].
  unfold validMinValue, validMaxValue, num_gt. rewrite Hlo, Hhi. cbn [num_lt].
  now destruct (Qle_bool a q), (Qle_bool q b).
Qed.

Lemma number_bounds_are_inclusive_witness :
  let rule :=
    {| required := false; min := Some (BNum (Fin 18%Q)); max := Some (BNum (Fin 65%Q));
       type := Some "number"; pattern := None; validator := None; trigger := None;
       content := None; message := None |} in
  map (fun q => checkRuleStatus Demo.engine rule (VNum (Fin q)))
    [17%Q; 18%Q; 65%Q; 66%Q; 100%Q]
  = [Ok false; Ok true; Ok true; Ok false; Ok false].
Proof.
  intros rule. cbn [map].
  rewrite !(number_bounds_are_inclusive Demo.engine rule (BNum (Fin 18%Q))
              (BNum (Fin 65%Q)) 18%Q 65%Q) by reflexivity.
  reflexivity.
Defined.

(** ** One message or many *)

Lemma Obj_entries_one {V : Type} (k : string) (v : V) :
  Obj.entries [(k, v)] = [(k, v)].
Proof.
  unfold Obj.entries, Obj.named_entries. simpl.
  now destruct (Obj.array_index k).
Qed.

(** X6. [handleErrMsgMode] in single-message mode keeps, of a map that is
    not empty, the entry of the first key in the order of [Object.keys],
    with its value, and nothing else; in multi-message mode it returns
    the map as it is.  In either mode it is idempotent: applied to its
    own result it changes nothing. *)
Theorem handleErrMsgMode_keeps_first_key (T : Table) (validErrMaps : ErrMaps) :
  (validErrMaps <> Obj.empty ->
   if msgMode_single T then
     exists firstKey keys item,
       Obj.keys validErrMaps = firstKey :: keys
       /\ Obj.get validErrMaps firstKey = Some item
       /\ handleErrMsgMode T validErrMaps = [(firstKey, item)]
   else handleErrMsgMode T validErrMaps = validErrMaps)
  /\ handleErrMsgMode T (handleErrMsgMode T validErrMaps)
     = handleErrMsgMode T validErrMaps.
Proof.
  unfold handleErrMsgMode. destruct (msgMode_single T); [|split; reflexivity].
  destruct (Obj.keys validErrMaps) as [|k ks] eqn:Hkeys.
  - split; [|reflexivity]. intros Hne. now apply Obj_keys_nil in Hkeys.
  - destruct (Obj_keys_in validErrMaps k) as [item Hget]; [rewrite Hkeys; now left|].
    rewrite Hget. split.
    + intros _. now exists k, ks, item.
    + unfold Obj.keys. cbn [Obj.set Obj.empty]. rewrite Obj_entries_one.
      cbn [map fst Obj.get]. now rewrite String.eqb_refl.
Qed.

Lemma handleErrMsgMode_keeps_first_key_witness :
  let T := Demo.table (Some Demo.nameRequired) (Some "single") None None 5%Z in
  let e := Demo.nameEntry T Demo.row1 in
  handleErrMsgMode T [("r2:col_1", e); ("7", e); ("r1:col_1", e); ("3", e)] = [("3", e)].
Proof.
  intros T e.
  assert (Hsingle : msgMode_single T = true) by reflexivity.
  destruct (handleErrMsgMode_keeps_first_key T
              [("r2:col_1", e); ("7", e); ("r1:col_1", e); ("3", e)]) as [H _].
  rewrite Hsingle in H.
  destruct H as (k & ks & item & Hkeys & Hget & Hres); [discriminate|].
  rewrite Hres. vm_compute in Hkeys. inversion Hkeys. subst k ks.
  vm_compute in Hget. inversion Hget. reflexivity.
Defined.

(** ** Clearing: what is kept, what is thrown, what is closed *)

Lemma Obj_delete_in {V : Type} (o : Obj.t V) (k : string) (kv : string * V) :
  In kv (Obj.delete o k) -> In kv o.
Proof.
  induction o as [|[k0 v0] o IH]; simpl; [auto|].
  destruct (String.eqb k0 k); simpl; intuition.
Qed.

Lemma pickEntries_in (part : nat) (idList : list string) (validErrorMaps : ErrMaps)
  (kv : string * ErrEntry) :
  In kv (pickEntries part idList validErrorMaps) -> In kv validErrorMaps.
Proof.
  assert (H : forall (l : list (string * ErrEntry)) (acc : ErrMaps),
             In kv (fold_left
                      (fun validErrMaps kv0 =>
                         if indexOf_found idList (nth_error (split_on ":" (fst kv0)) part)
                         then Obj.set validErrMaps (fst kv0) (snd kv0)
                         else validErrMaps) l acc) ->
             In kv acc \/ In kv l).
  { intros l. induction l as [|[k v] l IH]; intros acc Hin; simpl in Hin; [now left|].
    destruct (IH _ Hin) as [H|H]; [|right; now right].
    destruct (indexOf_found idList (nth_error (split_on ":" k) part)); [|now left].
    destruct kv as [k' v']. apply Obj_set_in in H.
    destruct H as [[-> ->]|H]; [right; now left | now left]. }
  unfold pickEntries. intros Hin.
  destruct (H _ _ Hin) as [[]|Hl]. now apply (Obj_entries_in validErrorMaps kv).
Qed.

(** The state [clearValidate] works in once it has closed the tooltip. *)
Lemma clearValidate_steps (T : Table) (rows : Arg Row)
  (fieldOrColumn : Arg FieldOrColumn) (st : State) :
  let st1 := match validTip st with
             | Some true => set_validTip (Some false) (emit TipClose st)
             | _ => st
             end in
  clearValidate T rows fieldOrColumn st
  = if msgMode_single T then (Ok tt, set_validErrorMaps Obj.empty st1)
    else
      (validErrMaps <-
         (if nonempty (toList rows)
             && nonempty (map (handleFieldOrColumn T) (toList fieldOrColumn)) then
            forEach
              (fun row acc =>
                 forEach
                   (fun column acc' =>
                      cid <- column_id column ;;
                      let validKey := getRowid T row ++ ":" ++ cid in
                      match Obj.get acc' validKey with
                      | Some _ => ret (Obj.delete acc' validKey)
                      | None => ret acc'
                      end)
                   (map (handleFieldOrColumn T) (toList fieldOrColumn)) acc)
              (toList rows) (Obj.assign Obj.empty (validErrorMaps st))
          else if nonempty (toList rows) then
            ret (pickEntries 0 (map (getRowid T) (toList rows)) (validErrorMaps st))
          else if nonempty (map (handleFieldOrColumn T) (toList fieldOrColumn)) then
            colidList <- forEach (fun column acc => cid <- column_id column ;;
                                                   ret (acc ++ [cid])%list)
                           (map (handleFieldOrColumn T) (toList fieldOrColumn)) [] ;;
            ret (pickEntries 1 colidList (validErrorMaps st))
          else ret Obj.empty) ;;
       modify (set_validErrorMaps validErrMaps)) st1.
Proof.
  unfold clearValidate. unfold bind at 1, gets at 1. unfold bind at 1, gets at 1.
  unfold bind at 1.
  destruct (validTip st) as [[|]|]; destruct (msgMode_single T); reflexivity.
Qed.

Lemma delete_keys_pure (T : Table) (row : Row) (colList : list (option Column))
  (acc : ErrMaps) (st : State) (r : Result ErrMaps) (st' : State) :
  forEach (fun column acc' =>
             cid <- column_id column ;;
             match Obj.get acc' (getRowid T row ++ ":" ++ cid) with
             | Some _ => ret (Obj.delete acc' (getRowid T row ++ ":" ++ cid))
             | None => ret acc'
             end) colList acc st = (r, st') ->
  st' = st
  /\ match r with
     | Ok acc' => (forall kv, In kv acc' -> In kv acc) /\ ~ In None colList
     | Throw e => e = TypeError "id" /\ In None colList
     end.
Proof.
  revert acc. induction colList as [|column colList IH]; intros acc.
  - cbn [forEach]. unfold ret. intros H. inversion H. auto.
  - destruct column as [c|].
    + set (key := getRowid T row ++ ":" ++ id c).
      rewrite (forEach_cons_ok _ (Some c) colList acc st
                 (match Obj.get acc key with
                  | Some _ => Obj.delete acc key
                  | None => acc
                  end) st)
        by (unfold bind, column_id, ret; fold key; now destruct (Obj.get acc key)).
      intros H. destruct (IH _ H) as [-> Hr]. split; [reflexivity|].
      destruct r as [acc'|e].
      * destruct Hr as [Hin Hno]. split; [|intros [H0|H0]; [discriminate | auto]].
        intros kv Hkv. apply Hin in Hkv.
        destruct (Obj.get acc key); [now apply Obj_delete_in in Hkv | exact Hkv].
      * destruct Hr as [-> Hin]. split; [reflexivity | now right].
    + cbn [forEach]. unfold bind, column_id, throw. intros H. inversion H.
      split; [reflexivity|]. split; [reflexivity | now left].
Qed.

Lemma delete_rows_pure (T : Table) (rowList : list Row) (colList : list (option Column))
  (acc : ErrMaps) (st : State) (r : Result ErrMaps) (st' : State) :
  forEach (fun row acc =>
             forEach (fun column acc' =>
                        cid <- column_id column ;;
                        match Obj.get acc' (getRowid T row ++ ":" ++ cid) with
                        | Some _ => ret (Obj.delete acc' (getRowid T row ++ ":" ++ cid))
                        | None => ret acc'
                        end) colList acc) rowList acc st = (r, st') ->
  st' = st
  /\ match r with
     | Ok acc' => (forall kv, In kv acc' -> In kv acc) /\ (rowList = [] \/ ~ In None colList)
     | Throw e => e = TypeError "id" /\ In None colList
     end.
Proof.
  revert acc. induction rowList as [|row rowList IH]; intros acc; cbn [forEach].
  - unfold ret. intros H. inversion H. auto.
  - unfold bind at 1.
    match goal with
    | |- context [forEach ?f colList acc st] =>
        destruct (forEach f colList acc st) as [[acc1|e] st1] eqn:Hrow
    end;
      apply delete_keys_pure in Hrow; destruct Hrow as [-> Hrow].
    + destruct Hrow as [Hin1 Hno]. intros H. destruct (IH _ H) as [-> Hr].
      split; [reflexivity|]. destruct r as [acc'|e]; [|exact Hr].
      destruct Hr as [Hin _]. split; [auto | now right].
    + intros H. inversion H. subst. auto.
Qed.

Lemma column_ids_pure (colList : list (option Column)) (acc : list string)
  (st : State) (r : Result (list string)) (st' : State) :
  forEach (fun column acc => cid <- column_id column ;; ret (acc ++ [cid])%list)
    colList acc st = (r, st') ->
  st' = st
  /\ match r with
     | Ok _ => ~ In None colList
     | Throw e => e = TypeError "id" /\ In None colList
     end.
Proof.
  revert acc. induction colList as [|column colList IH]; intros acc.
  - cbn [forEach]. unfold ret. intros H. inversion H. auto.
  - destruct column as [c|].
    + rewrite (forEach_cons_ok _ (Some c) colList acc st (acc ++ [id c])%list st)
        by reflexivity.
      intros H. destruct (IH _ H) as [-> Hr]. split; [reflexivity|].
      destruct r; [|destruct Hr as [-> Hin]; split; [reflexivity | now right]].
      intros [H0|H0]; [discriminate | auto].
    + cbn [forEach]. unfold bind, column_id, throw. intros H. inversion H.
      split; [reflexivity|]. split; [reflexivity | now left].
Qed.

(** What a call of [clearValidate] comes to: the tooltip is closed if it
    was visible, and then either the error map is replaced by a part of
    itself, or, in multi-message mode with a column that was not found,
    a TypeError is thrown and the error map is left as it was. *)
Lemma clearValidate_outcome (T : Table) (rows : Arg Row)
  (fieldOrColumn : Arg FieldOrColumn) (st : State) :
  let st1 := match validTip st with
             | Some true => set_validTip (Some false) (emit TipClose st)
             | _ => st
             end in
  let unknown := In None (map (handleFieldOrColumn T) (toList fieldOrColumn)) in
  (exists validErrMaps,
      clearValidate T rows fieldOrColumn st = (Ok tt, set_validErrorMaps validErrMaps st1)
      /\ (forall kv, In kv validErrMaps -> In kv (validErrorMaps st))
      /\ (msgMode_single T = true \/ ~ unknown))
  \/ (clearValidate T rows fieldOrColumn st = (Throw (TypeError "id"), st1)
      /\ msgMode_single T = false /\ unknown).
Proof.
  intros st1 unknown. rewrite clearValidate_steps. fold st1.
  destruct (msgMode_single T).
  { left. exists Obj.empty. split; [reflexivity|]. split; [intros kv []|now left]. }
  assert (Hmap : validErrorMaps st1 = validErrorMaps st)
    by (unfold st1; destruct (validTip st) as [[|]|]; reflexivity).
  unfold unknown. clear unknown.
  set (colList := map (handleFieldOrColumn T) (toList fieldOrColumn)).
  destruct (toList rows) as [|row rowList] eqn:Hrows;
    destruct colList as [|column colList'] eqn:Hcols; cbn [nonempty andb].
  - left. exists Obj.empty. split; [reflexivity|]. split; [intros kv []|right; intros []].
  - unfold bind.
    match goal with
    | |- context [forEach ?f (column :: colList') [] st1] =>
        destruct (forEach f (column :: colList') [] st1) as [[ids|e] st2] eqn:Hids
    end;
      apply column_ids_pure in Hids; destruct Hids as [-> Hids].
    + left. eexists. split; [reflexivity|]. split; [|now right].
      intros kv. apply pickEntries_in.
    + right. destruct Hids as [-> Hin]. auto.
  - left. eexists. split; [reflexivity|]. split; [|right; intros []].
    intros kv. apply pickEntries_in.
  - match goal with
    | |- context [forEach ?f (row :: rowList) ?a] =>
        destruct (forEach f (row :: rowList) a st1) as [[acc|e] st2] eqn:Hwalk
    end;
      destruct (delete_rows_pure _ _ _ _ _ _ _ Hwalk) as [-> Hpure].
    + left. exists acc. split; [unfold bind at 1; now rewrite Hwalk|].
      destruct Hpure as [Hin Hno]. split.
      * intros kv Hkv. apply Hin, Obj_assign_in in Hkv. now destruct Hkv as [[]|Hkv].
      * right. destruct Hno as [Hno|Hno]; [discriminate | exact Hno].
    + right. destruct Hpure as [-> Hin].
      split; [unfold bind at 1; now rewrite Hwalk | auto].
Qed.

(** X7. [clearValidate] never adds to the error map and never changes an
    entry: whatever the rows, the columns and the mode, and whether it
    returns or throws, every entry of the error map after the call is an
    entry of the error map before it. *)
Theorem clearValidate_never_adds (T : Table) (rows : Arg Row)
  (fieldOrColumn : Arg FieldOrColumn) (st : State) :
  incl (validErrorMaps (snd (clearValidate T rows fieldOrColumn st))) (validErrorMaps st).
Proof.
  destruct (clearValidate_outcome T rows fieldOrColumn st)
    as [(validErrMaps & -> & Hin & _)|(-> & _)]; cbn [snd].
  - exact Hin.
  - destruct (validTip st) as [[|]|]; apply incl_refl.
Qed.

(** X8. [clearValidate] throws in one case only: in multi-message mode,
    when one of the columns given was not found, so that [column.id] is
    read on [null].  It then throws a TypeError and leaves the error map
    as it was.  In single-message mode the columns are not looked at. *)
Theorem clearValidate_throws_on_unknown_column (T : Table) (rows : Arg Row)
  (fieldOrColumn : Arg FieldOrColumn) (st : State) :
  (msgMode_single T = false
   /\ In None (map (handleFieldOrColumn T) (toList fieldOrColumn)))
  <-> exists st',
        clearValidate T rows fieldOrColumn st = (Throw (TypeError "id"), st')
        /\ validErrorMaps st' = validErrorMaps st.
Proof.
  destruct (clearValidate_outcome T rows fieldOrColumn st)
    as [(validErrMaps & Hcall & _ & Hwhy)|(Hcall & Hmulti & Hin)]; rewrite Hcall.
  - split.
    + intros [Hmulti Hin]. destruct Hwhy as [Hsingle|Hno]; [congruence | contradiction].
    + intros (st' & H & _). discriminate H.
  - split; [|auto]. intros _. eexists. split; [reflexivity|].
    destruct (validTip st) as [[|]|]; reflexivity.
Qed.

(** X9. The one call [clearValidate] makes outside is [validTip.close()],
    and it makes it exactly when the tooltip is there and visible:
    whatever the arguments and the mode, and also when it throws. *)
Theorem clearValidate_closes_visible_tooltip (T : Table) (rows : Arg Row)
  (fieldOrColumn : Arg FieldOrColumn) (st : State) :
  let st' := snd (clearValidate T rows fieldOrColumn st) in
  effects st'
  = (effects st ++ match validTip st with Some true => [TipClose] | _ => [] end)%list
  /\ validStore_visible st' = validStore_visible st
  /\ validRuleErr st' = validRuleErr st
  /\ lastCallTime st' = lastCallTime st.
Proof.
  destruct (clearValidate_outcome T rows fieldOrColumn st)
    as [(validErrMaps & -> & _)|(-> & _)]; cbn [snd];
    destruct (validTip st) as [[|]|] eqn:Htip; cbn;
    rewrite ?app_nil_r, ?Htip; auto.
Qed.

(** ** Showing an error, and clearing it *)

Lemma Obj_set_keys {V : Type} (o : Obj.t V) (k : string) (v : V) :
  map fst (Obj.set o k v)
  = if existsb (String.eqb k) (map fst o) then map fst o else (map fst o ++ [k])%list.
Proof.
  induction o as [|[k0 v0] o IH]; simpl; [reflexivity|].
  rewrite (String.eqb_sym k k0).
  destruct (String.eqb k0 k); simpl; [reflexivity|].
  rewrite IH. now destruct (existsb (String.eqb k) (map fst o)).
Qed.

Lemma Obj_set_nodup {V : Type} (o : Obj.t V) (k : string) (v : V) :
  NoDup (map fst o) -> NoDup (map fst (Obj.set o k v)).
Proof.
  intros Hnodup. rewrite Obj_set_keys.
  destruct (existsb (String.eqb k) (map fst o)) eqn:Hk; [exact Hnodup|].
  apply NoDup_app; [exact Hnodup | repeat constructor; intros [] |].
  intros x Hx Hk'. destruct Hk' as [Hk'|[]]. subst x.
  assert (Hex : existsb (String.eqb k) (map fst o) = true)
    by (apply existsb_exists; exists k; split; [exact Hx | apply String.eqb_refl]).
  congruence.
Qed.

Lemma Obj_assign_nodup {V : Type} (target source : Obj.t V) :
  NoDup (map fst target) -> NoDup (map fst (Obj.assign target source)).
Proof.
  unfold Obj.assign. generalize (Obj.entries source) as l. intros l. revert target.
  induction l as [|[k v] l IH]; intros target Hnodup; simpl; [exact Hnodup|].
  apply IH. now apply Obj_set_nodup.
Qed.

(** The error map [showValidTooltip] leaves, read by key. *)
Lemma showValidTooltip_get (T : Table) (params : Params) (st : State) (k : string) :
  NoDup (map fst (validErrorMaps st)) ->
  NoDup (map fst (validErrorMaps (snd (showValidTooltip T params st))))
  /\ Obj.get (validErrorMaps (snd (showValidTooltip T params st))) k
     = if String.eqb (validKey T (p_row params) (p_column params)) k
       then Some (entryOf T (p_row params) (p_column params) (p_rule params))
       else if msgMode_single T then None else Obj.get (validErrorMaps st) k.
Proof.
  intros Hnodup.
  destruct (showValidTooltip_total T params st) as (st' & mid & -> & Hmap & _).
  cbn [snd]. rewrite Hmap. clear Hmap.
  set (key := validKey T (p_row params) (p_column params)).
  set (entry := entryOf T (p_row params) (p_column params) (p_rule params)).
  destruct (msgMode_single T).
  - split; [repeat constructor; intros []|].
    cbn. now destruct (String.eqb key k).
  - split; [apply Obj_assign_nodup, Obj_assign_nodup; constructor|].
    rewrite Obj_assign_get by (repeat constructor; intros []).
    cbn [Obj.get Obj.set Obj.empty].
    destruct (String.eqb key k); [reflexivity|].
    rewrite Obj_assign_get by exact Hnodup.
    now destruct (Obj.get (validErrorMaps st) k).
Qed.

(** X10. [showValidTooltip] records the failure of the cell under the key
    of its row and column, with the rule and its message, marks the
    store as visible and tells the listeners.  In multi-message mode
    every other key of the error map reads as before; in single-message
    mode no other key is left. *)
Theorem showValidTooltip_records_the_cell (T : Table) (params : Params) (st : State) :
  NoDup (map fst (validErrorMaps st)) ->
  let st' := snd (showValidTooltip T params st) in
  let key := validKey T (p_row params) (p_column params) in
  Obj.get (validErrorMaps st') key
  = Some {| err_column := p_column params; err_row := p_row params;
            err_rule := p_rule params; err_content := Rule_content T (p_rule params) |}
  /\ (forall k, k <> key ->
        Obj.get (validErrorMaps st') k
        = if msgMode_single T then None else Obj.get (validErrorMaps st) k)
  /\ validStore_visible st' = true
  /\ In (DispatchEvent "valid-error" params) (effects st').
Proof.
  intros Hnodup st' key. split; [|split; [|split]].
  - unfold st'. destruct (showValidTooltip_get T params st key Hnodup) as [_ ->].
    fold key. now rewrite String.eqb_refl.
  - intros k Hk. unfold st'.
    destruct (showValidTooltip_get T params st k Hnodup) as [_ ->]. fold key.
    apply not_eq_sym, String.eqb_neq in Hk. now rewrite Hk.
  - unfold st', showValidTooltip, bind, gets, modify, ret.
    destruct (msgMode_single T); destruct (validTip st) as [b|];
      try destruct (str_is (validOpts_message T) "tooltip"
                    || str_is (validOpts_message T) "default" && negb (height T)
                       && (tableData_length T <? 2)%nat);
      reflexivity.
  - unfold st', showValidTooltip, bind, gets, modify, ret.
    destruct (msgMode_single T); destruct (validTip st) as [b|];
      try destruct (str_is (validOpts_message T) "tooltip"
                    || str_is (validOpts_message T) "default" && negb (height T)
                       && (tableData_length T <? 2)%nat);
      cbn; rewrite ?in_app_iff; cbn; tauto.
Qed.

Lemma showValidTooltip_records_the_cell_witness :
  let T := Demo.multiTable in
  let params := {| p_rule := NewRule (Demo.requiredRule "age is required");
                   p_row := Demo.row1; p_column := Demo.colAge; p_cell := None |} in
  let st' := snd (showValidTooltip T params (Demo.stateWith T)) in
  option_map err_content (Obj.get (validErrorMaps st') "r1:col_2")
  = Some "age is required"
  /\ Obj.get (validErrorMaps st') "r2:col_1" = Some (Demo.nameEntry T Demo.row2).
Proof.
  intros T params st'.
  destruct (showValidTooltip_records_the_cell T params (Demo.stateWith T))
    as (Hkey & Hother & _).
  - repeat constructor; cbn; intuition discriminate.
  - split.
    + change "r1:col_2" with (validKey T (p_row params) (p_column params)).
      unfold st'. rewrite Hkey. reflexivity.
    + unfold st'. rewrite Hother by discriminate. reflexivity.
Defined.

(** X11. Clearing a cell undoes showing its error: in multi-message mode,
    [showValidTooltip] for a cell followed by [clearValidate] with the
    row and the column of that cell leaves no entry under the key of the
    cell, and every other key of the error map reads as it did before
    the two calls. *)
Theorem clearValidate_undoes_showValidTooltip (T : Table) (params : Params)
  (st : State) (k : string) :
  msgMode_single T = false ->
  NoDup (map fst (validErrorMaps st)) ->
  handleFieldOrColumn T (OfColumn (p_column params)) = Some (p_column params) ->
  Obj.get (validErrorMaps
             (snd (clearValidate T (ArgOne (p_row params))
                     (ArgOne (OfColumn (p_column params)))
                     (snd (showValidTooltip T params st))))) k
  = if String.eqb k (validKey T (p_row params) (p_column params)) then None
    else Obj.get (validErrorMaps st) k.
Proof.
  intros Hmulti Hnodup Hcol.
  destruct (showValidTooltip_get T params st k Hnodup) as [Hnodup' Hget].
  rewrite (clearValidate_multi T (ArgOne (p_row params))
             (ArgOne (OfColumn (p_column params))) [p_column params] _ k Hmulti Hnodup')
    by (cbn; now rewrite Hcol).
  cbn [toList flat_map map app existsb]. rewrite orb_false_r, Hget, Hmulti.
  rewrite (String.eqb_sym k).
  now destruct (String.eqb (validKey T (p_row params) (p_column params)) k).
Qed.

Lemma clearValidate_undoes_showValidTooltip_witness :
  let T := Demo.multiTable in
  let params := {| p_rule := NewRule (Demo.requiredRule "age is required");
                   p_row := Demo.row1; p_column := Demo.colAge; p_cell := None |} in
  let st' := snd (clearValidate T (ArgOne Demo.row1) (ArgOne (OfColumn Demo.colAge))
                    (snd (showValidTooltip T params (Demo.stateWith T)))) in
  Obj.get (validErrorMaps st') "r1:col_2" = None
  /\ Obj.get (validErrorMaps st') "r1:col_1" = Some (Demo.nameEntry T Demo.row1).
Proof.
  intros T params st'. unfold st'.
  assert (Hnodup : NoDup (map fst (validErrorMaps (Demo.stateWith T))))
    by (repeat constructor; cbn; intuition discriminate).
  split.
  - exact (clearValidate_undoes_showValidTooltip T params (Demo.stateWith T) "r1:col_2"
             eq_refl Hnodup eq_refl).
  - exact (clearValidate_undoes_showValidTooltip T params (Demo.stateWith T) "r1:col_1"
             eq_refl Hnodup eq_refl).
Defined.

(** ** The rules of a cell *)

Lemma validRule_not_applying (E : Engine) (T : Table) (validType : string) (row : Row)
  (column : Column) (rules : list ValidatorRule) (cellValue : Value)
  (l : list ValidatorRule) (acc : list Rule * list Pending) (st : State) :
  (forall rule, In rule l -> applies validType rule = false) ->
  forEach (validRule E T validType row column rules cellValue) l acc st = (Ok acc, st).
Proof.
  induction l as [|rule l IH]; intros Hl; [reflexivity|].
  rewrite (forEach_cons_ok _ rule l acc st acc st).
  - apply IH. intros r Hr. apply Hl. now right.
  - unfold validRule. now rewrite (Hl rule (or_introl eq_refl)).
Qed.

(** X12. [hasCellRules] is a sound guard for [validCellRules]: where it
    answers [false], because the column has no field, the field has no
    rules, or no rule of the field applies to the trigger, the
    validation of the cell does nothing and its promise is fulfilled. *)
Theorem no_applicable_rule_no_validation (E : Engine) (T : Table) (type : string)
  (row : Row) (column : Column) (val : Value) (st : State) :
  hasCellRules T type row column = false ->
  validCellRules E T type row column val st
  = (Ok {| errorRules := []; syncValidList := [] |}, st).
Proof.
  unfold hasCellRules, validCellRules. intros Hno.
  destruct (fieldRules T (field column)) as [rules|]; [|reflexivity].
  destruct (field column) as [name|]; [|reflexivity].
  unfold bind. rewrite validRule_not_applying; [reflexivity|].
  intros rule Hrule. destruct (applies type rule) eqn:Happ; [|reflexivity].
  assert (Hex : existsb (applies type) rules = true)
    by (apply existsb_exists; now exists rule).
  congruence.
Qed.

Lemma no_applicable_rule_no_validation_witness :
  let blurRule :=
    {| required := true; min := None; max := None; type := None; pattern := None;
       validator := None; trigger := Some "blur"; content := None; message := None |} in
  let T := Demo.table (Some [("name", [blurRule])]) None None None 5%Z in
  validCellRules Demo.engine T "change" Demo.row1 Demo.colName VUndefined Demo.state0
  = (Ok {| errorRules := []; syncValidList := [] |}, Demo.state0)
  /\ fst (validCellRules Demo.engine T "blur" Demo.row1 Demo.colName VUndefined Demo.state0)
     = Ok {| errorRules := [NewRule blurRule]; syncValidList := [] |}.
Proof.
  intros blurRule T. split; [|reflexivity].
  apply (no_applicable_rule_no_validation Demo.engine T "change" Demo.row1 Demo.colName
           VUndefined Demo.state0). reflexivity.
Defined.

Lemma validRule_builtin (E : Engine) (T : Table) (validType : string) (row : Row)
  (column : Column) (rules : list ValidatorRule) (cellValue : Value)
  (rule : ValidatorRule) (acc : list Rule * list Pending) (st : State) :
  validator_given rule = None ->
  validRule E T validType row column rules cellValue rule acc st
  = if applies validType rule then
      match checkRuleStatus E rule cellValue with
      | Ok true => (Ok acc, st)
      | Ok false => (Ok ((fst acc ++ [NewRule rule])%list, snd acc), set_validRuleErr true st)
      | Throw e => (Throw e, st)
      end
    else (Ok acc, st).
Proof.
  intros Hno. unfold validRule. rewrite Hno.
  destruct (applies validType rule); [|reflexivity].
  now destruct (checkRuleStatus E rule cellValue) as [[|]|e].
Qed.

Lemma builtin_rules_walk (E : Engine) (T : Table) (validType : string) (row : Row)
  (column : Column) (rules : list ValidatorRule) (cellValue : Value)
  (l : list ValidatorRule) (errs : list Rule) (pend : list Pending) (st : State) :
  (forall rule, In rule l -> validator_given rule = None) ->
  (forall rule e, In rule l -> applies validType rule = true ->
                  checkRuleStatus E rule cellValue <> Throw e) ->
  let failed :=
    filter (fun rule =>
              applies validType rule
              && match checkRuleStatus E rule cellValue with
                 | Ok false => true
                 | _ => false
                 end) l in
  forEach (validRule E T validType row column rules cellValue) l (errs, pend) st
  = (Ok ((errs ++ map NewRule failed)%list, pend),
     if nonempty failed then set_validRuleErr true st else st).
Proof.
  revert errs st. induction l as [|rule l IH]; intros errs st Hbuiltin Hok failed.
  - unfold failed. cbn. now rewrite app_nil_r.
  - assert (Hstep := validRule_builtin E T validType row column rules cellValue rule
                       (errs, pend) st (Hbuiltin rule (or_introl eq_refl))).
    assert (Hbuiltin' : forall r, In r l -> validator_given r = None)
      by (intros r Hr; apply Hbuiltin; now right).
    assert (Hok' : forall r e, In r l -> applies validType r = true ->
                               checkRuleStatus E r cellValue <> Throw e)
      by (intros r e Hr; apply Hok; now right).
    unfold failed. cbn [filter].
    destruct (applies validType rule) eqn:Happ; cbn [andb].
    + destruct (checkRuleStatus E rule cellValue) as [[|]|e] eqn:Hcheck.
      * rewrite (forEach_cons_ok _ _ _ _ _ _ _ Hstep). now apply IH.
      * rewrite (forEach_cons_ok _ _ _ _ _ _ _ Hstep). cbn [fst snd].
        rewrite (IH _ _ Hbuiltin' Hok'). cbn [map nonempty].
        rewrite <- app_assoc. cbn [app]. f_equal.
        now destruct (nonempty _).
      * exfalso. now apply (Hok rule e (or_introl eq_refl) Happ).
    + rewrite (forEach_cons_ok _ _ _ _ _ _ _ Hstep). now apply IH.
Qed.

(** X13. A cell whose rules have no validator is checked against every
    rule that applies to the trigger, a failure not stopping the checks:
    [errorRules] gets the rules that fail, in the order of [editRules],
    so that the rule reported first is the first that fails; nothing is
    left pending; and [validRuleErr] is set exactly when a rule has
    failed. *)
Theorem builtin_rules_fail_in_order (E : Engine) (T : Table) (validType : string)
  (row : Row) (column : Column) (val : Value) (st : State)
  (rules : list ValidatorRule) (name : string) :
  fieldRules T (field column) = Some rules ->
  field column = Some name ->
  let cellValue := if isUndefined val then XEUtils_get E row name else val in
  (forall rule, In rule rules -> validator_given rule = None) ->
  (forall rule e, In rule rules -> applies validType rule = true ->
                  checkRuleStatus E rule cellValue <> Throw e) ->
  let failed :=
    filter (fun rule =>
              applies validType rule
              && match checkRuleStatus E rule cellValue with
                 | Ok false => true
                 | _ => false
                 end) rules in
  validCellRules E T validType row column val st
  = (Ok {| errorRules := map NewRule failed; syncValidList := [] |},
     if nonempty failed then set_validRuleErr true st else st).
Proof.
  intros Hrules Hname cellValue Hbuiltin Hok failed.
  unfold validCellRules. rewrite Hrules, Hname. unfold bind. fold cellValue.
  now rewrite (builtin_rules_walk E T validType row column rules cellValue rules [] [] st
                 Hbuiltin Hok).
Qed.

Lemma builtin_rules_fail_in_order_witness :
  let short :=
    {| required := false; min := Some (BNum (Fin 3%Q)); max := None; type := None;
       pattern := None; validator := None; trigger := None;
       content := Some "too short"; message := None |} in
  let digits :=
    {| required := false; min := None; max := None; type := Some "number";
       pattern := None; validator := None; trigger := None;
       content := Some "not a number"; message := None |} in
  let T := Demo.table (Some [("name", [short; Demo.requiredRule "required"; digits])])
             None None None 5%Z in
  let row := Demo.mkRow "r5" (VStr "ab") VNull in
  validCellRules Demo.engine T "all" row Demo.colName VUndefined Demo.state0
  = (Ok {| errorRules := [NewRule short; NewRule digits]; syncValidList := [] |},
     set_validRuleErr true Demo.state0).
Proof.
  intros short digits T row.
  rewrite (builtin_rules_fail_in_order Demo.engine T "all" row Demo.colName VUndefined
             Demo.state0 [short; Demo.requiredRule "required"; digits] "name"
             eq_refl eq_refl).
  - reflexivity.
  - intros rule [<-|[<-|[<-|[]]]]; reflexivity.
  - intros rule e [<-|[<-|[<-|[]]]] _; discriminate.
Defined.

Lemma checkRuleStatus_throw_inv (E : Engine) (rule : ValidatorRule) (val : Value)
  (e : Exn) :
  checkRuleStatus E rule val = Throw e ->
  isEmptyVal val = false
  /\ exists source,
       pattern rule = Some (PatString source) /\ source <> ""
       /\ RegExp_new E source = None /\ e = SyntaxError source.
Proof.
  intros Hthrow.
  assert (Hempty : isEmptyVal val = false).
  { unfold checkRuleStatus in Hthrow.
    destruct (isEmptyVal val); [|reflexivity].
    destruct (required rule); discriminate Hthrow. }
  split; [exact Hempty|].
  rewrite checkRuleStatus_not_empty in Hthrow by exact Hempty.
  now apply validRuleValue_throws, validREValue_throws in Hthrow.
Qed.

Lemma validRule_throw_inv (E : Engine) (T : Table) (validType : string) (row : Row)
  (column : Column) (rules : list ValidatorRule) (cellValue : Value)
  (rule : ValidatorRule) (acc : list Rule * list Pending) (st : State)
  (e : Exn) (st' : State) :
  validRule E T validType row column rules cellValue rule acc st = (Throw e, st') ->
  applies validType rule = true /\ validator_given rule = None
  /\ checkRuleStatus E rule cellValue = Throw e.
Proof.
  unfold validRule. destruct (applies validType rule); [|discriminate].
  destruct (validator_given rule) as [v|].
  - unfold bind, callValidator, errLog, modify, ret.
    destruct v as [name|fn].
    + destruct (validators T name) as [gvItem|]; [|discriminate].
      destruct (tableCellValidatorMethod gvItem) as [m|];
        [|destruct (cellValidatorMethod gvItem) as [m|]];
        try destruct (m _); discriminate.
    + destruct (inlineValidators T fn _); discriminate.
  - destruct (checkRuleStatus E rule cellValue) as [[|]|e'];
      unfold bind, modify, ret, throw; try discriminate.
    intros H. inversion H. auto.
Qed.

Lemma forEach_throw_inv {A B : Type} (f : A -> B -> M B) (l : list A) (acc : B)
  (st : State) (e : Exn) (st' : State) :
  forEach f l acc st = (Throw e, st') ->
  exists x acc1 st1, In x l /\ f x acc1 st1 = (Throw e, st').
Proof.
  revert acc st. induction l as [|x l IH]; intros acc st; cbn [forEach].
  - discriminate.
  - unfold bind. destruct (f x acc st) as [[acc1|e1] st1] eqn:Hf.
    + intros H. destruct (IH _ _ H) as (y & a & s & Hy & Hstep).
      exists y, a, s. split; [now right | exact Hstep].
    + intros H. inversion H. subst. exists x, acc, st. split; [now left | exact Hf].
Qed.

(** X14. The one exception [validCellRules] raises of its own is the
    SyntaxError of a pattern: it throws, instead of returning a rejected
    promise, only if a rule of the field that applies to the trigger and
    has no validator has for pattern a string that [new RegExp] rejects,
    and the value of the cell is not empty.  (What a custom validator
    throws is outside this model.) *)
Theorem validCellRules_throws_on_bad_pattern_only (E : Engine) (T : Table)
  (validType : string) (row : Row) (column : Column) (val : Value) (st : State)
  (e : Exn) (st' : State) :
  validCellRules E T validType row column val st = (Throw e, st') ->
  exists rules name rule source,
    fieldRules T (field column) = Some rules /\ field column = Some name
    /\ In rule rules /\ applies validType rule = true /\ validator_given rule = None
    /\ pattern rule = Some (PatString source) /\ RegExp_new E source = None
    /\ e = SyntaxError source
    /\ isEmptyVal (if isUndefined val then XEUtils_get E row name else val) = false.
Proof.
  unfold validCellRules.
  destruct (fieldRules T (field column)) as [rules|]; [|discriminate].
  destruct (field column) as [name|]; [|discriminate].
  unfold bind.
  destruct (forEach _ rules ([], []) st) as [[acc|e1] st1] eqn:Hwalk; [discriminate|].
  intros H. inversion H. subst e1 st1. clear H.
  apply forEach_throw_inv in Hwalk. destruct Hwalk as (rule & acc & s & Hin & Hstep).
  apply validRule_throw_inv in Hstep. destruct Hstep as (Happ & Hno & Hcheck).
  apply checkRuleStatus_throw_inv in Hcheck.
  destruct Hcheck as (Hempty & source & Hpat & _ & Hnew & ->).
  exists rules, name, rule, source. auto 10.
Qed.

Lemma validCellRules_throws_on_bad_pattern_only_witness :
  let broken :=
    {| required := false; min := None; max := None; type := None;
       pattern := Some (PatString "("); validator := None; trigger := None;
       content := None; message := None |} in
  let T := Demo.table (Some [("name", [broken])]) None None None 5%Z in
  fst (validCellRules Demo.engine T "all" Demo.row3 Demo.colName VUndefined Demo.state0)
  = Throw (SyntaxError "(")
  /\ fst (validCellRules Demo.engine T "all" Demo.row1 Demo.colName VUndefined Demo.state0)
     = Ok {| errorRules := []; syncValidList := [] |}.
Proof.
  intros broken T. split; [|reflexivity].
  destruct (validCellRules Demo.engine T "all" Demo.row3 Demo.colName VUndefined Demo.state0)
    as [[cp|e] st'] eqn:Hcall; [vm_compute in Hcall; discriminate Hcall|].
  destruct (validCellRules_throws_on_bad_pattern_only Demo.engine T "all" Demo.row3
              Demo.colName VUndefined Demo.state0 e st' Hcall)
    as (rules & name & rule & source & Hrules & _ & Hin & _ & _ & Hpat & _ & -> & _).
  inversion Hrules. subst rules. destruct Hin as [<-|[]].
  inversion Hpat. reflexivity.
Defined.

Lemma applies_trigger (validType : string) (rule : ValidatorRule) :
  applies validType rule = true ->
  validType = "all" \/ truthy_str (trigger rule) = false
  \/ trigger rule = Some validType.
Proof.
  unfold applies, str_is. intros H.
  apply orb_true_iff in H. destruct H as [H|H].
  - apply orb_true_iff in H. destruct H as [H|H].
    + left. now apply String.eqb_eq.
    + right. left. now apply negb_true_iff.
  - right. right. destruct (trigger rule) as [t|]; [|discriminate].
    apply String.eqb_eq in H. now subst.
Qed.

Lemma validRule_triggers (E : Engine) (T : Table) (validType : string) (row : Row)
  (column : Column) (rules : list ValidatorRule) (cellValue : Value)
  (rule : ValidatorRule) (acc : list Rule * list Pending) (st : State)
  (acc' : list Rule * list Pending) (st' : State) (ok : option string -> Prop) :
  (applies validType rule = true -> ok (trigger rule)) ->
  validRule E T validType row column rules cellValue rule acc st = (Ok acc', st') ->
  (forall r, In r (fst acc) -> ok (Rule_trigger r)) ->
  (forall p, In p (snd acc) -> ok (pend_trigger p)) ->
  (forall r, In r (fst acc') -> ok (Rule_trigger r))
  /\ (forall p, In p (snd acc') -> ok (pend_trigger p)).
Proof.
  intros Hok. unfold validRule.
  destruct (applies validType rule);
    [specialize (Hok eq_refl)|unfold ret; intros H; inversion H; now subst].
  assert (Herr : forall msg (r : Rule),
             (forall r0, In r0 (fst acc) -> ok (Rule_trigger r0)) ->
             In r (fst acc ++ [NewCustomRule (trigger rule) msg rule]) ->
             ok (Rule_trigger r)).
  { intros msg r Hacc Hr. apply in_app_iff in Hr.
    destruct Hr as [Hr|[<-|[]]]; [now apply Hacc | exact Hok]. }
  assert (Hpend : forall th (p : Pending),
             (forall p0, In p0 (snd acc) -> ok (pend_trigger p0)) ->
             In p (snd acc ++ [{| pend_trigger := trigger rule; pend_rule := rule;
                                  pend_promise := th |}]) ->
             ok (pend_trigger p)).
  { intros th p Hacc Hp. apply in_app_iff in Hp.
    destruct Hp as [Hp|[<-|[]]]; [now apply Hacc | exact Hok]. }
  destruct (validator_given rule) as [v|].
  - unfold bind, callValidator, errLog, modify, ret.
    destruct v as [name|fn].
    + destruct (validators T name) as [gvItem|].
      * destruct (tableCellValidatorMethod gvItem) as [m|];
          [|destruct (cellValidatorMethod gvItem) as [m|]];
          try destruct (m _);
          intros H Hr Hp; inversion H; subst; cbn [fst snd]; split; eauto.
      * intros H Hr Hp; inversion H; subst; split; auto.
    + destruct (inlineValidators T fn _);
        intros H Hr Hp; inversion H; subst; cbn [fst snd]; split; eauto.
  - destruct (checkRuleStatus E rule cellValue) as [[|]|e];
      unfold bind, modify, ret, throw; intros H Hr Hp; inversion H; subst;
      cbn [fst snd]; split; auto.
    intros r Hin. apply in_app_iff in Hin.
    destruct Hin as [Hin|[<-|[]]]; [now apply Hr | exact Hok].
Qed.

Lemma validCellRules_triggers (E : Engine) (T : Table) (validType : string)
  (row : Row) (column : Column) (val : Value) (st : State)
  (cp : CellPromise) (st' : State) (ok : option string -> Prop) :
  (forall rule, applies validType rule = true -> ok (trigger rule)) ->
  validCellRules E T validType row column val st = (Ok cp, st') ->
  (forall r, In r (errorRules cp) -> ok (Rule_trigger r))
  /\ (forall p, In p (syncValidList cp) -> ok (pend_trigger p)).
Proof.
  intros Hok. unfold validCellRules. intros Hcall.
  destruct (fieldRules T (field column)) as [rules|];
    [destruct (field column) as [name|]|];
    try (unfold ret in Hcall; inversion Hcall; subst; split; intros ? []).
  unfold bind in Hcall.
  destruct (forEach _ rules ([], []) st) as [[acc|e] st1] eqn:Hwalk; [|discriminate].
  unfold ret in Hcall. inversion Hcall. subst cp st1. clear Hcall.
  cbn [errorRules syncValidList].
  refine (forEach_invariant _
            (fun a _ => (forall r, In r (fst a) -> ok (Rule_trigger r))
                        /\ (forall p, In p (snd a) -> ok (pend_trigger p)))
            rules _ _ _ _ _ _ Hwalk); [|split; intros ? []].
  intros r a s a' s' _ [Hr Hp] Hstep.
  eapply (validRule_triggers E T validType row column rules _ r a s a' s' ok);
    [apply Hok | exact Hstep | exact Hr | exact Hp].
Qed.

Lemma settled_triggers (cp : CellPromise) (ok : option string -> Prop) :
  (forall r, In r (errorRules cp) -> ok (Rule_trigger r)) ->
  (forall p, In p (syncValidList cp) -> ok (pend_trigger p)) ->
  forall r, In r (settledErrorRules cp) -> ok (Rule_trigger r).
Proof.
  intros Herr Hpend r Hin. unfold settledErrorRules in Hin.
  apply in_app_iff in Hin. destruct Hin as [Hin|Hin]; [now apply Herr|].
  apply in_flat_map in Hin. destruct Hin as (p & Hp & Hrule).
  apply sort_by_in in Hp. unfold catchRule in Hrule.
  destruct (settlement (pend_promise p)); [destruct Hrule|].
  destruct Hrule as [<-|[]]. now apply Hpend.
Qed.

(** X15. The rules a cell fails with are rules of the trigger it was
    validated for: every rule [validCellRules] reports, at once or when a
    pending check is rejected, has no trigger or the trigger asked for,
    unless the validation was for ['all']. *)
Theorem failing_rules_match_the_trigger (E : Engine) (T : Table) (validType : string)
  (row : Row) (column : Column) (val : Value) (st : State)
  (cp : CellPromise) (st' : State) (rule : Rule) :
  validCellRules E T validType row column val st = (Ok cp, st') ->
  In rule (settledErrorRules cp) ->
  validType = "all" \/ truthy_str (Rule_trigger rule) = false
  \/ Rule_trigger rule = Some validType.
Proof.
  intros Hcall.
  destruct (validCellRules_triggers E T validType row column val st cp st'
              (fun t => validType = "all" \/ truthy_str t = false \/ t = Some validType)
              (applies_trigger validType) Hcall) as [Herr Hpend].
  exact (settled_triggers cp
           (fun t => validType = "all" \/ truthy_str t = false \/ t = Some validType)
           Herr Hpend rule).
Qed.

Lemma failing_rules_match_the_trigger_witness :
  let blurRule :=
    {| required := true; min := None; max := None; type := None; pattern := None;
       validator := None; trigger := Some "blur"; content := None; message := None |} in
  let T := Demo.table (Some [("name", [Demo.requiredRule "required"; blurRule])])
             None None None 5%Z in
  "blur" = "all" \/ truthy_str (Rule_trigger (NewRule blurRule)) = false
  \/ Rule_trigger (NewRule blurRule) = Some "blur".
Proof.
  intros blurRule T.
  destruct (validCellRules Demo.engine T "blur" Demo.row1 Demo.colName VUndefined
              Demo.state0) as [[cp|e] st'] eqn:Hcall;
    [|vm_compute in Hcall; discriminate Hcall].
  apply (failing_rules_match_the_trigger Demo.engine T "blur" Demo.row1 Demo.colName
           VUndefined Demo.state0 cp st' (NewRule blurRule) Hcall).
  vm_compute in Hcall. inversion Hcall. right. left. reflexivity.
Defined.

(** ** Custom validators *)

(** X16. The message of a custom rule that fails.  When the validator
    returns an [Error], the rule fails at once and its message is that of
    the [Error]: the [content] of the rule is not used, even if the
    [Error] has no message.  When the validator returns a promise, the
    check is left pending, and if the promise is rejected the message is
    that of the reason, or the [content] or [message] of the rule where
    the reason has none. *)
Theorem custom_failure_message (E : Engine) (T : Table) (validType : string)
  (row : Row) (column : Column) (rules : list ValidatorRule) (cellValue : Value)
  (rule : ValidatorRule) (v : Validator) (acc : list Rule * list Pending)
  (st st1 : State) (result : CustomValid) :
  applies validType rule = true ->
  validator_given rule = Some v ->
  callValidator T v
    {| vp_cellValue := cellValue; vp_rule := rule; vp_rules := rules;
       vp_row := row; vp_rowIndex := getRowIndex T row;
       vp_column := column; vp_columnIndex := getColumnIndex T column;
       vp_field := field column |} st = (Ok result, st1) ->
  (forall msg,
      result = CVError msg ->
      exists failed,
        validRule E T validType row column rules cellValue rule acc st
        = (Ok ((fst acc ++ [failed])%list, snd acc), set_validRuleErr true st1)
        /\ Rule_text failed = (if truthy_str msg then msg else None))
  /\ (forall p,
         result = CVThenable p ->
         exists pending,
           validRule E T validType row column rules cellValue rule acc st
           = (Ok (fst acc, (snd acc ++ [pending])%list), st1)
           /\ map Rule_text (catchRule pending)
              = match settlement p with
                | RejectedWith msg =>
                    [if truthy_str msg then msg
                     else if truthy_str (content rule) then content rule
                          else if truthy_str (message rule) then message rule else None]
                | Fulfilled => []
                end).
Proof.
  intros Happ Hv Hcall. unfold validRule. rewrite Happ, Hv. unfold bind. rewrite Hcall.
  split.
  - intros msg ->. eexists. split; [reflexivity|]. cbn. unfold or_str.
    now destruct (truthy_str msg).
  - intros p ->. eexists. split; [reflexivity|]. unfold catchRule. cbn.
    destruct (settlement p) as [|msg]; [reflexivity|]. cbn. unfold or_str.
    destruct (truthy_str msg) eqn:Hmsg; [now rewrite Hmsg|].
    destruct (truthy_str (content rule)) eqn:Hc; [now rewrite Hc|].
    reflexivity.
Qed.

Lemma custom_failure_message_witness :
  let T := Demo.multiTable in
  let rule := Demo.customRule (VInline "later1") "name is taken" in
  exists pending,
    validRule Demo.engine T "all" Demo.row1 Demo.colName [rule] (VStr "") rule ([], [])
      Demo.state0 = (Ok ([], [pending]), Demo.state0)
    /\ map Rule_text (catchRule pending) = [Some "taken"].
Proof.
  intros T rule.
  destruct (custom_failure_message Demo.engine T "all" Demo.row1 Demo.colName [rule]
              (VStr "") rule (VInline "later1") ([], []) Demo.state0 Demo.state0
              (Demo.rejectsLater 1
                 {| vp_cellValue := VStr ""; vp_rule := rule; vp_rules := [rule];
                    vp_row := Demo.row1; vp_rowIndex := 0%Z; vp_column := Demo.colName;
                    vp_columnIndex := 0%Z; vp_field := Some "name" |})
              eq_refl eq_refl eq_refl) as [_ Hlater].
  exact (Hlater _ eq_refl).
Defined.

Lemma validRule_quiet_validator (E : Engine) (T : Table) (validType : string)
  (row : Row) (column : Column) (rules : list ValidatorRule) (cellValue : Value)
  (rule : ValidatorRule) (fn : string) (acc : list Rule * list Pending) (st : State) :
  validator rule = Some (VInline fn) ->
  (forall p, inlineValidators T fn p = CVFalsy \/ inlineValidators T fn p = CVOther) ->
  validRule E T validType row column rules cellValue rule acc st = (Ok acc, st).
Proof.
  intros Hv Hquiet. unfold validRule, validator_given. rewrite Hv.
  destruct (applies validType rule); [|reflexivity].
  unfold bind, callValidator, ret.
  now destruct (Hquiet {| vp_cellValue := cellValue; vp_rule := rule; vp_rules := rules;
                          vp_row := row; vp_rowIndex := getRowIndex T row;
                          vp_column := column;
                          vp_columnIndex := getColumnIndex T column;
                          vp_field := field column |}) as [-> | ->].
Qed.

(** X17. A validator takes the place of the built-in checks of its rule:
    a cell whose rules all have a validator of the configuration that
    returns nothing, or a value that is neither an [Error] nor a
    promise, passes, whatever [required], [min], [max], [type] and
    [pattern] of the rules are and whatever the value is. *)
Theorem validator_replaces_builtin_checks (E : Engine) (T : Table) (validType : string)
  (row : Row) (column : Column) (val : Value) (st : State) :
  (forall rules rule,
      fieldRules T (field column) = Some rules -> In rule rules ->
      exists fn,
        validator rule = Some (VInline fn)
        /\ forall p, inlineValidators T fn p = CVFalsy \/ inlineValidators T fn p = CVOther) ->
  validCellRules E T validType row column val st
  = (Ok {| errorRules := []; syncValidList := [] |}, st).
Proof.
  intros Hquiet. unfold validCellRules.
  destruct (fieldRules T (field column)) as [rules|]; [|reflexivity].
  destruct (field column) as [name|]; [|reflexivity].
  specialize (Hquiet rules). unfold bind.
  assert (Hwalk : forall l acc,
             (forall rule, In rule l -> In rule rules) ->
             forEach (validRule E T validType row column rules
                        (if isUndefined val then XEUtils_get E row name else val))
               l acc st = (Ok acc, st)).
  { intros l. induction l as [|rule l IH]; intros acc Hl; [reflexivity|].
    destruct (Hquiet rule eq_refl (Hl rule (or_introl eq_refl))) as (fn & Hv & Hfn).
    rewrite (forEach_cons_ok _ rule l acc st acc st)
      by now apply (validRule_quiet_validator E T validType row column rules _ rule fn).
    apply IH. intros r Hr. apply Hl. now right. }
  now rewrite Hwalk.
Qed.

Lemma validator_replaces_builtin_checks_witness :
  let lax :=
    {| required := true; min := Some (BNum (Fin 5%Q)); max := None;
       type := Some "number"; pattern := Some (PatString "(");
       validator := Some (VInline "anything"); trigger := None;
       content := Some "never shown"; message := None |} in
  let T := Demo.table (Some [("name", [lax])]) None None None 5%Z in
  validCellRules Demo.engine T "all" Demo.row1 Demo.colName VUndefined Demo.state0
  = (Ok {| errorRules := []; syncValidList := [] |}, Demo.state0).
Proof.
  intros lax T.
  apply (validator_replaces_builtin_checks Demo.engine T "all" Demo.row1 Demo.colName
           VUndefined Demo.state0).
  intros rules rule Hrules Hin. inversion Hrules. subst rules.
  destruct Hin as [<-|[]]. exists "anything". split; [reflexivity|].
  intros p. left. reflexivity.
Defined.

(** ** Validation on an edit trigger *)

Lemma validCellRules_guard (E : Engine) (T : Table) (type : string)
  (row : Row) (column : Column) (val : Value) (st : State)
  (cp : CellPromise) (st' : State) :
  validCellRules E T type row column val st = (Ok cp, st') ->
  settledErrorRules cp <> [] ->
  hasCellRules T type row column = true.
Proof.
  intros Hcall Hfail. destruct (hasCellRules T type row column) eqn:Hguard; [reflexivity|].
  exfalso. apply Hfail. revert Hcall. unfold hasCellRules in Hguard. unfold validCellRules.
  destruct (fieldRules T (field column)) as [rules|];
    [destruct (field column) as [name|]|];
    try (unfold ret; intros H; inversion H; reflexivity).
  unfold bind. rewrite validRule_not_applying.
  - unfold ret. intros H. inversion H. reflexivity.
  - intros rule Hrule. destruct (applies type rule) eqn:Happ; [|reflexivity].
    assert (Hex : existsb (applies type) rules = true)
      by (apply existsb_exists; now exists rule).
    congruence.
Qed.

(** X18. On an edit trigger other than ['all'], a cell in edit that fails
    is always reported: [triggerValidate] shows the failure, so that the
    error map has the entry of the cell with the first rule that failed
    and ['valid-error'] is sent, and its promise is rejected with that
    rule, the row, the column and the cell. *)
Theorem triggerValidate_reports_the_failure (E : Engine) (T : Table) (type : string)
  (st : State) (args : Params) (cp : CellPromise) (st1 : State)
  (rule : Rule) (rules : list Rule) :
  editRules T <> None -> actived T = Some args -> editConfig T = true ->
  type <> "all" ->
  validCellRules E T type (p_row args) (p_column args) VUndefined
    (if msgMode_single T then set_validErrorMaps Obj.empty st else st) = (Ok cp, st1) ->
  settledErrorRules cp = rule :: rules ->
  let rest := {| p_rule := rule; p_row := p_row args; p_column := p_column args;
                 p_cell := p_cell args |} in
  exists st',
    triggerValidate E T type st = (Ok (Some rest), st')
    /\ Obj.get (validErrorMaps st') (validKey T (p_row args) (p_column args))
       = Some {| err_column := p_column args; err_row := p_row args; err_rule := rule;
                 err_content := Rule_content T rule |}
    /\ In (DispatchEvent "valid-error" rest) (effects st').
Proof.
  intros Hrules Hactive Hedit Htype Hcall Hfail rest.
  assert (Hguard : hasCellRules T type (p_row args) (p_column args) = true)
    by (apply (validCellRules_guard E T type _ _ _ _ cp st1 Hcall); now rewrite Hfail).
  assert (Htrigger : negb (truthy_str (Rule_trigger rule))
                     || str_is (Rule_trigger rule) type = true).
  { destruct (validCellRules_triggers E T type (p_row args) (p_column args) VUndefined
                (if msgMode_single T then set_validErrorMaps Obj.empty st else st) cp st1
                (fun t => negb (truthy_str t) || str_is t type = true)) as [Herr Hpend];
      [|exact Hcall|].
    - intros r. unfold applies. apply String.eqb_neq in Htype. now rewrite Htype.
    - apply (settled_triggers cp (fun t => negb (truthy_str t) || str_is t type = true)
               Herr Hpend). rewrite Hfail. now left. }
  unfold triggerValidate. rewrite Hactive, Hedit, Hguard.
  destruct (editRules T) as [rulesOf|]; [|congruence].
  unfold bind at 1.
  assert (Hfirst : (if msgMode_single T then modify (set_validErrorMaps Obj.empty)
                    else ret tt) st
                   = (Ok tt, if msgMode_single T then set_validErrorMaps Obj.empty st
                             else st))
    by now destruct (msgMode_single T).
  rewrite Hfirst. cbn [andb]. unfold bind at 1. rewrite Hcall.
  unfold bind at 1.
  set (st2 := snd ((if existsb rejected (syncValidList cp)
                    then modify (set_validRuleErr true) else ret tt) st1)).
  assert (H2 : (if existsb rejected (syncValidList cp)
                then modify (set_validRuleErr true) else ret tt) st1 = (Ok tt, st2))
    by (unfold st2; now destruct (existsb rejected (syncValidList cp))).
  rewrite H2, Hfail, Htrigger. fold rest. unfold bind.
  destruct (showValidTooltip_total T rest st2)
    as (st3 & mid & Hshow & Hmap & _).
  rewrite Hshow. exists st3. split; [reflexivity|]. split.
  - rewrite Hmap. destruct (msgMode_single T).
    + cbn. now rewrite String.eqb_refl.
    + rewrite Obj_assign_get by (repeat constructor; intros []).
      cbn. now rewrite String.eqb_refl.
  - assert (Hst3 : st3 = snd (showValidTooltip T rest st2)) by now rewrite Hshow.
    rewrite Hst3. clear.
    unfold showValidTooltip, bind, gets, modify, ret.
    destruct (msgMode_single T); destruct (validTip st2) as [b|];
      try destruct (str_is (validOpts_message T) "tooltip"
                    || str_is (validOpts_message T) "default" && negb (height T)
                       && (tableData_length T <? 2)%nat);
      cbn; rewrite ?in_app_iff; cbn; tauto.
Qed.

Lemma triggerValidate_reports_the_failure_witness :
  let args := {| p_rule := NewRule Demo.noRule; p_row := Demo.row1;
                 p_column := Demo.colName; p_cell := Some "td" |} in
  let T := Demo.withActive Demo.multiTable args (Some "cell") in
  let rest := {| p_rule := NewRule (Demo.requiredRule "name is required");
                 p_row := Demo.row1; p_column := Demo.colName; p_cell := Some "td" |} in
  fst (triggerValidate Demo.engine T "change" Demo.state0) = Ok (Some rest)
  /\ Obj.keys (validErrorMaps (snd (triggerValidate Demo.engine T "change" Demo.state0)))
     = ["r1:col_1"].
Proof.
  intros args T rest. split; [|reflexivity].
  assert (Hrules : editRules T <> None) by discriminate.
  assert (Htype : "change" <> "all") by discriminate.
  destruct (triggerValidate_reports_the_failure Demo.engine T "change" Demo.state0 args
              {| errorRules := [NewRule (Demo.requiredRule "name is required")];
                 syncValidList := [] |}
              (set_validRuleErr true Demo.state0)
              (NewRule (Demo.requiredRule "name is required")) []
              Hrules eq_refl eq_refl Htype eq_refl eq_refl)
    as (st' & Hcall & _).
  now rewrite Hcall.
Defined.

(** X19. In multi-message mode, a cell in edit that passes on an edit
    trigger has its entry cleared when the table edits by row, and only
    then: with [editOpts.mode] at ['row'] the entry of the cell goes and
    every other key reads as before; in any other mode the error map
    reads as before.  The promise is fulfilled. *)
Theorem triggerValidate_clears_in_row_mode (E : Engine) (T : Table) (type : string)
  (st : State) (args : Params) (cp : CellPromise) (st1 : State) (k : string) :
  editRules T <> None -> actived T = Some args -> editConfig T = true ->
  hasCellRules T type (p_row args) (p_column args) = true ->
  msgMode_single T = false ->
  NoDup (map fst (validErrorMaps st)) ->
  handleFieldOrColumn T (OfColumn (p_column args)) = Some (p_column args) ->
  validCellRules E T type (p_row args) (p_column args) VUndefined st = (Ok cp, st1) ->
  settledErrorRules cp = [] ->
  fst (triggerValidate E T type st) = Ok None
  /\ Obj.get (validErrorMaps (snd (triggerValidate E T type st))) k
     = if str_is (editOpts_mode T) "row"
          && String.eqb k (validKey T (p_row args) (p_column args))
       then None
       else Obj.get (validErrorMaps st) k.
Proof.
  intros Hrules Hactive Hedit Hguard Hmulti Hnodup Hcol Hcall Hpass.
  assert (Hrun : exists st',
             triggerValidate E T type st = (Ok None, st')
             /\ Obj.get (validErrorMaps st') k
                = if str_is (editOpts_mode T) "row"
                     && String.eqb k (validKey T (p_row args) (p_column args))
                  then None
                  else Obj.get (validErrorMaps st) k);
    [|destruct Hrun as (st' & -> & Hget); split; [reflexivity | exact Hget]].
  assert (Hmap1 : validErrorMaps st1 = validErrorMaps st)
    by (apply validCellRules_sameStore in Hcall; now destruct Hcall).
  unfold triggerValidate. rewrite Hactive, Hedit, Hguard, Hmulti.
  destruct (editRules T) as [rulesOf|]; [|congruence].
  unfold bind at 1. unfold ret at 1. cbn [andb]. unfold bind at 1. rewrite Hcall.
  unfold bind at 1.
  set (st2 := snd ((if existsb rejected (syncValidList cp)
                    then modify (set_validRuleErr true) else ret tt) st1)).
  assert (H2 : (if existsb rejected (syncValidList cp)
                then modify (set_validRuleErr true) else ret tt) st1 = (Ok tt, st2))
    by (unfold st2; now destruct (existsb rejected (syncValidList cp))).
  assert (Hmap2 : validErrorMaps st2 = validErrorMaps st)
    by (unfold st2; now destruct (existsb rejected (syncValidList cp))).
  rewrite H2, Hpass.
  destruct (str_is (editOpts_mode T) "row"); cbn [andb].
  - pose proof (clearValidate_multi T (ArgOne (p_row args))
                  (ArgOne (OfColumn (p_column args))) [p_column args] st2 k Hmulti) as Hclear.
    rewrite Hmap2 in Hclear. specialize (Hclear Hnodup).
    cbn [toList map flat_map app existsb] in Hclear. rewrite Hcol, orb_false_r in Hclear.
    specialize (Hclear eq_refl).
    destruct (clearValidate_outcome T (ArgOne (p_row args))
                (ArgOne (OfColumn (p_column args))) st2)
      as [(m & Hok & _)|(_ & _ & Hin)].
    + rewrite Hok in Hclear. unfold bind. rewrite Hok.
      eexists. split; [reflexivity | exact Hclear].
    + cbn in Hin. rewrite Hcol in Hin. destruct Hin as [Hin|[]]. discriminate Hin.
  - unfold bind, ret. eexists. split; [reflexivity|]. exact (f_equal (fun m => Obj.get m k) Hmap2).
Qed.

Lemma triggerValidate_clears_in_row_mode_witness :
  let args := {| p_rule := NewRule Demo.noRule; p_row := Demo.row3;
                 p_column := Demo.colName; p_cell := Some "td" |} in
  let T := Demo.withActive Demo.multiTable args (Some "row") in
  let st := set_validErrorMaps
              [("r3:col_1", Demo.nameEntry T Demo.row3);
               ("r2:col_1", Demo.nameEntry T Demo.row2)] Demo.state0 in
  let st' := snd (triggerValidate Demo.engine T "change" st) in
  Obj.get (validErrorMaps st') "r3:col_1" = None
  /\ Obj.get (validErrorMaps st') "r2:col_1" = Some (Demo.nameEntry T Demo.row2).
Proof.
  intros args T st st'.
  assert (Hrules : editRules T <> None) by discriminate.
  assert (Hnodup : NoDup (map fst (validErrorMaps st)))
    by (repeat constructor; cbn; intuition discriminate).
  pose proof (fun k =>
                triggerValidate_clears_in_row_mode Demo.engine T "change" st args
                  {| errorRules := []; syncValidList := [] |} st k
                  Hrules eq_refl eq_refl eq_refl eq_refl Hnodup eq_refl eq_refl eq_refl)
    as Hget.
  split.
  - destruct (Hget "r3:col_1") as [_ Hgone]. exact Hgone.
  - destruct (Hget "r2:col_1") as [_ Hkept]. exact Hkept.
Defined.

(** ** Starting a validation *)

Lemma prepared_explicit (T : Table) (st : State) :
  prepared T st
  = {| validErrorMaps := Obj.empty;
       validStore_visible := validStore_visible st;
       lastCallTime := Date_now T;
       validRuleErr := false;
       validTip := match validTip st with Some true => Some false | tip => tip end;
       effects := (effects st
                   ++ match validTip st with Some true => [TipClose] | _ => [] end)%list |}.
Proof.
  unfold prepared, clearValidate, bind, gets, modify, ret. cbn.
  destruct (validTip st) as [[|]|] eqn:Htip; destruct (msgMode_single T);
    unfold set_validErrorMaps, set_validTip, emit, set_validRuleErr, set_lastCallTime;
    cbn; rewrite ?app_nil_r, ?Htip; reflexivity.
Qed.

(** X20. A validation starts from a clean slate: the error map, the flag
    [validRuleErr] and the recorded time that earlier calls have left do
    not bear on what [beginValidate] returns, nor, then, on how the
    session ends. *)
Theorem validation_starts_clean (E : Engine) (T : Table) (rows : RowsArg)
  (cols : option (list (option Column))) (cb : option Callback) (isFull : bool)
  (stale : ErrMaps) (flag : bool) (time : Z) (st : State) :
  let st0 := set_validErrorMaps stale (set_validRuleErr flag (set_lastCallTime time st)) in
  beginValidate E T rows cols cb isFull st0 = beginValidate E T rows cols cb isFull st
  /\ run T (beginValidate E T rows cols cb isFull) st0
     = run T (beginValidate E T rows cols cb isFull) st.
Proof.
  intros st0.
  assert (Hbegin : beginValidate E T rows cols cb isFull st0
                   = beginValidate E T rows cols cb isFull st).
  { rewrite !beginValidate_walk.
    assert (Hprep : prepared T st0 = prepared T st) by now rewrite !prepared_explicit.
    now rewrite Hprep. }
  split; [exact Hbegin|]. unfold run, bind. now rewrite Hbegin.
Qed.

(** X21. On a table with no [editRules] a validation validates nothing:
    whatever the rows and columns, the error map is emptied, the
    callback, if there is one, is called with no argument, and the
    promise is fulfilled with nothing.  [triggerValidate] does nothing
    at all. *)
Theorem validation_without_rules (E : Engine) (T : Table) (rows : RowsArg)
  (cols : option (list (option Column))) (cb : option Callback) (isFull : bool)
  (st : State) :
  editRules T = None ->
  (exists st',
      run T (beginValidate E T rows cols cb isFull) st
      = (Ok {| settled := Resolved None; failures := Obj.empty |}, st')
      /\ validErrorMaps st' = Obj.empty
      /\ effects st'
         = (effects st
            ++ match validTip st with Some true => [TipClose] | _ => [] end
            ++ match callbackOf rows cb with
               | Some f => [CallCb f None]
               | None => []
               end)%list)
  /\ forall type, triggerValidate E T type st = (Ok None, st).
Proof.
  intros Hnone. split.
  - unfold run, bind. rewrite beginValidate_walk, Hnone, prepared_explicit.
    unfold settle, bind, callCb, modify, ret.
    destruct (callbackOf rows cb) as [f|]; eexists;
      (split; [reflexivity|]); (split; [reflexivity|]); cbn;
      rewrite <- ?app_assoc, ?app_nil_r; reflexivity.
  - intros type. unfold triggerValidate. rewrite Hnone. reflexivity.
Qed.

Lemma validation_without_rules_witness :
  let T := Demo.table None None None None 5%Z in
  run T (validate Demo.engine T (RowsCallback "done") None) (Demo.stateWith T)
  = (Ok {| settled := Resolved None; failures := Obj.empty |},
     emit (CallCb "done" None) (set_lastCallTime 5%Z Demo.state0)).
Proof.
  intros T.
  destruct (validation_without_rules Demo.engine T (RowsCallback "done") None None false
              (Demo.stateWith T) eq_refl) as [(st' & Hrun & _) _].
  unfold validate. rewrite Hrun. f_equal.
  vm_compute in Hrun. now inversion Hrun.
Defined.

(** ** Walking the rows *)

Lemma walk_to_null_column (E : Engine) (T : Table) (isFull : bool)
  (columns : list (option Column)) (rows : list Row) (acc : list (list ColVaild))
  (st : State) :
  validRuleErr st = false ->
  existsb (fun row => negb (skipped T row)) rows = true ->
  forEach (handleVaild E T isFull (None :: columns)) rows acc st
  = (Throw (TypeError "field"), st).
Proof.
  intros Hflag. induction rows as [|row rows IH]; [discriminate|].
  cbn [existsb forEach]. unfold bind at 1.
  destruct (skipped T row) eqn:Hskip; cbn [negb orb].
  - intros Hrest. rewrite handleVaild_skipped by exact Hskip. now apply IH.
  - intros _. unfold handleVaild. unfold skipped in Hskip.
    destruct (removeRowMaps T (getRowid T row)); [discriminate|].
    destruct (pendingRowMaps T (getRowid T row)); [discriminate|].
    destruct (isAggregateRecord T row); [discriminate|].
    unfold bind, gets. rewrite Hflag, orb_true_r. reflexivity.
Qed.

(** X22. [validateField] and [fullValidateField] for a field that names
    no column do not return a promise: on a table with rules, as soon as
    the walk comes to a row that it does not leave out, reading the
    field of the missing column throws a TypeError.  The error map has
    been emptied by then.  With no such row there is nothing to throw,
    and the session starts with no cell. *)
Theorem validateField_unknown_field (E : Engine) (T : Table) (rows : RowsArg)
  (fc : FieldOrColumn) (st : State) :
  editRules T <> None ->
  handleFieldOrColumn T fc = None ->
  let reached := existsb (fun row => negb (skipped T row))
                   (visited T (validListOf T rows)) in
  (reached = true ->
   exists st',
     validErrorMaps st' = Obj.empty
     /\ validateField E T rows (ArgOne fc) st = (Throw (TypeError "field"), st')
     /\ fullValidateField E T rows (ArgOne fc) st = (Throw (TypeError "field"), st'))
  /\ (reached = false ->
      exists st',
        validateField E T rows (ArgOne fc) st
        = (Ok (Walking {| s_isFull := false; s_cb := callbackOf rows None;
                          s_rowValidErrs := [] |}), st')).
Proof.
  intros Hrules Hnone reached.
  unfold validateField, fullValidateField. cbn [toList map nonempty]. rewrite Hnone.
  rewrite !beginValidate_walk. cbn [columnsOf].
  destruct (editRules T) as [rulesOf|]; [|congruence].
  destruct (prepared_state T st) as (Hmap & _ & Hflag).
  split.
  - intros Hreached. exists (prepared T st). split; [exact Hmap|].
    now rewrite !walk_to_null_column.
  - intros Hnot. exists (prepared T st).
    assert (Hwalk : forall l acc s,
               existsb (fun row => negb (skipped T row)) l = false ->
               forEach (handleVaild E T false [None]) l acc s = (Ok acc, s)).
    { intros l. induction l as [|row l IH]; intros acc s; [reflexivity|].
      cbn [existsb]. intros Hl. apply orb_false_iff in Hl. destruct Hl as [Hrow Hl].
      apply negb_false_iff in Hrow.
      rewrite (forEach_cons_ok _ row l acc s acc s) by now apply handleVaild_skipped.
      now apply IH. }
    now rewrite Hwalk.
Qed.

Lemma validateField_unknown_field_witness :
  let T := Demo.multiTable in
  fst (validateField Demo.engine T (RowsArray [Demo.row3]) (ArgOne (OfField "zip"))
         Demo.state0)
  = Throw (TypeError "field").
Proof.
  intros T.
  assert (Hrules : editRules T <> None) by discriminate.
  destruct (validateField_unknown_field Demo.engine T (RowsArray [Demo.row3])
              (OfField "zip") Demo.state0 Hrules eq_refl) as [Hthrow _].
  destruct (Hthrow eq_refl) as (st' & _ & -> & _). reflexivity.
Defined.

Lemma logsOnly_same (st st' : State) : effects st' = effects st -> logsOnly st st'.
Proof. intros Heq. exists []. split; [now rewrite app_nil_r | intros e []]. Qed.

Lemma logsOnly_refl (st : State) : logsOnly st st.
Proof. now apply logsOnly_same. Qed.

Lemma logsOnly_trans (st1 st2 st3 : State) :
  logsOnly st1 st2 -> logsOnly st2 st3 -> logsOnly st1 st3.
Proof.
  intros (l1 & H1 & Hl1) (l2 & H2 & Hl2). exists (l1 ++ l2)%list. split.
  - now rewrite H2, H1, app_assoc.
  - intros e He. apply in_app_iff in He. destruct He; auto.
Qed.

Lemma logsOnly_errLog (st : State) (key : string) (args : list string) :
  logsOnly st (emit (ErrLog key args) st).
Proof.
  exists [ErrLog key args]. split; [reflexivity|]. intros e [<-|[]]. eauto.
Qed.

Lemma validRule_logsOnly (E : Engine) (T : Table) (validType : string) (row : Row)
  (column : Column) (rules : list ValidatorRule) (cellValue : Value)
  (rule : ValidatorRule) (acc : list Rule * list Pending) (st : State)
  (r : Result (list Rule * list Pending)) (st' : State) :
  validRule E T validType row column rules cellValue rule acc st = (r, st') ->
  logsOnly st st'.
Proof.
  unfold validRule. destruct (applies validType rule).
  - destruct (validator_given rule) as [v|].
    + unfold bind, callValidator, errLog, modify, ret.
      destruct v as [name|fn].
      * destruct (validators T name) as [gvItem|].
        -- destruct (tableCellValidatorMethod gvItem) as [m|];
             [|destruct (cellValidatorMethod gvItem) as [m|]];
             try (destruct (m _));
             intros H; inversion H;
             first [now apply logsOnly_same | apply logsOnly_errLog].
        -- intros H; inversion H. apply logsOnly_errLog.
      * destruct (inlineValidators T fn _); intros H; inversion H; now apply logsOnly_same.
    + destruct (checkRuleStatus E rule cellValue) as [[|]|e];
        unfold bind, modify, ret, throw; intros H; inversion H; now apply logsOnly_same.
  - unfold ret. intros H. inversion H. apply logsOnly_refl.
Qed.

Lemma validCellRules_logsOnly (E : Engine) (T : Table) (validType : string)
  (row : Row) (column : Column) (val : Value) (st : State)
  (r : Result CellPromise) (st' : State) :
  validCellRules E T validType row column val st = (r, st') -> logsOnly st st'.
Proof.
  unfold validCellRules.
  destruct (fieldRules T (field column)) as [rules|];
    [destruct (field column) as [name|]|];
    try (unfold ret; intros H; inversion H; apply logsOnly_refl).
  unfold bind.
  destruct (forEach _ rules ([], []) st) as [[acc|e] st1] eqn:Hwalk;
    unfold ret; intros H; inversion H; subst;
    (eapply (forEach_frame _ logsOnly logsOnly_refl logsOnly_trans); [|exact Hwalk]);
    intros x a s0 r0 s0'; apply validRule_logsOnly.
Qed.

Lemma validColumn_logsOnly (E : Engine) (T : Table) (isFull : bool) (row : Row)
  (column : option Column) (colVailds : list ColVaild) (st : State)
  (r : Result (list ColVaild)) (st' : State) :
  validColumn E T isFull row column colVailds st = (r, st') -> logsOnly st st'.
Proof.
  unfold validColumn. destruct column as [c|].
  - unfold bind, gets, ret.
    destruct ((isFull || negb (validRuleErr st)) && hasRules T (field c)).
    + destruct (validCellRules E T "all" row c VUndefined st) as [[p|e] st1] eqn:Hcell;
        intros H; inversion H; subst; eapply validCellRules_logsOnly; exact Hcell.
    + intros H. inversion H. apply logsOnly_refl.
  - unfold throw. intros H. inversion H. apply logsOnly_refl.
Qed.

Lemma handleVaild_logsOnly (E : Engine) (T : Table) (isFull : bool)
  (columns : list (option Column)) (row : Row) (acc : list (list ColVaild))
  (st : State) (r : Result (list (list ColVaild))) (st' : State) :
  handleVaild E T isFull columns row acc st = (r, st') -> logsOnly st st'.
Proof.
  unfold handleVaild.
  destruct (removeRowMaps T (getRowid T row));
    [unfold ret; intros H; inversion H; apply logsOnly_refl|].
  destruct (pendingRowMaps T (getRowid T row));
    [unfold ret; intros H; inversion H; apply logsOnly_refl|].
  destruct (isAggregateRecord T row);
    [unfold ret; intros H; inversion H; apply logsOnly_refl|].
  unfold bind, gets, ret.
  destruct (isFull || negb (validRuleErr st));
    [|intros H; inversion H; apply logsOnly_refl].
  destruct (forEach _ columns [] st) as [[cv|e] st1] eqn:Hcols;
    intros H; inversion H; subst;
    (eapply (forEach_frame _ logsOnly logsOnly_refl logsOnly_trans); [|exact Hcols]);
    intros x a s0 r0 s0'; apply validColumn_logsOnly.
Qed.

(** X23. Until the promise it returns settles, a validation calls nothing
    outside but the tooltip, which it closes if it is visible, and the
    error log, for validators that are not registered: no callback is
    called, no event is sent and nothing is scrolled before the validate
    method has returned. *)
Theorem validation_calls_nothing_while_walking (E : Engine) (T : Table) (rows : RowsArg)
  (cols : option (list (option Column))) (cb : option Callback) (isFull : bool)
  (st : State) :
  exists logs,
    effects (snd (beginValidate E T rows cols cb isFull st))
    = (effects st
       ++ match validTip st with Some true => [TipClose] | _ => [] end
       ++ logs)%list
    /\ forall e, In e logs -> exists key args, e = ErrLog key args.
Proof.
  rewrite beginValidate_walk.
  assert (Hprep : effects (prepared T st)
                  = (effects st
                     ++ match validTip st with Some true => [TipClose] | _ => [] end)%list)
    by now rewrite prepared_explicit.
  destruct (editRules T) as [rulesOf|].
  - destruct (forEach _ _ [] (prepared T st)) as [r st'] eqn:Hwalk.
    assert (Hlogs : logsOnly (prepared T st) st').
    { eapply (forEach_frame _ logsOnly logsOnly_refl logsOnly_trans); [|exact Hwalk].
      intros x a s0 r0 s0'. apply handleVaild_logsOnly. }
    destruct Hlogs as (l & Heff & Hl). exists l. split; [|exact Hl].
    destruct r; cbn [snd]; now rewrite Heff, Hprep, app_assoc.
  - exists []. split; [|intros e []]. cbn. now rewrite Hprep, app_nil_r.
Qed.

Lemma validColumn_grows (E : Engine) (T : Table) (isFull : bool) (row : Row)
  (columns : list (option Column)) (colVailds : list ColVaild) (st : State)
  (colVailds' : list ColVaild) (st' : State) :
  forEach (validColumn E T isFull row) columns colVailds st = (Ok colVailds', st') ->
  forall c, In c colVailds -> In c colVailds'.
Proof.
  intros Hwalk.
  refine (forEach_invariant (validColumn E T isFull row)
            (fun cv _ => forall c, In c colVailds -> In c cv)
            columns _ _ _ _ _ _ Hwalk); [|auto].
  intros column cv s cv' s' _ Hcv. unfold validColumn.
  destruct column as [col|]; [|discriminate].
  unfold bind, gets, ret.
  destruct ((isFull || negb (validRuleErr s)) && hasRules T (field col)).
  - destruct (validCellRules E T "all" row col VUndefined s) as [[p|e] s1]; [|discriminate].
    intros H c Hc. inversion H. subst. apply in_app_iff. left. now apply Hcv.
  - intros H. inversion H. now subst.
Qed.

Lemma handleVaild_grows (E : Engine) (T : Table) (isFull : bool)
  (columns : list (option Column)) (rows : list Row) (acc : list (list ColVaild))
  (st : State) (acc' : list (list ColVaild)) (st' : State) :
  forEach (handleVaild E T isFull columns) rows acc st = (Ok acc', st') ->
  forall c, In c (List.concat acc) -> In c (List.concat acc').
Proof.
  intros Hwalk.
  refine (forEach_invariant (handleVaild E T isFull columns)
            (fun a _ => forall c, In c (List.concat acc) -> In c (List.concat a))
            rows _ _ _ _ _ _ Hwalk); [|auto].
  intros row a s a' s' _ Ha. unfold handleVaild.
  destruct (removeRowMaps T (getRowid T row));
    [unfold ret; intros H; inversion H; now subst|].
  destruct (pendingRowMaps T (getRowid T row));
    [unfold ret; intros H; inversion H; now subst|].
  destruct (isAggregateRecord T row);
    [unfold ret; intros H; inversion H; now subst|].
  unfold bind, gets, ret.
  destruct (isFull || negb (validRuleErr s)); [|intros H; inversion H; now subst].
  destruct (forEach _ columns [] s) as [[cv|e] s1]; [|discriminate].
  intros H c Hc. inversion H. subst. rewrite concat_app. apply in_app_iff. left.
  now apply Ha.
Qed.

(** While no cell fails at once, the columns of a row are validated alike
    by a full validation and by one that is not. *)
Lemma columns_agree (E : Engine) (T : Table) (row : Row)
  (columns : list (option Column)) (colVailds : list ColVaild) (st : State)
  (colVailds' : list ColVaild) (st' : State) :
  validRuleErr st = false ->
  forEach (validColumn E T true row) columns colVailds st = (Ok colVailds', st') ->
  (forall c, In c colVailds' -> errorRules (cv_promise c) = []) ->
  forEach (validColumn E T false row) columns colVailds st = (Ok colVailds', st')
  /\ validRuleErr st' = false.
Proof.
  revert colVailds st. induction columns as [|column columns IH]; intros cv st Hflag.
  - cbn [forEach]. unfold ret. intros H _. inversion H. subst. auto.
  - intros Hrest Hclean.
    destruct (validColumn E T true row column cv st) as [[cv1|e] st1] eqn:Hcol;
      [|cbn [forEach] in Hrest; unfold bind in Hrest; rewrite Hcol in Hrest;
        discriminate Hrest].
    rewrite (forEach_cons_ok _ _ _ _ _ _ _ Hcol) in Hrest.
    assert (Hstep : validColumn E T false row column cv st = (Ok cv1, st1)
                    /\ validRuleErr st1 = false).
    { unfold validColumn in Hcol |- *. destruct column as [c|]; [|discriminate].
      unfold bind, gets, ret in Hcol |- *. rewrite Hflag. cbn [negb orb andb] in Hcol |- *.
      split; [exact Hcol|].
      destruct (hasRules T (field c)); [|inversion Hcol; now subst].
      destruct (validCellRules E T "all" row c VUndefined st) as [[p|e] s1] eqn:Hcell;
        [|discriminate].
      inversion Hcol. subst cv1 s1.
      destruct (validRuleErr st1) eqn:Hst1; [|reflexivity]. exfalso.
      apply (validCellRules_flag E T "all" row c VUndefined st p st1 Hcell Hflag Hst1).
      apply (Hclean {| cv_row := row; cv_column := c;
                       cv_field := match field c with Some name => name | None => "" end;
                       cv_promise := p |}).
      apply (validColumn_grows E T true row columns _ st1 colVailds' st' Hrest).
      apply in_app_iff. right. now left. }
    destruct Hstep as [Hquick Hflag1].
    rewrite (forEach_cons_ok _ _ _ _ _ _ _ Hquick). now apply IH.
Qed.

Lemma rows_agree (E : Engine) (T : Table) (columns : list (option Column))
  (rows : list Row) (acc : list (list ColVaild)) (st : State)
  (acc' : list (list ColVaild)) (st' : State) :
  validRuleErr st = false ->
  forEach (handleVaild E T true columns) rows acc st = (Ok acc', st') ->
  (forall c, In c (List.concat acc') -> errorRules (cv_promise c) = []) ->
  forEach (handleVaild E T false columns) rows acc st = (Ok acc', st')
  /\ validRuleErr st' = false.
Proof.
  revert acc st. induction rows as [|row rows IH]; intros acc st Hflag.
  - cbn [forEach]. unfold ret. intros H _. inversion H. subst. auto.
  - intros Hrest Hclean.
    destruct (handleVaild E T true columns row acc st) as [[acc1|e] st1] eqn:Hrow;
      [|cbn [forEach] in Hrest; unfold bind in Hrest; rewrite Hrow in Hrest;
        discriminate Hrest].
    rewrite (forEach_cons_ok _ _ _ _ _ _ _ Hrow) in Hrest.
    assert (Hstep : handleVaild E T false columns row acc st = (Ok acc1, st1)
                    /\ validRuleErr st1 = false).
    { unfold handleVaild in Hrow |- *.
      destruct (removeRowMaps T (getRowid T row));
        [unfold ret in Hrow; inversion Hrow; subst; auto|].
      destruct (pendingRowMaps T (getRowid T row));
        [unfold ret in Hrow; inversion Hrow; subst; auto|].
      destruct (isAggregateRecord T row);
        [unfold ret in Hrow; inversion Hrow; subst; auto|].
      unfold bind, gets, ret in Hrow |- *. rewrite Hflag. cbn [negb orb] in Hrow |- *.
      destruct (forEach (validColumn E T true row) columns [] st) as [[cv|e] s1] eqn:Hcols;
        [|discriminate].
      inversion Hrow. subst acc1 s1.
      destruct (columns_agree E T row columns [] st cv st1 Hflag Hcols) as [-> Hflag1];
        [|auto].
      intros c Hc. apply Hclean.
      apply (handleVaild_grows E T true columns rows _ st1 acc' st' Hrest).
      rewrite concat_app. apply in_app_iff. right. cbn. now rewrite app_nil_r. }
    destruct Hstep as [Hquick Hflag1].
    rewrite (forEach_cons_ok _ _ _ _ _ _ _ Hquick). now apply IH.
Qed.

(** X24. [validate] and [fullValidate] part ways only at a failure that
    is found at once: where the walk of a full validation meets no cell
    with a rule that fails synchronously, a validation of the same rows
    and columns that is not full validates the same cells, with the same
    promises, and leaves the same state.  A check that is still pending,
    and may be rejected later, does not stop the walk. *)
Theorem quick_validation_agrees_until_a_failure (E : Engine) (T : Table)
  (rows : RowsArg) (cols : option (list (option Column))) (cb : option Callback)
  (st : State) (full : Session) (st' : State) :
  beginValidate E T rows cols cb true st = (Ok (Walking full), st') ->
  (forall c, In c (List.concat (s_rowValidErrs full)) -> errorRules (cv_promise c) = []) ->
  beginValidate E T rows cols cb false st
  = (Ok (Walking {| s_isFull := false; s_cb := s_cb full;
                    s_rowValidErrs := s_rowValidErrs full |}), st').
Proof.
  rewrite !beginValidate_walk. destruct (editRules T) as [rulesOf|]; [|discriminate].
  destruct (forEach (handleVaild E T true (columnsOf T cols)) _ [] (prepared T st))
    as [[acc|e] st1] eqn:Hwalk; [|discriminate].
  intros H Hclean. inversion H. subst full st1. cbn [s_cb s_rowValidErrs] in *.
  destruct (prepared_state T st) as (_ & _ & Hflag).
  destruct (rows_agree E T _ _ [] _ acc st' Hflag Hwalk Hclean) as [-> _].
  reflexivity.
Qed.

Lemma quick_validation_agrees_until_a_failure_witness :
  let T := Demo.table (Some Demo.mixedRules) None (Some false) None 5%Z in
  exists s st',
    validate Demo.engine T (RowsArray [Demo.row1; Demo.row3]) None Demo.state0
    = (Ok (Walking s), st')
    /\ map (fun c => (Demo.rowidOf (cv_row c), cv_field c, failing c))
         (List.concat (s_rowValidErrs s))
       = [("r1", "name", true); ("r1", "age", false);
          ("r3", "name", false); ("r3", "age", false)].
Proof.
  intros T.
  destruct (fullValidate Demo.engine T (RowsArray [Demo.row1; Demo.row3]) None Demo.state0)
    as [[[cb|full]|e] st'] eqn:Hfull; try (vm_compute in Hfull; discriminate Hfull).
  pose proof (quick_validation_agrees_until_a_failure Demo.engine T
                (RowsArray [Demo.row1; Demo.row3]) None None Demo.state0 full st' Hfull)
    as Hquick.
  vm_compute in Hfull. inversion Hfull. subst full st'. clear Hfull.
  eexists. eexists. split.
  - apply Hquick. intros c [<-|[<-|[<-|[<-|[]]]]]; reflexivity.
  - reflexivity.
Defined.

(** ** How a session ends *)

Lemma handleErrMsgMode_empty (T : Table) : handleErrMsgMode T Obj.empty = Obj.empty.
Proof. unfold handleErrMsgMode. now destruct (msgMode_single T). Qed.

Lemma passing_cell_has_no_rejection (c : ColVaild) (p : Pending) :
  failing c = false -> In p (syncValidList (cv_promise c)) -> rejected p = false.
Proof.
  unfold failing, settledErrorRules. intros Hpass Hp.
  destruct (rejected p) eqn:Hrej; [|reflexivity]. exfalso.
  apply (sort_by_in (fun p => settlesAt (pend_promise p))) in Hp.
  apply in_split in Hp. destruct Hp as (l1 & l2 & Hsplit).
  rewrite Hsplit, flat_map_app in Hpass. cbn [flat_map] in Hpass.
  unfold rejected in Hrej. unfold catchRule at 2 in Hpass.
  destruct (settlement (pend_promise p)); [discriminate|].
  destruct (errorRules (cv_promise c)); [|discriminate].
  destruct (flat_map catchRule l1); discriminate.
Qed.

Lemma filter_none {A : Type} (f : A -> bool) (l : list A) :
  (forall x, In x l -> f x = false) -> filter f l = [].
Proof.
  induction l as [|x l IH]; intros Hl; simpl; [reflexivity|].
  rewrite (Hl x (or_introl eq_refl)). apply IH. intros y Hy. apply Hl. now right.
Qed.

Lemma existsb_none {A : Type} (f : A -> bool) (l : list A) :
  (forall x, In x l -> f x = false) -> existsb f l = false.
Proof.
  induction l as [|x l IH]; intros Hl; simpl; [reflexivity|].
  rewrite (Hl x (or_introl eq_refl)). apply IH. intros y Hy. apply Hl. now right.
Qed.

(** X25. A session in which no cell fails ends well: the promise is
    fulfilled with nothing, [validRest] is empty, the error map is set to
    the empty map, and the callback, if there is one, is called once with
    no argument.  Nothing is scrolled, edited or shown. *)
Theorem session_without_failure (T : Table) (s : Session) (st : State) :
  (forall c, In c (List.concat (s_rowValidErrs s)) -> failing c = false) ->
  settle T (Walking s) st
  = (Ok {| settled := Resolved None; failures := Obj.empty |},
     match s_cb s with
     | Some f => emit (CallCb f None) (set_validErrorMaps Obj.empty st)
     | None => set_validErrorMaps Obj.empty st
     end).
Proof.
  intros Hpass.
  assert (Hpass' : forall c, In c (settleOrder s) -> failing c = false)
    by (intros c Hc; now apply Hpass, settleOrder_in).
  assert (Hnone : filter failing (settleOrder s) = []) by now apply filter_none.
  assert (Hcollected : collected T s = (Obj.empty, Obj.empty))
    by (unfold collected; now apply collect_passing).
  assert (Hfirst : firstErrParams T s = None).
  { unfold firstErrParams. rewrite Hcollected, Hnone. now destruct (s_isFull s). }
  unfold settle. rewrite Hfirst, Hcollected. cbn [fst snd].
  rewrite handleErrMsgMode_empty.
  rewrite (existsb_none failing (settleOrder s) Hpass'), andb_false_r, orb_false_r.
  rewrite existsb_none.
  - unfold bind, callCb, modify, ret. now destruct (s_cb s).
  - intros p Hp. apply in_flat_map in Hp. destruct Hp as (c & Hc & Hp).
    now apply (passing_cell_has_no_rejection c p); [apply Hpass'|].
Qed.

Lemma session_without_failure_witness :
  let T := Demo.multiTable in
  run T (validate Demo.engine T (RowsArray [Demo.row3]) (Some "done")) (Demo.stateWith T)
  = (Ok {| settled := Resolved None; failures := Obj.empty |},
     emit (CallCb "done" None) (set_lastCallTime 5%Z Demo.state0)).
Proof.
  intros T. unfold run, bind.
  destruct (validate Demo.engine T (RowsArray [Demo.row3]) (Some "done") (Demo.stateWith T))
    as [[[cb|s]|e] st1] eqn:Hcall; try (vm_compute in Hcall; discriminate Hcall).
  rewrite (session_without_failure T s st1).
  - vm_compute in Hcall. inversion Hcall. reflexivity.
  - vm_compute in Hcall. inversion Hcall. intros c [<-|[]]. reflexivity.
Defined.

(** X26. With [autoPos] set to [false] a failing session positions
    nothing and shows nothing: the table is not scrolled, no cell is put
    in edit, no ['valid-error'] event is sent and the tooltip is not
    touched; the one call that leaves the module is the callback.  The
    error map gets the failures of a full validation; a validation that
    is not full and fails leaves the error map as it finds it. *)
Theorem failure_without_positioning (T : Table) (s : Session) (st : State) :
  autoPos_false T = true ->
  let st' := snd (settle T (Walking s) st) in
  effects st' = (effects st ++ settledCall T s)%list
  /\ validTip st' = validTip st
  /\ validStore_visible st' = validStore_visible st
  /\ validErrorMaps st'
     = match firstErrParams T s with
       | Some _ =>
           if s_isFull s then handleErrMsgMode T (snd (collected T s))
           else validErrorMaps st
       | None => handleErrMsgMode T (snd (collected T s))
       end.
Proof.
  intros Hauto. unfold settle, settledCall, finish, callCb. rewrite Hauto.
  set (flag := existsb _ _ || _).
  destruct (firstErrParams T s) as [first|]; unfold bind, modify, ret;
    destruct flag; destruct (s_isFull s); destruct (s_cb s) as [f|];
    try destruct (str_is (validToReject T) "obsolete");
    cbn; rewrite ?app_nil_r; auto.
Qed.

Lemma failure_without_positioning_witness :
  let T := Demo.multiTable in
  let st' := snd (run T (validate Demo.engine T (RowsArray [Demo.row1]) (Some "done"))
                    Demo.state0) in
  map (fun e => match e with CallCb f (Some _) => f | _ => "" end) (effects st')
  = ["done"]
  /\ validErrorMaps st' = Obj.empty.
Proof.
  intros T st'. unfold st', run, bind.
  destruct (validate Demo.engine T (RowsArray [Demo.row1]) (Some "done") Demo.state0)
    as [[[cb|s]|e] st1] eqn:Hcall; try (vm_compute in Hcall; discriminate Hcall).
  destruct (failure_without_positioning T s st1 eq_refl) as (Heff & _ & _ & Hmap).
  rewrite Heff, Hmap.
  vm_compute in Hcall. inversion Hcall. subst s st1. clear.
  split; vm_compute; reflexivity.
Defined.

(** X27. With [autoPos] not [false] a failing session goes to its first
    failure before it ends: it scrolls to the row and column, scrolls the
    cell into view, puts the cell in edit, and, through
    [showValidTooltip], sends ['valid-error'] and may open the tooltip on
    the cell with the message of the rule; the callback comes last. *)
Theorem failure_positions_on_first_error (T : Table) (s : Session) (st : State)
  (first : Rest) :
  firstErrParams T s = Some first ->
  autoPos_false T = false ->
  let cell := getCellElement T (rest_row first) (rest_column first) in
  let params := {| p_rule := rest_rule first; p_row := rest_row first;
                   p_column := rest_column first; p_cell := cell |} in
  exists tip,
    effects (snd (settle T (Walking s) st))
    = (effects st
       ++ [ScrollToRow (rest_row first) (rest_column first); ScrollToView cell;
           HandleEdit params; DispatchEvent "valid-error" params]
       ++ tip ++ settledCall T s)%list
    /\ (tip = [] \/ tip = [TipOpen cell (Rule_content T (rest_rule first))])
    /\ validStore_visible (snd (settle T (Walking s) st)) = true.
Proof.
  intros Hfirst Hauto cell params.
  unfold settle, settledCall, finish, callCb, handleValidError, showValidTooltip.
  rewrite Hfirst, Hauto. fold cell. fold params.
  set (flag := existsb _ _ || _).
  unfold bind, modify, ret, gets.
  destruct flag; destruct (s_isFull s); destruct (msgMode_single T);
    cbn [validTip set_validRuleErr set_validErrorMaps emit set_validStore_visible];
    destruct (validTip st) as [b|];
    try destruct (str_is (validOpts_message T) "tooltip"
                  || str_is (validOpts_message T) "default" && negb (height T)
                     && (tableData_length T <? 2)%nat);
    destruct (s_cb s) as [f|];
    try destruct (str_is (validToReject T) "obsolete");
    cbn; rewrite <- ?app_assoc; cbn;
    first [ exists []; split; [reflexivity | split; [now left | reflexivity]]
          | eexists [_]; split; [reflexivity | split; [now right | reflexivity]] ].
Qed.

Lemma failure_positions_on_first_error_witness :
  let T := Demo.table (Some Demo.nameRequired) None None None 5%Z in
  let params := {| p_rule := NewRule (Demo.requiredRule "name is required");
                   p_row := Demo.row1; p_column := Demo.colName; p_cell := None |} in
  effects (snd (run T (validate Demo.engine T (RowsArray [Demo.row1; Demo.row2]) None)
                  Demo.state0))
  = [ScrollToRow Demo.row1 Demo.colName; ScrollToView None; HandleEdit params;
     DispatchEvent "valid-error" params].
Proof.
  intros T params. unfold run, bind.
  destruct (validate Demo.engine T (RowsArray [Demo.row1; Demo.row2]) None Demo.state0)
    as [[[cb|s]|e] st1] eqn:Hcall; try (vm_compute in Hcall; discriminate Hcall).
  vm_compute in Hcall. inversion Hcall. subst s st1. clear Hcall.
  match goal with
  | |- effects (snd (settle T (Walking ?s) ?st)) = _ =>
      destruct (failure_positions_on_first_error T s st
                  {| rest_rule := NewRule (Demo.requiredRule "name is required");
                     rest_rules := [NewRule (Demo.requiredRule "name is required")];
                     rest_rowIndex := 0%Z; rest_row := Demo.row1;
                     rest_columnIndex := 0%Z; rest_column := Demo.colName;
                     rest_field := "name" |} eq_refl eq_refl)
        as (tip & Heff & [->| ->] & _);
      rewrite Heff
  end.
  - reflexivity.
  - exfalso. vm_compute in Heff. discriminate Heff.
Defined.

(** ** Which failure comes first *)

Lemma sort_by_constant {A : Type} (key : A -> nat) (l : list A) (n : nat) :
  (forall x, In x l -> key x = n) -> sort_by key l = l.
Proof.
  unfold sort_by. induction l as [|x l IH]; intros Hl; cbn [fold_right]; [reflexivity|].
  rewrite IH by (intros y Hy; apply Hl; now right).
  destruct l as [|y l']; [reflexivity|]. cbn [insert_by].
  rewrite (Hl x (or_introl eq_refl)), (Hl y (or_intror (or_introl eq_refl))).
  now rewrite Nat.leb_refl.
Qed.

(** The first failure that is filed keeps the first place in [validRest]. *)
Lemma collect_head (T : Table) (l : list ColVaild) (acc : ValidRest * ErrMaps)
  (f : string) (rest : Rest) (rs : list Rest) (others : ValidRest) :
  fst acc = (f, rest :: rs) :: others ->
  exists rs' others',
    fst (fold_left (fun acc c => catchCell T c acc) l acc) = (f, rest :: rs') :: others'.
Proof.
  revert acc rs others. induction l as [|c l IH]; intros acc rs others Hacc;
    cbn [fold_left].
  - now exists rs, others.
  - unfold catchCell at 2.
    destruct (settledErrorRules (cv_promise c)) as [|rule rules]; [now apply (IH acc rs others)|].
    rewrite Hacc. cbn [Obj.set Obj.get].
    destruct (String.eqb f (cv_field c)); eapply IH; reflexivity.
Qed.

Lemma collect_fields (T : Table) (l : list ColVaild) (acc : ValidRest * ErrMaps)
  (k : string) (rs : list Rest) :
  In (k, rs) (fst (fold_left (fun acc c => catchCell T c acc) l acc)) ->
  (exists rs0, In (k, rs0) (fst acc)) \/ exists c, In c l /\ cv_field c = k.
Proof.
  revert acc. induction l as [|c l IH]; intros acc; cbn [fold_left].
  - intros H. left. now exists rs.
  - intros H. destruct (IH _ H) as [(rs0 & Hin)|(c' & Hc' & Hk)].
    + unfold catchCell in Hin.
      destruct (settledErrorRules (cv_promise c)) as [|rule rules]; [left; now exists rs0|].
      cbn [fst] in Hin. apply Obj_set_in in Hin.
      destruct Hin as [[-> _]|Hin]; [right; exists c; split; [now left | reflexivity]|].
      left. now exists rs0.
    + right. exists c'. split; [now right | exact Hk].
Qed.

(** X28. Which failure a session goes to.  When every check of the
    session is made at once, with no validator leaving a promise
    pending, the first failure, on which the table is positioned, is
    that of the first failing cell in the order of the walk, rows first
    and then columns; in a validation that is not full and, as long as
    no field name is an array index, in a full one. *)
Theorem first_failure_is_the_first_failing_cell (T : Table) (s : Session) :
  (forall c, In c (List.concat (s_rowValidErrs s)) -> syncValidList (cv_promise c) = []) ->
  (s_isFull s = true ->
   forall c, In c (List.concat (s_rowValidErrs s)) -> Obj.array_index (cv_field c) = None) ->
  firstErrParams T s
  = match filter (fun c => nonempty (errorRules (cv_promise c)))
            (List.concat (s_rowValidErrs s)) with
    | c :: _ =>
        match errorRules (cv_promise c) with
        | rule :: rules =>
            Some {| rest_rule := rule; rest_rules := rule :: rules;
                    rest_rowIndex := getRowIndex T (cv_row c); rest_row := cv_row c;
                    rest_columnIndex := getColumnIndex T (cv_column c);
                    rest_column := cv_column c; rest_field := cv_field c |}
        | [] => None
        end
    | [] => None
    end.
Proof.
  intros Hsync Hnames.
  assert (Horder : settleOrder s = List.concat (s_rowValidErrs s)).
  { unfold settleOrder. apply (sort_by_constant _ _ 0).
    intros c Hc. unfold cellSettlesAt. now rewrite (Hsync c Hc). }
  assert (Hrules : forall c, In c (List.concat (s_rowValidErrs s)) ->
                             settledErrorRules (cv_promise c) = errorRules (cv_promise c)).
  { intros c Hc. unfold settledErrorRules. rewrite (Hsync c Hc). cbn. apply app_nil_r. }
  assert (Hfilter : filter failing (List.concat (s_rowValidErrs s))
                    = filter (fun c => nonempty (errorRules (cv_promise c)))
                        (List.concat (s_rowValidErrs s))).
  { apply filter_ext_in. intros c Hc. unfold failing. now rewrite Hrules. }
  unfold firstErrParams, collected. rewrite Horder.
  destruct (s_isFull s) eqn:Hfull.
  - specialize (Hnames eq_refl). rewrite <- Hfilter. clear Hfilter Horder Hsync.
    revert Hnames Hrules.
    generalize (List.concat (s_rowValidErrs s)) as l. intros l.
    induction l as [|c l IH]; intros Hnames Hrules; [reflexivity|].
    assert (Hfail : failing c = nonempty (errorRules (cv_promise c)))
      by (unfold failing; now rewrite (Hrules c (or_introl eq_refl))).
    cbn [fold_left filter]. rewrite Hfail.
    destruct (errorRules (cv_promise c)) as [|rule rules] eqn:Herr.
    + assert (Hcatch : catchCell T c (Obj.empty, Obj.empty) = (Obj.empty, Obj.empty))
        by (unfold catchCell; now rewrite (Hrules c (or_introl eq_refl)), Herr).
      rewrite Hcatch. cbn [nonempty].
      apply IH; intros c' Hc'; [apply Hnames | apply Hrules]; now right.
    + assert (Hcatch : catchCell T c (Obj.empty, Obj.empty)
                       = ([(cv_field c, [restOf T c rule (rule :: rules)])],
                          [(validKey T (cv_row c) (cv_column c),
                            entryOf T (cv_row c) (cv_column c) rule)]))
        by (unfold catchCell; now rewrite (Hrules c (or_introl eq_refl)), Herr).
      rewrite Hcatch. cbn [nonempty].
      destruct (collect_head T l
                  ([(cv_field c, [restOf T c rule (rule :: rules)])],
                   [(validKey T (cv_row c) (cv_column c),
                     entryOf T (cv_row c) (cv_column c) rule)])
                  (cv_field c) (restOf T c rule (rule :: rules)) [] [] eq_refl)
        as (rs' & others' & Hhead).
      assert (Hkeys : forall k v,
                 In (k, v)
                   (fst (fold_left (fun acc c0 => catchCell T c0 acc) l
                           ([(cv_field c, [restOf T c rule (rule :: rules)])],
                            [(validKey T (cv_row c) (cv_column c),
                              entryOf T (cv_row c) (cv_column c) rule)]))) ->
                 Obj.array_index k = None).
      { intros k v Hin. apply collect_fields in Hin.
        destruct Hin as [(rs0 & [H|[]])|(c' & Hc' & <-)].
        - inversion H. apply Hnames. now left.
        - apply Hnames. now right. }
      unfold Obj.keys. rewrite (Obj_entries_named _ Hkeys), Hhead.
      cbn [map fst Obj.get]. now rewrite String.eqb_refl, Herr.
  - rewrite <- Hfilter.
    destruct (filter failing (List.concat (s_rowValidErrs s))) as [|c cs] eqn:Hfail;
      [reflexivity|].
    assert (Hc : In c (List.concat (s_rowValidErrs s))).
    { assert (H : In c (c :: cs)) by now left. rewrite <- Hfail in H.
      now apply filter_In in H. }
    rewrite (Hrules c Hc). now destruct (errorRules (cv_promise c)).
Qed.

Lemma first_failure_is_the_first_failing_cell_witness :
  let T := Demo.multiTable in
  exists s st',
    fullValidate Demo.engine T (RowsArray [Demo.row3; Demo.row2; Demo.row1]) None
      Demo.state0 = (Ok (Walking s), st')
    /\ option_map rest_row (firstErrParams T s) = Some Demo.row2.
Proof.
  intros T.
  destruct (fullValidate Demo.engine T (RowsArray [Demo.row3; Demo.row2; Demo.row1]) None
              Demo.state0) as [[[cb|s]|e] st'] eqn:Hcall;
    try (vm_compute in Hcall; discriminate Hcall).
  exists s, st'. split; [reflexivity|].
  rewrite (first_failure_is_the_first_failing_cell T s).
  - vm_compute in Hcall. inversion Hcall. reflexivity.
  - vm_compute in Hcall. inversion Hcall. intros c [<-|[<-|[<-|[]]]]; reflexivity.
  - vm_compute in Hcall. inversion Hcall. intros _ c [<-|[<-|[<-|[]]]]; reflexivity.
Defined.

(** ** What a session reports *)











